(** * redax StraxInserter: parse-and-chunk engine

    A shallow embedding of [StraxInserter.cc]: the packet decoder
    ([ParseDocuments]), the fragment builder, the chunk router
    ([AddFragmentToBuffer]), the chunk writer ([WriteOutFiles]), the gap
    filler ([CreateMissing]) and the worker loop ([ReadAndInsertData]),
    followed by the properties proved about them.

    Conventions.
    - Fixed-width C++ integers are [Z] with the wrap-around written out
      ([u16], [u32], [u64], [i16], [i32], [i64]).
    - A [std::string] used as a byte buffer is a [list Z] of bytes in
      [0, 256); a [std::string] used as a name is a [string].
    - [fFragments] (a [std::map<std::string, std::string*>]) is a
      [gmap string (list Z)] that is traversed in increasing key order.
    - The output tree below [fOutputPath] is two levels deep: directories,
      and files inside a directory.
    - The worker state carries two observation logs that the source does
      not have: [emitted], every (fragment, timestamp) handed to
      [AddFragmentToBuffer], and [errors_checked], every board reported to
      the data source.
    - Logging, wall-clock timing and the per-channel byte statistics do not
      influence the decoded output and are left out. *)

From Stdlib Require Import ZArith String Ascii List Lia Bool.
From stdpp Require Import gmap strings list fin_maps sorting.

Local Open Scope Z_scope.

(** ** Machine integers *)

Definition u16 (x : Z) : Z := x mod 2 ^ 16.
Definition u32 (x : Z) : Z := x mod 2 ^ 32.
Definition u64 (x : Z) : Z := x mod 2 ^ 64.

(** Two's complement reading of the low [w] bits. *)
Definition signed (w : Z) (x : Z) : Z :=
  let r := x mod 2 ^ w in
  if r <? 2 ^ (w - 1) then r else r - 2 ^ w.

Definition i16 : Z → Z := signed 16.
Definition i32 : Z → Z := signed 32.
Definition i64 : Z → Z := signed 64.

(** ** Byte strings *)

(** Appending the [n] bytes of a value on a little-endian host. *)
Fixpoint le_bytes (n : nat) (x : Z) : list Z :=
  match n with
  | O => []
  | S k => x mod 256 :: le_bytes k (x / 256)
  end.

(** The unsigned value of a little-endian byte sequence. *)
Fixpoint le_value (bs : list Z) : Z :=
  match bs with
  | [] => 0
  | b :: rest => b + 256 * le_value rest
  end.

(** [n] bytes starting at byte offset [pos]. *)
Definition sub_bytes (pos n : Z) (bs : list Z) : list Z :=
  take (Z.to_nat n) (drop (Z.to_nat pos) bs).

(** The padding loop [while ((int)fragment.size() < target) append(zero)]. *)
Definition zero_fill (target : Z) (fragment : list Z) : list Z :=
  fragment ++ replicate (Z.to_nat (target - Z.of_nat (length fragment))) 0.

(** ** Names: [std::to_string], [std::stoi], [substr] *)

Definition digit_char (d : Z) : ascii := ascii_of_nat (48 + Z.to_nat d).

Definition is_digit (c : ascii) : bool :=
  (48 <=? nat_of_ascii c)%nat && (nat_of_ascii c <=? 57)%nat.

Definition digit_val (c : ascii) : Z := Z.of_nat (nat_of_ascii c) - 48.

(** Decimal digits of a non-negative number, most significant first. *)
Fixpoint digits_of (fuel : nat) (n : Z) (acc : string) : string :=
  match fuel with
  | O => acc
  | S f =>
      let acc' := String (digit_char (n mod 10)) acc in
      if n <? 10 then acc' else digits_of f (n / 10) acc'
  end.

(** [std::to_string(int)]: an [int] has at most ten decimal digits. *)
Definition to_string (z : Z) : string :=
  if z <? 0 then String "-" (digits_of 10 (- z) "")
  else digits_of 10 z "".

(** [while (s.size() < width) s.insert(0, "0")]. *)
Definition pad_zeros (width : nat) (s : string) : string :=
  Nat.iter (width - String.length s) (String "0") s.

(** The [k] low decimal digits of [n], most significant first, put before
    [acc]: what [pad_zeros k] makes of a number below [10^k]. *)
Fixpoint fixed_width (k : nat) (n : Z) (acc : string) : string :=
  match k with
  | O => acc
  | S k => fixed_width k (n / 10) (String (digit_char (n mod 10)) acc)
  end.

Definition is_space (c : ascii) : bool :=
  let n := nat_of_ascii c in
  (n =? 32)%nat || ((9 <=? n)%nat && (n <=? 13)%nat).

Fixpoint skip_spaces (s : string) : string :=
  match s with
  | String c s' => if is_space c then skip_spaces s' else s
  | EmptyString => s
  end.

Fixpoint stoi_digits (s : string) (acc : Z) : Z :=
  match s with
  | String c s' =>
      if is_digit c then stoi_digits s' (10 * acc + digit_val c) else acc
  | EmptyString => acc
  end.

Definition starts_with_digit (s : string) : bool :=
  match s with
  | String c _ => is_digit c
  | EmptyString => false
  end.

(** [std::stoi]: leading blanks, an optional sign, then the longest run of
    digits; [None] stands for [std::invalid_argument] (no digit found). *)
Definition stoi (s : string) : option Z :=
  match skip_spaces s with
  | String c s' =>
      if Ascii.eqb c "-" then
        if starts_with_digit s' then Some (- stoi_digits s' 0) else None
      else if Ascii.eqb c "+" then
        if starts_with_digit s' then Some (stoi_digits s' 0) else None
      else if is_digit c then Some (stoi_digits (String c s') 0)
      else None
  | EmptyString => None
  end.

(** ** Configuration and external collaborators *)

(** One entry of [fFmt], the per-board wire format. *)
Record BoardFormat := {
  channel_header_words : Z;
  channel_mask_msb_idx : Z;
  channel_time_msb_idx : Z;
  ns_per_clk : Z;
  ns_per_sample : Z
}.

(** What [Initialize] fixes for a run, and what the worker consumes from
    its collaborators. The member types live in [StraxInserter.hh]; the
    lengths are taken as signed 64-bit quantities. *)
Record Config := {
  fChunkLength : Z;
  fChunkOverlap : Z;
  fFragmentBytes : Z;
  fHostname : string;
  thread_tag : string;               (* ss << std::this_thread::get_id() *)
  fFmt : Z → BoardFormat;            (* DAQController::GetDataFormat *)
  GetChannel : Z → Z → Z;            (* Options::GetChannel *)
  compress : list Z → list Z;        (* LZ4F_compressFrame / blosc_compress_ctx *)
  fForceQuit : bool                  (* read-only while a packet is parsed *)
}.

Definition fFullChunkLength (cfg : Config) : Z :=
  fChunkLength cfg + fChunkOverlap cfg.
Definition fStraxHeaderSize : Z := 24.
Definition fChunkNameLength : nat := 6.

(** ** The output tree *)

Record FileSys := {
  dirs : gset string;
  files : gmap (string * string) (list Z)
}.

Definition exists_dir (d : string) (fs : FileSys) : bool :=
  bool_decide (d ∈ dirs fs).

Definition exists_file (p : string * string) (fs : FileSys) : bool :=
  bool_decide (is_Some (files fs !! p)).

Definition create_directory (d : string) (fs : FileSys) : FileSys :=
  {| dirs := {[ d ]} ∪ dirs fs; files := files fs |}.

(** [std::ofstream] open, write, close: truncates; silently does nothing
    when the directory is missing. *)
Definition write_file (p : string * string) (content : list Z)
    (fs : FileSys) : FileSys :=
  if exists_dir p.1 fs
  then {| dirs := dirs fs; files := <[p := content]> (files fs) |}
  else fs.

(** [fs::rename] of a file; [None] stands for [fs::filesystem_error]. *)
Definition rename (src dst : string * string) (fs : FileSys)
    : option FileSys :=
  match files fs !! src with
  | Some content =>
      if exists_dir dst.1 fs
      then Some {| dirs := dirs fs;
                   files := <[dst := content]> (delete src (files fs)) |}
      else None
  | None => None
  end.

(** ** Worker state *)

Record Inserter := {
  fFragments : gmap string (list Z);
  fFragmentSize : Z;
  fMissingVerified : Z;
  fFailCounter : gmap Z Z;
  fEventsProcessed : Z;
  fFragmentsProcessed : Z;
  fBytesProcessed : Z;
  disk : FileSys;
  (* observations: what was handed to the router and to the data source *)
  emitted : list (list Z * Z);       (* AddFragmentToBuffer(fragment, timestamp) *)
  errors_checked : list Z            (* fDataSource->CheckError(bid) *)
}.

Definition set_fragments (f : gmap string (list Z) → gmap string (list Z))
    (st : Inserter) : Inserter :=
  {| fFragments := f (fFragments st);
     fFragmentSize := fFragmentSize st;
     fMissingVerified := fMissingVerified st;
     fFailCounter := fFailCounter st;
     fEventsProcessed := fEventsProcessed st;
     fFragmentsProcessed := fFragmentsProcessed st;
     fBytesProcessed := fBytesProcessed st;
     disk := disk st;
     emitted := emitted st;
     errors_checked := errors_checked st |}.

Definition set_fragment_size (f : Z → Z) (st : Inserter) : Inserter :=
  {| fFragments := fFragments st;
     fFragmentSize := f (fFragmentSize st);
     fMissingVerified := fMissingVerified st;
     fFailCounter := fFailCounter st;
     fEventsProcessed := fEventsProcessed st;
     fFragmentsProcessed := fFragmentsProcessed st;
     fBytesProcessed := fBytesProcessed st;
     disk := disk st;
     emitted := emitted st;
     errors_checked := errors_checked st |}.

Definition set_missing_verified (v : Z) (st : Inserter) : Inserter :=
  {| fFragments := fFragments st;
     fFragmentSize := fFragmentSize st;
     fMissingVerified := v;
     fFailCounter := fFailCounter st;
     fEventsProcessed := fEventsProcessed st;
     fFragmentsProcessed := fFragmentsProcessed st;
     fBytesProcessed := fBytesProcessed st;
     disk := disk st;
     emitted := emitted st;
     errors_checked := errors_checked st |}.

Definition set_disk (f : FileSys → FileSys) (st : Inserter) : Inserter :=
  {| fFragments := fFragments st;
     fFragmentSize := fFragmentSize st;
     fMissingVerified := fMissingVerified st;
     fFailCounter := fFailCounter st;
     fEventsProcessed := fEventsProcessed st;
     fFragmentsProcessed := fFragmentsProcessed st;
     fBytesProcessed := fBytesProcessed st;
     disk := f (disk st);
     emitted := emitted st;
     errors_checked := errors_checked st |}.

Definition count_event (st : Inserter) : Inserter :=
  {| fFragments := fFragments st;
     fFragmentSize := fFragmentSize st;
     fMissingVerified := fMissingVerified st;
     fFailCounter := fFailCounter st;
     fEventsProcessed := fEventsProcessed st + 1;
     fFragmentsProcessed := fFragmentsProcessed st;
     fBytesProcessed := fBytesProcessed st;
     disk := disk st;
     emitted := emitted st;
     errors_checked := errors_checked st |}.

Definition count_fragment (st : Inserter) : Inserter :=
  {| fFragments := fFragments st;
     fFragmentSize := fFragmentSize st;
     fMissingVerified := fMissingVerified st;
     fFailCounter := fFailCounter st;
     fEventsProcessed := fEventsProcessed st;
     fFragmentsProcessed := fFragmentsProcessed st + 1;
     fBytesProcessed := fBytesProcessed st;
     disk := disk st;
     emitted := emitted st;
     errors_checked := errors_checked st |}.

Definition count_bytes (n : Z) (st : Inserter) : Inserter :=
  {| fFragments := fFragments st;
     fFragmentSize := fFragmentSize st;
     fMissingVerified := fMissingVerified st;
     fFailCounter := fFailCounter st;
     fEventsProcessed := fEventsProcessed st;
     fFragmentsProcessed := fFragmentsProcessed st;
     fBytesProcessed := fBytesProcessed st + n;
     disk := disk st;
     emitted := emitted st;
     errors_checked := errors_checked st |}.

Definition record_emitted (fragment : list Z) (timestamp : Z)
    (st : Inserter) : Inserter :=
  {| fFragments := fFragments st;
     fFragmentSize := fFragmentSize st;
     fMissingVerified := fMissingVerified st;
     fFailCounter := fFailCounter st;
     fEventsProcessed := fEventsProcessed st;
     fFragmentsProcessed := fFragmentsProcessed st;
     fBytesProcessed := fBytesProcessed st;
     disk := disk st;
     emitted := emitted st ++ [(fragment, timestamp)];
     errors_checked := errors_checked st |}.

(** The board-fail branch: [CheckError(bid)] and [fFailCounter[bid]++]. *)
Definition board_failed (b : Z) (st : Inserter) : Inserter :=
  {| fFragments := fFragments st;
     fFragmentSize := fFragmentSize st;
     fMissingVerified := fMissingVerified st;
     fFailCounter :=
       <[b := default 0 (fFailCounter st !! b) + 1]> (fFailCounter st);
     fEventsProcessed := fEventsProcessed st;
     fFragmentsProcessed := fFragmentsProcessed st;
     fBytesProcessed := fBytesProcessed st;
     disk := disk st;
     emitted := emitted st;
     errors_checked := errors_checked st ++ [b] |}.

(** The state the constructor and [Initialize] leave behind, with the run's
    output directory created and empty. *)
Definition fresh : Inserter :=
  {| fFragments := ∅;
     fFragmentSize := 0;
     fMissingVerified := 0;
     fFailCounter := ∅;
     fEventsProcessed := 0;
     fFragmentsProcessed := 0;
     fBytesProcessed := 0;
     disk := {| dirs := ∅; files := ∅ |};
     emitted := [];
     errors_checked := [] |}.

(** ** Chunk router *)

(** [StraxInserter::GetStringFormat]; the same padding is written out
    inline in [AddFragmentToBuffer]. *)
Definition GetStringFormat (id : Z) : string :=
  pad_zeros fChunkNameLength (to_string id).

(** [fFragments[name]->append(fragment)], creating the buffer on demand. *)
Definition bucket_append (name : string) (fragment : list Z)
    (m : gmap string (list Z)) : gmap string (list Z) :=
  <[name := default [] (m !! name) ++ fragment]> m.

Definition chunk_of (cfg : Config) (timestamp : Z) : Z :=
  i32 (Z.quot timestamp (fFullChunkLength cfg)).

Definition nextpre_of (cfg : Config) (timestamp : Z) : bool :=
  (chunk_of cfg timestamp + 1) * fFullChunkLength cfg - timestamp
    <? fChunkOverlap cfg.

(** [StraxInserter::AddFragmentToBuffer]: the new state and the returned
    [chunk_id]. *)
Definition AddFragmentToBuffer (cfg : Config) (fragment : list Z)
    (timestamp : Z) (st : Inserter) : Inserter * Z :=
  let chunk_id := chunk_of cfg timestamp in
  let nextpre := nextpre_of cfg timestamp in
  let chunk_index := GetStringFormat chunk_id in
  let st := record_emitted fragment timestamp st in
  let st := set_fragment_size (λ s, s + Z.of_nat (length fragment)) st in
  if negb nextpre then
    (set_fragments (bucket_append chunk_index fragment) st, chunk_id)
  else
    let nextchunk_index := GetStringFormat (chunk_id + 1) in
    let st := set_fragments
                (bucket_append (nextchunk_index +:+ "_pre") fragment) st in
    let st := set_fragments
                (bucket_append (chunk_index +:+ "_post") fragment) st in
    (st, chunk_id).

(** ** Artificial dead time *)

Definition deadtime_fragment (cfg : Config) (timestamp bid : Z) : list Z :=
  let length := i32 (Z.shiftr (fFragmentBytes cfg) 1) in
  let sw := 10 in
  let channel := 790 in
  let fragment_i := 0 in
  let baseline := 0 in
  let fragment :=
    le_bytes 8 timestamp ++ le_bytes 4 length ++ le_bytes 2 sw
      ++ le_bytes 2 channel ++ le_bytes 4 length ++ le_bytes 2 fragment_i
      ++ le_bytes 2 baseline ++ le_bytes 2 bid in
  zero_fill (fFragmentBytes cfg + fStraxHeaderSize) fragment.

(** [StraxInserter::GenerateArtificialDeadtime]. *)
Definition GenerateArtificialDeadtime (cfg : Config) (timestamp bid : Z)
    (st : Inserter) : Inserter :=
  (AddFragmentToBuffer cfg (deadtime_fragment cfg timestamp bid)
     timestamp st).1.

(** ** Results of fallible or looping code *)

Inductive outcome (A : Type) : Type :=
  | Done (a : A)            (* normal return *)
  | Throw (what : string)   (* a C++ exception leaves the function *)
  | OutOfFuel.              (* the loop bound of the model was reached *)
Arguments Done {A} a.
Arguments Throw {A} what.
Arguments OutOfFuel {A}.

Global Instance outcome_bind : MBind outcome := λ A B k m,
  match m with
  | Done a => k a
  | Throw what => Throw what
  | OutOfFuel => OutOfFuel
  end.

(** ** Chunk writer *)

Definition GetDirectoryPath (id : string) (temp : bool) : string :=
  if temp then id +:+ "_temp" else id.

Definition file_name (cfg : Config) : string :=
  fHostname cfg +:+ "_" +:+ thread_tag cfg.

Definition GetFilePath (cfg : Config) (id : string) (temp : bool)
    : string * string :=
  (GetDirectoryPath id temp, file_name cfg).

(** [if (!fs::exists(dir)) fs::create_directory(dir)]. *)
Definition ensure_directory (d : string) (fs : FileSys) : FileSys :=
  if negb (exists_dir d fs) then create_directory d fs else fs.

(** One of the three guarded blocks of [CreateMissing]: an empty file for
    this worker, only where no file is there yet. *)
Definition create_placeholder (cfg : Config) (chunk_index : string)
    (fs : FileSys) : FileSys :=
  if negb (exists_file (GetFilePath cfg chunk_index false) fs) then
    write_file (GetFilePath cfg chunk_index false) []
      (ensure_directory (GetDirectoryPath chunk_index false) fs)
  else fs.

(** The body of the loop of [CreateMissing] for one [x]. *)
Definition create_missing_at (cfg : Config) (fs : FileSys) (x : Z)
    : FileSys :=
  let chunk_index := GetStringFormat (i32 x) in
  let chunk_index_pre := chunk_index +:+ "_pre" in
  let chunk_index_post := chunk_index +:+ "_post" in
  let fs := create_placeholder cfg chunk_index fs in
  let fs := if negb (x =? 0) then create_placeholder cfg chunk_index_pre fs
            else fs in
  create_placeholder cfg chunk_index_post fs.

(** [StraxInserter::CreateMissing(u_int32_t back_from_id)]. *)
Definition CreateMissing (cfg : Config) (back_from_id : Z)
    (st : Inserter) : Inserter :=
  let back := u32 back_from_id in
  let first := u32 (fMissingVerified st) in
  let fs := foldl (create_missing_at cfg) (disk st)
              (seqZ first (back - first)) in
  set_missing_verified back (set_disk (λ _, fs) st).

(** The keys of [fFragments] in the order a range-for visits them. *)
Definition bucket_names (m : gmap string (list Z)) : list string :=
  merge_sort String.le (map_to_list m).*1.

(** The leading digits of a bucket name, [std::stoi(name.substr(0, 6))]. *)
Definition id_of (chunk_index : string) : option Z :=
  stoi (substring 0 fChunkNameLength chunk_index).

(** Compress one bucket into [name_temp/], move it to [name/], fill gaps. *)
Definition persist_bucket (cfg : Config) (chunk_index : string)
    (idnrint : Z) (st : Inserter) : outcome Inserter :=
  let fs := ensure_directory (GetDirectoryPath chunk_index true) (disk st) in
  let buffer := default [] (fFragments st !! chunk_index) in
  let uncompressed_size := Z.of_nat (length buffer) in
  let out_buffer := compress cfg buffer in
  let st := set_fragment_size (λ s, s - uncompressed_size) st in
  let fs := write_file (GetFilePath cfg chunk_index true) out_buffer fs in
  let fs := ensure_directory (GetDirectoryPath chunk_index false) fs in
  match rename (GetFilePath cfg chunk_index true)
          (GetFilePath cfg chunk_index false) fs with
  | None => Throw "filesystem_error"
  | Some fs => Done (CreateMissing cfg idnrint (set_disk (λ _, fs) st))
  end.

(** The range-for over [fFragments] in [WriteOutFiles]; the second
    component is [idx_to_clear]. *)
Fixpoint write_loop (cfg : Config) (smallest_index_seen : Z) (end_ : bool)
    (names : list string) (st : Inserter) (idx_to_clear : list string)
    : outcome (Inserter * list string) :=
  match names with
  | [] => Done (st, idx_to_clear)
  | chunk_index :: rest =>
      if String.eqb chunk_index "" then Done (st, idx_to_clear)
      else
        match id_of chunk_index with
        | None => Throw "invalid_argument"
        | Some idnrint =>
            if negb ((idnrint <? smallest_index_seen - 1) || end_) then
              write_loop cfg smallest_index_seen end_ rest st idx_to_clear
            else
              st ← persist_bucket cfg chunk_index idnrint st;
              write_loop cfg smallest_index_seen end_ rest st
                (idx_to_clear ++ [chunk_index])
        end
  end.

Definition bytes_of_string (s : string) : list Z :=
  (λ c, Z.of_nat (nat_of_ascii c)) <$> list_ascii_of_string s.

(** The end-of-stream part of [WriteOutFiles]. *)
Definition write_the_end (cfg : Config) (st : Inserter) : Inserter :=
  let st := set_fragment_size (λ _, 0) (set_fragments (λ _, ∅) st) in
  set_disk (λ fs, write_file ("THE_END"%string, file_name cfg)
                    (bytes_of_string "...my only friend")
                    (ensure_directory "THE_END" fs)) st.

(** [StraxInserter::WriteOutFiles(int smallest_index_seen, bool end)]. *)
Definition WriteOutFiles (cfg : Config) (smallest_index_seen : Z)
    (end_ : bool) (st : Inserter) : outcome Inserter :=
  '(st, idx_to_clear) ←
     write_loop cfg smallest_index_seen end_
       (bucket_names (fFragments st)) st [];
  let st := set_fragments (λ m, foldl (λ m s, delete s m) m idx_to_clear) st in
  Done (if end_ then write_the_end cfg st else st).

(** ** Packet decoder *)

Record data_packet := {
  buff : list Z;          (* the 32-bit words of the buffer *)
  size : Z;               (* its size in bytes *)
  clock_counter : Z;
  header_time : Z;
  bid : Z
}.

(** [buff[i]]. Reading past the end of the buffer is undefined in the
    source; the model reads 0 there. *)
Definition word (dp : data_packet) (i : Z) : Z :=
  default 0 (buff dp !! Z.to_nat i).

(** The buffer seen through a [char*]. *)
Definition buffer_bytes (dp : data_packet) : list Z :=
  flat_map (le_bytes 4) (buff dp).

Definition get (l : list Z) (i : nat) : Z := default 0 (l !! i).

Definition max_channels : nat := 16.
Definition event_header_words : Z := 4.

(** [__builtin_popcount] of an unsigned 32-bit value. *)
Definition popcount (x : Z) : Z :=
  Z.of_nat (length (filter (λ i, Z.testbit x i = true) (seqZ 0 32))).

(** The locals of [ParseDocuments] that live across loop iterations. *)
Record Cursor := {
  idx : Z;
  clock_counters : list Z;
  last_times_seen : list Z;
  smallest_latest_index_seen : Z
}.

Definition set_idx (i : Z) (cur : Cursor) : Cursor :=
  {| idx := i;
     clock_counters := clock_counters cur;
     last_times_seen := last_times_seen cur;
     smallest_latest_index_seen := smallest_latest_index_seen cur |}.

Definition set_smallest (s : Z) (cur : Cursor) : Cursor :=
  {| idx := idx cur;
     clock_counters := clock_counters cur;
     last_times_seen := last_times_seen cur;
     smallest_latest_index_seen := s |}.

(** The clock-reset logic: the new value of [clock_counters[channel]]. *)
Definition rollover (channel_time header_time last ctr : Z) : Z :=
  let ctr :=
    if (1500000000 <? channel_time) && (header_time <? 500000000)
       && (last =? 0xFFFFFFFF) && negb (ctr =? 0)
    then u32 (ctr - 1)
    else if (channel_time <? 500000000) && (1500000000 <? header_time)
            && (last =? 0xFFFFFFFF)
    then u32 (ctr + 1)
    else ctr in
  if (channel_time <? last) && negb (last =? 0xFFFFFFFF)
  then u32 (ctr + 1)
  else ctr.

(** What the head of the channel loop body decides. *)
Inductive Header :=
  | Garbled (idx : Z)     (* break *)
  | Empty (idx : Z)       (* continue *)
  | Payload (idx channel_words channel_time channel_timeMSB baseline_ch : Z)
      (clock_counters last_times_seen : list Z).

(** Lines 209-266: the defaults of the default firmware, overridden when a
    channel header is present. *)
Definition channel_header (fmt : BoardFormat) (dp : data_packet)
    (words_in_event event_start_idx channels_in_event event_time : Z)
    (channel : nat) (cur : Cursor) : Header :=
  let chw := channel_header_words fmt in
  let i := idx cur in
  if 0 <? chw then
    let channel_words :=
      Z.min (Z.land (word dp i) 0x7FFFFF)
        (u32 (words_in_event - u32 (i - event_start_idx))) in
    if channel_words <? Z.land (word dp i) 0x7FFFFF then
      Garbled (u32 (i + chw))
    else if channel_words <=? u32 chw then
      Empty (u32 (i + u32 (chw - channel_words)))
    else
      let channel_words := u32 (channel_words - chw) in
      let channel_time := Z.land (word dp (u32 (i + 1))) 0xFFFFFFFF in
      let channel_timeMSB :=
        if channel_time_msb_idx fmt =? 2
        then Z.land (word dp (u32 (i + 2))) 0xFFFF else 0 in
      let baseline_ch :=
        if channel_time_msb_idx fmt =? 2
        then u16 (Z.land (Z.shiftr (word dp (u32 (i + 2))) 16) 0x3FFF)
        else 0 in
      let i := u32 (i + chw) in
      if chw <=? 2 then
        let ctr := rollover channel_time (header_time dp)
                     (get (last_times_seen cur) channel)
                     (get (clock_counters cur) channel) in
        Payload i channel_words channel_time channel_timeMSB baseline_ch
          (<[channel := ctr]> (clock_counters cur))
          (<[channel := channel_time]> (last_times_seen cur))
      else
        Payload i channel_words channel_time channel_timeMSB baseline_ch
          (clock_counters cur) (last_times_seen cur)
  else
    Payload i (u32 (words_in_event - event_header_words) / channels_in_event)
      event_time 0 0 (clock_counters cur) (last_times_seen cur).

(** The sanity check before fragments are cut (lines 269-281). *)
Definition whoops_of (dp : data_packet)
    (total_words words_in_event event_start_idx i channel_words : Z) : bool :=
  existsb (λ w, (total_words <=? u32 (i + w))
                || (Z.shiftr (word dp (u32 (i + w))) 28 =? 0xA))
          (seqZ 0 channel_words)
  || (words_in_event <=? u32 (i - event_start_idx)).

(** The absolute time in ns (lines 285-293). The product is taken in
    [unsigned long] and stored in an [int64_t]. *)
Definition Time64 (fmt : BoardFormat) (ctr channel_timeMSB channel_time : Z)
    : Z :=
  let iBitShift := 31 in
  if channel_time_msb_idx fmt =? 2 then
    i64 (u64 (ns_per_clk fmt)
         * u64 (Z.shiftl channel_timeMSB 32 + channel_time))
  else
    i64 (u64 (ns_per_clk fmt)
         * u64 (Z.shiftl ctr iBitShift + channel_time)).

(** One serialized fragment: the 24-byte header, the samples, zero fill. *)
Definition strax_fragment (cfg : Config)
    (time_this_fragment samples_this_fragment sw cl samples_in_pulse
       fragment_index baseline_ch : Z) (data : list Z) : list Z :=
  zero_fill (fFragmentBytes cfg + fStraxHeaderSize)
    (le_bytes 8 time_this_fragment ++ le_bytes 4 samples_this_fragment
       ++ le_bytes 2 sw ++ le_bytes 2 cl ++ le_bytes 4 samples_in_pulse
       ++ le_bytes 2 fragment_index ++ le_bytes 2 baseline_ch ++ data).

(** What is fixed while one channel's waveform is cut into fragments. *)
Record Pulse := {
  pulse_time : Z;          (* Time64 *)
  samples_in_pulse : Z;
  offset : Z;              (* idx << 1, in 16-bit samples *)
  sw : Z;
  cl : Z;
  baseline : Z
}.

(** The loop [while (index_in_pulse < samples_in_pulse)] (lines 318-371);
    returns [smallest_latest_index_seen] and the worker. The product
    [fragment_samples*sw*fragment_index] of line 332 is taken in [int]: the
    two 16-bit operands are promoted, and each product keeps its low 32
    bits, read in two's complement, before it is widened and added to the
    64-bit pulse time. *)
Fixpoint fragment_loop (fuel : nat) (cfg : Config) (dp : data_packet)
    (p : Pulse) (index_in_pulse fragment_index smallest : Z)
    (st : Inserter) : outcome (Z * Inserter) :=
  match fuel with
  | O => OutOfFuel
  | S fuel =>
      if index_in_pulse <? samples_in_pulse p then
        let fragment_samples := Z.shiftr (fFragmentBytes cfg) 1 in
        let partial :=
          samples_in_pulse p
            <? u32 (fragment_samples + fragment_index * fragment_samples) in
        let max_sample :=
          if partial
          then u32 (index_in_pulse
                    + u32 (samples_in_pulse p
                           - fragment_index * fragment_samples))
          else u32 (index_in_pulse + fragment_samples) in
        let samples_this_fragment :=
          if partial then u32 (max_sample - index_in_pulse)
          else u32 fragment_samples in
        let st := count_fragment st in
        let time_this_fragment :=
          u64 (pulse_time p
               + i32 (i32 (fragment_samples * sw p) * fragment_index)) in
        let data :=
          sub_bytes (2 * u32 (offset p + index_in_pulse))
            (u32 (samples_this_fragment * 2)) (buffer_bytes dp) in
        let fragment :=
          strax_fragment cfg time_this_fragment samples_this_fragment
            (sw p) (cl p) (samples_in_pulse p) fragment_index (baseline p)
            data in
        let '(st, chunk_id) :=
          AddFragmentToBuffer cfg fragment (i64 time_this_fragment) st in
        let smallest :=
          if (smallest =? -1) || (chunk_id <? smallest) then chunk_id
          else smallest in
        if fForceQuit cfg then Done (smallest, st)
        else fragment_loop fuel cfg dp p max_sample
               (u16 (fragment_index + 1)) smallest st
      else Done (smallest, st)
  end.

(** The channel loop of one event (lines 205-374), over the channels still
    to visit. *)
Fixpoint channel_loop (fuel : nat) (cfg : Config) (dp : data_packet)
    (total_words words_in_event event_start_idx channel_mask event_time : Z)
    (channels : list nat) (cur : Cursor) (st : Inserter)
    : outcome (Cursor * Inserter) :=
  match channels with
  | [] => Done (cur, st)
  | channel :: rest =>
      let continue_ := channel_loop fuel cfg dp total_words words_in_event
                         event_start_idx channel_mask event_time rest in
      if negb (Z.land (Z.shiftr channel_mask (Z.of_nat channel)) 1 =? 1)
      then continue_ cur st
      else
        let fmt := fFmt cfg (bid dp) in
        match channel_header fmt dp words_in_event event_start_idx
                (popcount channel_mask) event_time channel cur with
        | Garbled i => Done (set_idx i cur, st)
        | Empty i => continue_ (set_idx i cur) st
        | Payload i channel_words channel_time channel_timeMSB baseline_ch
            ccs lts =>
            let cur := {| idx := i; clock_counters := ccs;
                          last_times_seen := lts;
                          smallest_latest_index_seen :=
                            smallest_latest_index_seen cur |} in
            let whoops := whoops_of dp total_words words_in_event
                            event_start_idx i channel_words in
            let t := Time64 fmt (get ccs channel) channel_timeMSB
                       channel_time in
            if whoops then
              Done (cur, GenerateArtificialDeadtime cfg t (i16 (bid dp)) st)
            else
              let p := {| pulse_time := t;
                          samples_in_pulse := u32 (Z.shiftl channel_words 1);
                          offset := u32 (Z.shiftl i 1);
                          sw := u16 (ns_per_sample fmt);
                          cl := i16 (GetChannel cfg (bid dp)
                                       (Z.of_nat channel));
                          baseline := baseline_ch |} in
              if cl p =? -1 then Throw "Failed to parse channel map."
              else
                '(smallest, st) ←
                   fragment_loop fuel cfg dp p 0 0
                     (smallest_latest_index_seen cur) st;
                let cur := set_smallest smallest
                             (set_idx (u32 (i + channel_words)) cur) in
                if fForceQuit cfg then Done (cur, st)
                else continue_ cur st
        end
  end.

(** The event seen at a header word (lines 173-376); the flag tells the
    outer loop to go on. *)
Definition parse_event (fuel : nat) (cfg : Config) (dp : data_packet)
    (total_words : Z) (cur : Cursor) (st : Inserter)
    : outcome (Cursor * Inserter * bool) :=
  let fmt := fFmt cfg (bid dp) in
  let i := idx cur in
  let words_in_event :=
    Z.min (Z.land (word dp i) 0xFFFFFFF) (u32 (total_words - i)) in
  let channel_mask :=
    if negb (channel_mask_msb_idx fmt =? -1)
    then Z.lor (Z.shiftl (Z.land (Z.shiftr (word dp (u32 (i + 2))) 24) 0xFF) 8)
               (Z.land (word dp (u32 (i + 1))) 0xFF)
    else Z.land (word dp (u32 (i + 1))) 0xFF in
  let board_fail := negb (Z.land (word dp (u32 (i + 1))) 0x4000000 =? 0) in
  let event_time := Z.land (word dp (u32 (i + 3))) 0xFFFFFFFF in
  let st := count_event st in
  if board_fail then
    Done (set_idx (u32 (i + event_header_words)) cur,
          board_failed (bid dp) st, true)
  else
    let event_start_idx := i in
    let cur := set_idx (u32 (i + event_header_words)) cur in
    '(cur, st) ←
       channel_loop fuel cfg dp total_words words_in_event event_start_idx
         channel_mask event_time (seq 0 max_channels) cur st;
    Done (cur, st, negb (fForceQuit cfg)).

(** The outer loop [while (idx < total_words && buff[idx] != 0xFFFFFFFF)]. *)
Fixpoint parse_loop (fuel : nat) (inner : nat) (cfg : Config)
    (dp : data_packet) (total_words : Z) (cur : Cursor) (st : Inserter)
    : outcome (Cursor * Inserter) :=
  match fuel with
  | O => OutOfFuel
  | S fuel =>
      if (idx cur <? total_words)
         && negb (word dp (idx cur) =? 0xFFFFFFFF) then
        if Z.shiftr (word dp (idx cur)) 28 =? 0xA then
          '(cur, st, go_on) ← parse_event inner cfg dp total_words cur st;
          if go_on : bool then parse_loop fuel inner cfg dp total_words cur st
          else Done (cur, st)
        else
          parse_loop fuel inner cfg dp total_words
            (set_idx (u32 (idx cur + 1)) cur) st
      else Done (cur, st)
  end.

(** [StraxInserter::ParseDocuments]. [fuel] bounds the iterations of the
    outer loop and of each fragment loop. *)
Definition ParseDocuments (fuel : nat) (cfg : Config) (dp : data_packet)
    (st : Inserter) : outcome Inserter :=
  let cur := {| idx := 0;
                clock_counters := replicate max_channels
                                    (u32 (clock_counter dp));
                last_times_seen := replicate max_channels 0xFFFFFFFF;
                smallest_latest_index_seen := -1 |} in
  let total_words := u32 (size dp) / 4 in
  '(cur, st) ← parse_loop fuel fuel cfg dp total_words cur st;
  st ← (if negb (smallest_latest_index_seen cur =? -1)
        then WriteOutFiles cfg (smallest_latest_index_seen cur) false st
        else Done st);
  Done (count_bytes (size dp) st).

(** ** The worker loop *)

(** The loop [for (auto& dp_ : b)] over one batch of the data source; a
    force-quit drops the rest of the batch. *)
Fixpoint parse_batch (fuel : nat) (cfg : Config) (b : list data_packet)
    (st : Inserter) : outcome Inserter :=
  match b with
  | [] => Done st
  | dp :: rest =>
      st ← ParseDocuments fuel cfg dp st;
      if fForceQuit cfg then Done st else parse_batch fuel cfg rest st
  end.

(** The loop [while (fActive == true)], over the batches [GetData] handed
    out until [Close] cleared [fActive]; a poll without data only sleeps.
    With [buffer_type] other than [dual] every batch is one packet. The
    counters [fBufferLength] and [fBufferCounter], which only the
    destructor reads for its log and benchmark output, are left out. *)
Fixpoint read_loop (fuel : nat) (cfg : Config) (batches : list (list data_packet))
    (st : Inserter) : outcome Inserter :=
  match batches with
  | [] => Done st
  | b :: rest =>
      st ← parse_batch fuel cfg b st;
      read_loop fuel cfg rest st
  end.

(** [StraxInserter::ReadAndInsertData]; the value returned is always 0. *)
Definition ReadAndInsertData (fuel : nat) (cfg : Config)
    (batches : list (list data_packet)) (st : Inserter) : outcome Inserter :=
  st ← read_loop fuel cfg batches st;
  if 0 <? fBytesProcessed st then WriteOutFiles cfg 1000000 true st
  else Done st.

(** The bytes of all packets of all batches. *)
Definition total_size (batches : list (list data_packet)) : Z :=
  foldr (λ b total, foldr (λ dp total, size dp + total) total b) 0 batches.

(** [StraxInserter::Close]: the fail counters are added to [ret], board by
    board. (The [fActive] flag it clears is what ends the list of batches
    of [read_loop].) *)
Definition Close (st : Inserter) (ret : gmap Z Z) : gmap Z Z :=
  map_fold (λ b n ret, <[b := default 0 (ret !! b) + n]> ret) ret
    (fFailCounter st).

(** ** The reader's view of a fragment *)

(** The seven header fields, read back as signed little-endian integers
    from their offsets in the 24-byte header. *)
Record FragmentHeader := {
  h_time : Z;
  h_samples_this_fragment : Z;
  h_sample_width : Z;
  h_channel : Z;
  h_samples_in_pulse : Z;
  h_fragment_index : Z;
  h_baseline : Z
}.

Definition read_header (fragment : list Z) : FragmentHeader :=
  {| h_time := i64 (le_value (sub_bytes 0 8 fragment));
     h_samples_this_fragment := i32 (le_value (sub_bytes 8 4 fragment));
     h_sample_width := i16 (le_value (sub_bytes 12 2 fragment));
     h_channel := i16 (le_value (sub_bytes 14 2 fragment));
     h_samples_in_pulse := i32 (le_value (sub_bytes 16 4 fragment));
     h_fragment_index := i16 (le_value (sub_bytes 20 2 fragment));
     h_baseline := i16 (le_value (sub_bytes 22 2 fragment)) |}.

(** ** Example configurations *)

(** A V1724 with DPP-DAW firmware: two channel header words, 10 ns clock. *)
Definition dpp_daw : BoardFormat :=
  {| channel_header_words := 2; channel_mask_msb_idx := -1;
     channel_time_msb_idx := -1; ns_per_clk := 10; ns_per_sample := 10 |}.

(** A board with default firmware: no channel header. *)
Definition default_firmware : BoardFormat :=
  {| channel_header_words := 0; channel_mask_msb_idx := -1;
     channel_time_msb_idx := -1; ns_per_clk := 10; ns_per_sample := 10 |}.

(** The default options (5 s chunks, 0.5 s overlap, 220 payload bytes), one
    format for every board, local channel numbers as global ids, and the
    identity standing in for the compressor. *)
Definition example_cfg (fmt : BoardFormat) : Config :=
  {| fChunkLength := 5000000000; fChunkOverlap := 500000000;
     fFragmentBytes := 220; fHostname := "reader0"; thread_tag := "7f01";
     fFmt := λ _, fmt; GetChannel := λ _ channel, channel;
     compress := λ bytes, bytes; fForceQuit := false |}.

(** ** The specification's formulas, for comparison with the code *)

(** The timestamp as the specification words it: the counter shifted by 31
    and OR-ed with the channel time. *)
Definition spec_Time64 (fmt : BoardFormat) (ctr channel_time : Z) : Z :=
  ns_per_clk fmt * Z.lor (Z.shiftl ctr 31) channel_time.


(** ** Example packets *)


(** One DPP-DAW event of eight words: channel 0 with a two-word channel
    header (four words in all, channel time 1e8) and two payload words. *)
Definition dpp_daw_packet : data_packet :=
  {| buff := [0xA0000008; 0x00000001; 0; 100000000;
              4; 100000000; 0x00020001; 0x00040003];
     size := 32; clock_counter := 0; header_time := 1600000000; bid := 0 |}.

(** The same event with bit 31 of the channel time word set, on a board
    whose clock counter is 1. *)
Definition high_bit_packet : data_packet :=
  {| buff := [0xA0000008; 0x00000001; 0; 100000000;
              4; 0x80000000; 0x00020001; 0x00040003];
     size := 32; clock_counter := 1; header_time := 1600000000; bid := 0 |}.

(** An event with the board-fail bit set, followed by the terminator. *)
Definition board_fail_packet : data_packet :=
  {| buff := [0xA0000004; 0x04000001; 0; 100000000; 0xFFFFFFFF];
     size := 20; clock_counter := 0; header_time := 100000000; bid := 5 |}.

(** A payload of eight bytes, so that a short pulse needs two fragments. *)
Definition tiny_payload_cfg : Config :=
  {| fChunkLength := 5000000000; fChunkOverlap := 500000000;
     fFragmentBytes := 8; fHostname := "reader0"; thread_tag := "7f01";
     fFmt := λ _, default_firmware; GetChannel := λ _ channel, channel;
     compress := λ bytes, bytes; fForceQuit := false |}.

(** One event of seven words: channel 0 only, three payload words. *)
Definition three_word_packet : data_packet :=
  {| buff := [0xA0000007; 0x00000001; 0; 100000000;
              0x00020001; 0x00040003; 0x00060005];
     size := 28; clock_counter := 0; header_time := 100000000; bid := 0 |}.

(** One event whose second payload word looks like an event header. *)
Definition caened_packet : data_packet :=
  {| buff := [0xA0000006; 0x00000001; 0; 100000000;
              0x00020001; 0xA0000000; 0; 0; 0];
     size := 36; clock_counter := 0; header_time := 100000000; bid := 3 |}.

(** ** What the output tree holds *)

(** The worker's file is present in directory [name]. *)
Definition holds_file (cfg : Config) (fs : FileSys) (name : string) : Prop :=
  name ∈ dirs fs ∧ is_Some (files fs !! GetFilePath cfg name false).

(** Chunk id [x] has its three directories (two for id 0), each with the
    worker's file. *)
Definition gap_filled (cfg : Config) (fs : FileSys) (x : Z) : Prop :=
  holds_file cfg fs (GetStringFormat x)
  ∧ holds_file cfg fs (GetStringFormat x +:+ "_post")
  ∧ (x ≠ 0 → holds_file cfg fs (GetStringFormat x +:+ "_pre")).

(** Every file lies in a directory of the tree. *)
Definition tree_ok (fs : FileSys) : Prop :=
  ∀ d f, is_Some (files fs !! (d, f)) → d ∈ dirs fs.

(** A bucket name as the router makes them: six digits, possibly followed
    by [_pre] or [_post]. *)
Definition router_key (name : string) : bool :=
  match id_of name with
  | Some c =>
      (0 <=? c) && (c <? 1000000)
      && (String.eqb name (GetStringFormat c)
          || String.eqb name (GetStringFormat c +:+ "_pre")
          || String.eqb name (GetStringFormat c +:+ "_post"))
  | None => false
  end.

(** The buckets [WriteOutFiles] selects. *)
Definition selected (smallest_index_seen : Z) (end_ : bool) (name : string)
    : bool :=
  match id_of name with
  | Some idnrint => (idnrint <? smallest_index_seen - 1) || end_
  | None => false
  end.

(** [fs'] extends [fs]: directories are kept, files are kept byte for byte,
    and a file that is new is empty. *)
Definition extends (fs fs' : FileSys) : Prop :=
  dirs fs ⊆ dirs fs'
  ∧ ∀ p, files fs' !! p = files fs !! p
         ∨ (files fs !! p = None ∧ files fs' !! p = Some []).

(** ** Worker histories *)


(** What a worker does to its buckets between start and end of stream:
    it routes fragments and flushes with [end = false], in any order. *)
Inductive Step :=
  | Route (fragment : list Z) (timestamp : Z)
  | Flush (smallest_index_seen : Z).

Fixpoint run (cfg : Config) (steps : list Step) (st : Inserter)
    : outcome Inserter :=
  match steps with
  | [] => Done st
  | Route fragment timestamp :: rest =>
      run cfg rest (AddFragmentToBuffer cfg fragment timestamp st).1
  | Flush smallest_index_seen :: rest =>
      st ← WriteOutFiles cfg smallest_index_seen false st;
      run cfg rest st
  end.

(** A timestamp whose chunk id is non-negative and leaves room for a
    six-digit successor. *)
Definition routable (cfg : Config) (timestamp : Z) : Prop :=
  0 <= timestamp ∧ timestamp / fFullChunkLength cfg < 999999.


(** The buckets a fragment at [timestamp] is appended to. *)
Definition destinations (cfg : Config) (timestamp : Z) : list string :=
  let c := chunk_of cfg timestamp in
  if nextpre_of cfg timestamp
  then [GetStringFormat (c + 1) +:+ "_pre"; GetStringFormat c +:+ "_post"]
  else [GetStringFormat c].





(** ** The fragments of one pulse, as the specification describes them *)

(** Fragment [i] of a pulse: [min(fragment_samples, samples_in_pulse -
    i*fragment_samples)] samples taken [i*fragment_samples] samples into the
    pulse, stamped [fragment_samples * sw * i] ns after the pulse time, the
    product taken in 32 bits as the loop takes it. *)
Definition nth_fragment (cfg : Config) (dp : data_packet) (p : Pulse)
    (i : Z) : list Z * Z :=
  let fragment_samples := Z.shiftr (fFragmentBytes cfg) 1 in
  let samples_this_fragment :=
    Z.min fragment_samples (samples_in_pulse p - i * fragment_samples) in
  let time_this_fragment :=
    u64 (pulse_time p + i32 (i32 (fragment_samples * sw p) * i)) in
  (strax_fragment cfg time_this_fragment samples_this_fragment (sw p) (cl p)
     (samples_in_pulse p) i (baseline p)
     (sub_bytes (2 * (offset p + i * fragment_samples))
        (2 * samples_this_fragment) (buffer_bytes dp)),
   i64 time_this_fragment).

(** The number of fragments of a pulse: [ceil(samples_in_pulse /
    fragment_samples)]. *)
Definition fragment_count (cfg : Config) (p : Pulse) : Z :=
  let fragment_samples := Z.shiftr (fFragmentBytes cfg) 1 in
  (samples_in_pulse p + fragment_samples - 1) / fragment_samples.

(** The first [samples_this_fragment * 2] payload bytes of a fragment. *)
Definition samples_of (fragment : list Z) : list Z :=
  sub_bytes fStraxHeaderSize
    (2 * h_samples_this_fragment (read_header fragment)) fragment.

(** A fragment of the full size, header plus payload. *)
Definition full_size (cfg : Config) (ft : list Z * Z) : Prop :=
  Z.of_nat (length ft.1) = fStraxHeaderSize + fFragmentBytes cfg.

(** The fragments a piece of code has added to [emitted] are all of the
    full size. *)
Definition adds_full_size (cfg : Config) (st st' : Inserter) : Prop :=
  ∃ fragments,
    emitted st' = emitted st ++ fragments ∧ Forall (full_size cfg) fragments.

(** The model's loop bound was not what ended the run. *)
Definition returned {A : Type} (r : outcome A) : Prop :=
  match r with
  | OutOfFuel => False
  | _ => True
  end.

(** ** Notions used by the further properties *)

(** The bytes held in the buckets of [fFragments]. *)
Definition buffered_bytes (m : gmap string (list Z)) : Z :=
  map_fold (λ _ buffer total, total + Z.of_nat (length buffer)) 0 m.

(** The bytes of the fragments of a log that fell into the overlap band. *)
Definition overlap_bytes (cfg : Config) (log : list (list Z * Z)) : Z :=
  foldr (λ ft total,
           if nextpre_of cfg ft.2 then total + Z.of_nat (length ft.1)
           else total) 0 log.

(** The value a run has returned, [d] if it has not. *)
Definition result {A : Type} (d : A) (r : outcome A) : A :=
  match r with
  | Done a => a
  | _ => d
  end.

(** The bytes bucket [name] holds in [m]; 0 if there is no such bucket. *)
Definition bucket_size (m : gmap string (list Z)) (name : string) : Z :=
  Z.of_nat (length (default [] (m !! name))).

(** The directories [CreateMissing] looks after for chunk id [x]. *)
Definition gap_names (x : Z) : list string :=
  let chunk_index := GetStringFormat (i32 x) in
  chunk_index :: (chunk_index +:+ "_post")
    :: (if x =? 0 then [] else [chunk_index +:+ "_pre"]).

(** The bytes of the fragments of a log that the router sends to bucket
    [name], in the order of the log. *)
Definition routed_to (cfg : Config) (name : string)
    (log : list (list Z * Z)) : list Z :=
  concat ((filter (λ ft, name ∈ destinations cfg ft.2) log).*1).

(** The fragments a piece of code has added to [emitted] all satisfy [P]. *)
Definition adds (P : list Z * Z → Prop) (st st' : Inserter) : Prop :=
  ∃ fragments, emitted st' = emitted st ++ fragments ∧ Forall P fragments.

(** What the reader of a chunk file can rely on for a fragment that was
    routed by [timestamp]: the header carries that timestamp, a channel
    other than -1, and a sample count between 1 and the payload capacity
    that does not exceed the length of the pulse. *)
Definition well_formed (cfg : Config) (ft : list Z * Z) : Prop :=
  let h := read_header ft.1 in
  h_time h = ft.2
  ∧ h_channel h ≠ -1
  ∧ 1 <= h_samples_this_fragment h <= fFragmentBytes cfg / 2
  ∧ h_samples_this_fragment h <= h_samples_in_pulse h.

(** A fragment of packet [dp] that is either the artificial dead-time
    fragment or carries, as its samples, a run of bytes that lies inside
    the [4 * (size / 4)] bytes of the packet. *)
Definition copied_from_inside (cfg : Config) (dp : data_packet)
    (ft : list Z * Z) : Prop :=
  (∃ bid, ft.1 = deadtime_fragment cfg ft.2 bid)
  ∨ ∃ pos,
      let n := 2 * h_samples_this_fragment (read_header ft.1) in
      0 <= pos ∧ pos + n <= 4 * (u32 (size dp) / 4)
      ∧ samples_of ft.1 = sub_bytes pos n (buffer_bytes dp).

(** What [smallest_latest_index_seen = s] knows about a log of fragments
    whose chunk ids are not negative: it is -1 or a chunk id, and every
    fragment that is not artificial dead time (channel 790) lies in a chunk
    from [s] on. *)
Definition seen (cfg : Config) (s : Z) (log : list (list Z * Z)) : Prop :=
  (∀ f t, (f, t) ∈ log → 0 <= chunk_of cfg t) →
  (s = -1 ∨ 0 <= s)
  ∧ ∀ f t, (f, t) ∈ log →
      h_channel (read_header f) = 790 ∨ 0 <= s <= chunk_of cfg t.

(** A piece of the decoder that takes [smallest_latest_index_seen] from
    [s] to [s'] and the worker from [st] to [st']: buckets are kept, every
    fragment it emits has its buckets in memory, no other bucket appears,
    and [s'] knows about the fragments. *)
Definition tracks (cfg : Config) (s : Z) (st : Inserter) (s' : Z)
    (st' : Inserter) : Prop :=
  ∃ fragments,
    emitted st' = emitted st ++ fragments
    ∧ (∀ name, is_Some (fFragments st !! name) →
               is_Some (fFragments st' !! name))
    ∧ (∀ f t name, (f, t) ∈ fragments → name ∈ destinations cfg t →
                   is_Some (fFragments st' !! name))
    ∧ (∀ name, is_Some (fFragments st' !! name) →
               is_Some (fFragments st !! name)
               ∨ ∃ f t, (f, t) ∈ fragments ∧ name ∈ destinations cfg t)
    ∧ ∀ log, seen cfg s log → seen cfg s' (log ++ fragments).

(** [fFailCounter[b]], zero for a board that is not in the map. *)
Definition fail_count (st : Inserter) (b : Z) : Z :=
  default 0 (fFailCounter st !! b).

(** The counters a piece of code leaves alone. *)
Definition same_counters (st st' : Inserter) : Prop :=
  fFailCounter st' = fFailCounter st
  ∧ errors_checked st' = errors_checked st
  ∧ fEventsProcessed st' = fEventsProcessed st
  ∧ fBytesProcessed st' = fBytesProcessed st.

(** [n] board failures of board [b] between [st] and [st']. *)
Definition failed (b : Z) (n : nat) (st st' : Inserter) : Prop :=
  errors_checked st' = errors_checked st ++ replicate n b
  ∧ (∀ b', fail_count st' b'
           = fail_count st b' + (if decide (b' = b) then Z.of_nat n else 0))
  ∧ Z.of_nat n <= fEventsProcessed st' - fEventsProcessed st
  ∧ fBytesProcessed st' = fBytesProcessed st.

(** Between [st] and [st']: [e] events were counted, [n] of them board
    failures of board [b], and [d] fragments were emitted beyond those that
    [fFragmentsProcessed] counts. *)
Definition accounts (b : Z) (d n e : nat) (st st' : Inserter) : Prop :=
  (∃ fragments,
     emitted st' = emitted st ++ fragments
     ∧ Z.of_nat (length fragments)
       = fFragmentsProcessed st' - fFragmentsProcessed st + Z.of_nat d)
  ∧ errors_checked st' = errors_checked st ++ replicate n b
  ∧ fEventsProcessed st' = fEventsProcessed st + Z.of_nat e.

(** How often [CheckError] was called for board [b]. *)
Definition times_checked (st : Inserter) (b : Z) : Z :=
  Z.of_nat (length (filter (λ x, x = b) (errors_checked st))).

(** * Properties *)

Ltac pow2 :=
  change (2 ^ 15) with 32768 in *; change (2 ^ 16) with 65536 in *;
  change (2 ^ 30) with 1073741824 in *; change (2 ^ 31) with 2147483648 in *;
  change (2 ^ 32) with 4294967296 in *.

(** ** Bytes and machine integers *)

Lemma length_le_bytes n x : length (le_bytes n x) = n.
Proof. revert x. induction n as [|n IH]; intros x; simpl; [done|]. by rewrite IH. Qed.

Lemma le_value_le_bytes n x : le_value (le_bytes n x) = x mod 256 ^ Z.of_nat n.
Proof.
  revert x. induction n as [|n IH]; intros x.
  - simpl. by rewrite Z.mod_1_r.
  - cbn [le_bytes le_value]. rewrite IH.
    rewrite Nat2Z.inj_succ, Z.pow_succ_r by lia.
    rewrite (Z.mul_comm 256), Z.rem_mul_r by lia. lia.
Qed.

Lemma signed_mod w x : 0 < w → signed w (x mod 2 ^ w) = signed w x.
Proof. intros Hw. unfold signed. by rewrite Z.mod_mod by lia. Qed.

Lemma signed_small w x :
  0 < w → - 2 ^ (w - 1) <= x < 2 ^ (w - 1) → signed w x = x.
Proof.
  intros Hw Hx. unfold signed.
  assert (Hp : 2 ^ w = 2 * 2 ^ (w - 1)).
  { rewrite <- Z.pow_succ_r by lia. f_equal. lia. }
  destruct (Z.neg_nonneg_cases x) as [Hneg|Hpos].
  - assert (Hm : x mod 2 ^ w = x + 2 ^ w).
    { symmetry. apply (Z.mod_unique_pos _ _ (-1)); lia. }
    rewrite Hm. destruct (Z.ltb_spec (x + 2 ^ w) (2 ^ (w - 1))); lia.
  - rewrite Z.mod_small by lia.
    destruct (Z.ltb_spec x (2 ^ (w - 1))); lia.
Qed.

Lemma shiftr_1 x : Z.shiftr x 1 = x / 2.
Proof. by rewrite Z.shiftr_div_pow2. Qed.

Lemma i64_u64 x : i64 (u64 x) = i64 x.
Proof. unfold i64, u64. by apply signed_mod. Qed.

Lemma u16_small x : 0 <= x < 2 ^ 16 → u16 x = x.
Proof. apply Z.mod_small. Qed.

Lemma u32_small x : 0 <= x < 2 ^ 32 → u32 x = x.
Proof. apply Z.mod_small. Qed.

Lemma u32_range x : 0 <= u32 x < 2 ^ 32.
Proof. apply Z.mod_pos_bound. lia. Qed.

Lemma forall_le_bytes n x : Forall (λ b, 0 <= b < 256) (le_bytes n x).
Proof.
  revert x. induction n as [|n IH]; intros x; simpl; constructor; [|done].
  apply Z.mod_pos_bound. lia.
Qed.

Lemma sub_bytes_here (x rest : list Z) n :
  Z.of_nat (length x) = n → sub_bytes 0 n (x ++ rest) = x.
Proof.
  intros <-. unfold sub_bytes. rewrite Nat2Z.id, Z2Nat.inj_0, drop_0.
  by rewrite take_app_length.
Qed.

Lemma sub_bytes_skip (x rest : list Z) pos n :
  Z.of_nat (length x) <= pos →
  sub_bytes pos n (x ++ rest) = sub_bytes (pos - Z.of_nat (length x)) n rest.
Proof.
  intros Hle. unfold sub_bytes. f_equal.
  replace (Z.to_nat pos)
    with (length x + Z.to_nat (pos - Z.of_nat (length x)))%nat by lia.
  by rewrite drop_app_add.
Qed.

Lemma length_zero_fill target fragment :
  Z.of_nat (length (zero_fill target fragment))
  = Z.max target (Z.of_nat (length fragment)).
Proof. unfold zero_fill. rewrite length_app, length_replicate. lia. Qed.

Lemma zero_fill_tail target (fragment : list Z) (i : nat) :
  (length fragment <= i < length (zero_fill target fragment))%nat →
  zero_fill target fragment !! i = Some 0.
Proof.
  unfold zero_fill. rewrite length_app, length_replicate. intros Hi.
  rewrite lookup_app_r by lia. apply lookup_replicate_2. lia.
Qed.

(** Whatever is serialized by [strax_fragment] is read back field by
    field. *)
Lemma read_header_strax_fragment cfg t stf w c sip fi bl data :
  read_header (strax_fragment cfg t stf w c sip fi bl data)
  = {| h_time := i64 t;
       h_samples_this_fragment := i32 stf;
       h_sample_width := i16 w;
       h_channel := i16 c;
       h_samples_in_pulse := i32 sip;
       h_fragment_index := i16 fi;
       h_baseline := i16 bl |}.
Proof.
  unfold read_header, strax_fragment, zero_fill.
  rewrite <- !app_assoc.
  repeat first
    [ rewrite sub_bytes_here by (by rewrite length_le_bytes)
    | rewrite sub_bytes_skip by (rewrite length_le_bytes; lia);
      rewrite length_le_bytes; simpl (_ - _) ].
  rewrite !le_value_le_bytes.
  change (256 ^ Z.of_nat 8) with (2 ^ 64).
  change (256 ^ Z.of_nat 4) with (2 ^ 32).
  change (256 ^ Z.of_nat 2) with (2 ^ 16).
  f_equal; apply signed_mod; lia.
Qed.

(** ** Names of buckets *)

Lemma digit_char_cases d :
  0 <= d < 10 →
  is_digit (digit_char d) = true ∧ digit_val (digit_char d) = d.
Proof.
  intros Hd.
  assert (Hc : d = 0 ∨ d = 1 ∨ d = 2 ∨ d = 3 ∨ d = 4 ∨ d = 5 ∨ d = 6
               ∨ d = 7 ∨ d = 8 ∨ d = 9) by lia.
  by destruct Hc as [->|[->|[->|[->|[->|[->|[->|[->|[->| ->]]]]]]]]].
Qed.

Lemma stoi_digit_start c s :
  is_digit c = true → stoi (String c s) = Some (stoi_digits (String c s) 0).
Proof.
  intros Hc.
  destruct c as [[] [] [] [] [] [] [] []]; try discriminate Hc; reflexivity.
Qed.

Lemma stoi_digits_digit d s acc :
  0 <= d < 10 →
  stoi_digits (String (digit_char d) s) acc = stoi_digits s (10 * acc + d).
Proof.
  intros Hd. destruct (digit_char_cases d Hd) as [Hdig Hval].
  cbn [stoi_digits]. by rewrite Hdig, Hval.
Qed.

Lemma digits_of_fixed_width fuel :
  ∀ n acc, 0 <= n < 10 ^ Z.of_nat (S fuel) →
    ∃ k : nat, (1 <= k <= S fuel)%nat
      ∧ n < 10 ^ Z.of_nat k
      ∧ (k = 1%nat ∨ 10 ^ (Z.of_nat k - 1) <= n)
      ∧ digits_of (S fuel) n acc = fixed_width k n acc.
Proof.
  induction fuel as [|fuel IH]; intros n acc Hn.
  - exists 1%nat. change (10 ^ Z.of_nat 1) with 10 in *.
    split; [lia|]. split; [lia|]. split; [by left|].
    cbn [digits_of]. by destruct (n <? 10).
  - cbn [digits_of]. destruct (Z.ltb_spec n 10) as [Hlt|Hge].
    + exists 1%nat. change (10 ^ Z.of_nat 1) with 10.
      split; [lia|]. split; [lia|]. split; [by left|done].
    + rewrite Nat2Z.inj_succ, Z.pow_succ_r in Hn by lia.
      destruct (IH (n / 10) (String (digit_char (n mod 10)) acc))
        as (k & Hk & Hlt & Hmin & Heq).
      { split; [apply Z.div_pos; lia|].
        apply Z.div_lt_upper_bound; lia. }
      exists (S k). split; [lia|].
      pose proof (Z.mul_div_le n 10). pose proof (Z.mod_pos_bound n 10).
      pose proof (Z.div_mod n 10).
      rewrite Nat2Z.inj_succ, Z.pow_succ_r by lia.
      split; [lia|]. split; [|done].
      right.
      replace (Z.succ (Z.of_nat k) - 1) with (Z.succ (Z.of_nat k - 1)) by lia.
      rewrite Z.pow_succ_r by lia.
      destruct Hmin as [->|Hmin]; [simpl; lia|]. lia.
Qed.

Lemma fixed_width_zero j acc :
  fixed_width j 0 acc = Nat.iter j (String "0") acc.
Proof.
  revert acc. induction j as [|j IH]; intros acc; [done|].
  cbn [fixed_width]. change (0 / 10) with 0. change (0 mod 10) with 0.
  rewrite IH. change (digit_char 0) with "0"%char.
  by rewrite Nat.iter_succ_r.
Qed.

Lemma fixed_width_pad j k :
  ∀ n acc, 0 <= n < 10 ^ Z.of_nat k →
    fixed_width (k + j) n acc = Nat.iter j (String "0") (fixed_width k n acc).
Proof.
  induction k as [|k IH]; intros n acc Hn.
  - simpl in Hn. replace n with 0 by lia. apply fixed_width_zero.
  - cbn [Nat.add fixed_width]. apply IH.
    rewrite Nat2Z.inj_succ, Z.pow_succ_r in Hn by lia.
    split; [apply Z.div_pos; lia|]. apply Z.div_lt_upper_bound; lia.
Qed.

Lemma length_fixed_width k :
  ∀ n acc, String.length (fixed_width k n acc) = (k + String.length acc)%nat.
Proof.
  induction k as [|k IH]; intros n acc; [done|].
  cbn [fixed_width]. rewrite IH. simpl. lia.
Qed.

Lemma GetStringFormat_fixed_width c :
  0 <= c < 1000000 → GetStringFormat c = fixed_width 6 c "".
Proof.
  intros Hc. unfold GetStringFormat, to_string.
  destruct (Z.ltb_spec c 0); [lia|].
  destruct (digits_of_fixed_width 9 c "") as (k & Hk & Hck & Hmin & ->).
  { change (10 ^ Z.of_nat 10) with 10000000000. lia. }
  assert (Hk6 : (k <= 6)%nat).
  { destruct Hmin as [->|Hmin]; [lia|].
    destruct (Nat.le_gt_cases k 6); [done|].
    assert (10 ^ 6 <= 10 ^ (Z.of_nat k - 1)) by (apply Z.pow_le_mono_r; lia).
    lia. }
  unfold pad_zeros, fChunkNameLength. rewrite length_fixed_width.
  simpl String.length. rewrite Nat.add_0_r.
  rewrite <- fixed_width_pad by lia. f_equal. lia.
Qed.

Lemma length_GetStringFormat c :
  0 <= c < 1000000 → String.length (GetStringFormat c) = 6%nat.
Proof.
  intros Hc. by rewrite GetStringFormat_fixed_width, length_fixed_width.
Qed.

Lemma substring_prefix (s t : string) :
  substring 0 (String.length s) (s +:+ t) = s.
Proof. induction s as [|c s IH]; simpl; [by destruct t|by rewrite IH]. Qed.

Lemma stoi_fixed_width_6 c :
  0 <= c < 1000000 → stoi (fixed_width 6 c "") = Some c.
Proof.
  intros Hc. cbn [fixed_width].
  pose proof (λ x, Z.mod_pos_bound x 10 ltac:(lia)) as Hmod.
  rewrite stoi_digit_start by (apply digit_char_cases, Hmod).
  rewrite !stoi_digits_digit by apply Hmod.
  cbn [stoi_digits]. f_equal.
  rewrite !Z.div_div by lia.
  Z.to_euclidean_division_equations. lia.
Qed.

(** The leading digits of a router name give back the chunk id. *)
Lemma id_of_GetStringFormat c suffix :
  0 <= c < 1000000 → id_of (GetStringFormat c +:+ suffix) = Some c.
Proof.
  intros Hc. unfold id_of.
  rewrite <- (length_GetStringFormat c Hc) at 1.
  rewrite substring_prefix, GetStringFormat_fixed_width by done.
  by apply stoi_fixed_width_6.
Qed.

Lemma string_app_cons c (s t : string) : String c s +:+ t = String c (s +:+ t).
Proof. reflexivity. Qed.

Lemma length_string_app (s t : string) :
  String.length (s +:+ t) = (String.length s + String.length t)%nat.
Proof.
  induction s as [|c s IH]; [done|].
  rewrite string_app_cons. simpl. by rewrite IH.
Qed.

Lemma string_app_inj_2 (s1 t1 s2 t2 : string) :
  String.length s2 = String.length t2 →
  s1 +:+ s2 = t1 +:+ t2 → s1 = t1 ∧ s2 = t2.
Proof.
  intros Hlen. revert t1.
  induction s1 as [|c s1 IH]; intros [|d t1] Heq.
  - done.
  - apply (f_equal String.length) in Heq.
    rewrite !length_string_app in Heq. simpl in Heq. lia.
  - apply (f_equal String.length) in Heq.
    rewrite !length_string_app in Heq. simpl in Heq. lia.
  - rewrite !string_app_cons in Heq.
    injection Heq as -> Heq. by destruct (IH _ Heq) as [-> ->].
Qed.

Lemma string_app_assoc (s t u : string) : (s +:+ t) +:+ u = s +:+ t +:+ u.
Proof.
  induction s as [|c s IH]; [done|]. by rewrite !string_app_cons, IH.
Qed.

Lemma string_app_nil_r (s : string) : s +:+ "" = s.
Proof. induction s as [|c s IH]; [done|]. by rewrite string_app_cons, IH. Qed.

Lemma pre_is_not_post (s t : string) : s +:+ "_pre" ≠ t +:+ "_post".
Proof.
  intros Heq.
  change (t +:+ "_post") with (t +:+ ("_" +:+ "post")) in Heq.
  rewrite <- string_app_assoc in Heq.
  by apply string_app_inj_2 in Heq as [_ Heq].
Qed.

Lemma GetStringFormat_inj c d :
  0 <= c < 1000000 → 0 <= d < 1000000 →
  GetStringFormat c = GetStringFormat d → c = d.
Proof.
  intros Hc Hd Heq.
  pose proof (id_of_GetStringFormat c "" Hc) as Hidc.
  rewrite Heq, id_of_GetStringFormat in Hidc by done. congruence.
Qed.

Lemma primary_is_not_suffixed c d (suffix : string) :
  0 <= c < 1000000 → 0 <= d < 1000000 → suffix ≠ "" →
  GetStringFormat c ≠ GetStringFormat d +:+ suffix.
Proof.
  intros Hc Hd Hsuffix Heq. apply (f_equal String.length) in Heq.
  rewrite length_string_app, !length_GetStringFormat in Heq by done.
  destruct suffix; [done|]. simpl in Heq. lia.
Qed.

(** ** Router bookkeeping *)

Lemma emitted_AddFragmentToBuffer cfg fragment timestamp st :
  emitted (AddFragmentToBuffer cfg fragment timestamp st).1
  = emitted st ++ [(fragment, timestamp)].
Proof. unfold AddFragmentToBuffer. by destruct (negb _). Qed.

Lemma returned_AddFragmentToBuffer cfg fragment timestamp st :
  (AddFragmentToBuffer cfg fragment timestamp st).2 = chunk_of cfg timestamp.
Proof. unfold AddFragmentToBuffer. by destruct (negb _). Qed.

Lemma deadtime_is_strax_fragment cfg timestamp bid :
  deadtime_fragment cfg timestamp bid
  = strax_fragment cfg timestamp (i32 (Z.shiftr (fFragmentBytes cfg) 1))
      10 790 (i32 (Z.shiftr (fFragmentBytes cfg) 1)) 0 0 (le_bytes 2 bid).
Proof. reflexivity. Qed.

Lemma length_deadtime_fragment cfg timestamp bid :
  Z.of_nat (length (deadtime_fragment cfg timestamp bid))
  = Z.max (fFragmentBytes cfg + fStraxHeaderSize) 26.
Proof.
  unfold deadtime_fragment. rewrite length_zero_fill.
  by rewrite !length_app, !length_le_bytes.
Qed.

(** ** C8: the artificial dead-time fragment *)

(** C8. [GenerateArtificialDeadtime] hands exactly one fragment to the
    router, at the given timestamp. Its header reads: the timestamp,
    samples_this_fragment = payload_bytes/2, sample_width = 10,
    channel = 790, samples_in_pulse = payload_bytes/2, fragment_index = 0,
    baseline = 0. The two bytes after the header are the board id, every
    byte after those is zero, and the fragment has the full fragment size. *)
Theorem deadtime_fragment_layout cfg timestamp bid st :
  2 <= fFragmentBytes cfg < 2 ^ 31 →
  - 2 ^ 63 <= timestamp < 2 ^ 63 →
  - 2 ^ 15 <= bid < 2 ^ 15 →
  let fragment := deadtime_fragment cfg timestamp bid in
  emitted (GenerateArtificialDeadtime cfg timestamp bid st)
    = emitted st ++ [(fragment, timestamp)]
  ∧ read_header fragment
    = {| h_time := timestamp;
         h_samples_this_fragment := fFragmentBytes cfg / 2;
         h_sample_width := 10;
         h_channel := 790;
         h_samples_in_pulse := fFragmentBytes cfg / 2;
         h_fragment_index := 0;
         h_baseline := 0 |}
  ∧ i16 (le_value (sub_bytes 24 2 fragment)) = bid
  ∧ Z.of_nat (length fragment) = fStraxHeaderSize + fFragmentBytes cfg
  ∧ ∀ i : nat, (26 <= i < length fragment)%nat → fragment !! i = Some 0.
Proof.
  intros Hfb Hts Hbid fragment.
  assert (Hhalf_range : - 2 ^ (32 - 1) <= fFragmentBytes cfg / 2 < 2 ^ (32 - 1)).
  { split; [transitivity 0; [lia|apply Z.div_pos; lia]|].
    apply Z.div_lt_upper_bound; lia. }
  assert (Hhalf : i32 (Z.shiftr (fFragmentBytes cfg) 1)
                  = fFragmentBytes cfg / 2).
  { rewrite shiftr_1. by apply signed_small. }
  split; [|split; [|split; [|split]]].
  - unfold GenerateArtificialDeadtime.
    by rewrite emitted_AddFragmentToBuffer.
  - subst fragment.
    rewrite deadtime_is_strax_fragment, read_header_strax_fragment, Hhalf.
    f_equal; by apply signed_small.
  - subst fragment. unfold deadtime_fragment, zero_fill.
    rewrite <- !app_assoc.
    repeat (rewrite sub_bytes_skip by (rewrite length_le_bytes; lia);
            rewrite length_le_bytes; simpl (_ - _)).
    rewrite sub_bytes_here by (by rewrite length_le_bytes).
    rewrite le_value_le_bytes. change (256 ^ Z.of_nat 2) with (2 ^ 16).
    unfold i16. rewrite signed_mod by lia. by apply signed_small.
  - subst fragment. rewrite length_deadtime_fragment.
    unfold fStraxHeaderSize. lia.
  - intros i Hi. subst fragment. unfold deadtime_fragment in *.
    apply zero_fill_tail. split; [|lia].
    rewrite !length_app, !length_le_bytes. simpl. lia.
Qed.

(** C8 at a board 3 dead time stamped 27.5 s with the default payload. *)
Lemma deadtime_fragment_layout_witness :
  let cfg := example_cfg dpp_daw in
  let fragment := deadtime_fragment cfg 27500000000 3 in
  emitted (GenerateArtificialDeadtime cfg 27500000000 3 fresh)
    = [(fragment, 27500000000)]
  ∧ read_header fragment
    = {| h_time := 27500000000; h_samples_this_fragment := 110;
         h_sample_width := 10; h_channel := 790; h_samples_in_pulse := 110;
         h_fragment_index := 0; h_baseline := 0 |}
  ∧ i16 (le_value (sub_bytes 24 2 fragment)) = 3
  ∧ Z.of_nat (length fragment) = 244.
Proof.
  intros cfg fragment.
  destruct (deadtime_fragment_layout cfg 27500000000 3 fresh)
    as (Hem & Hhdr & Hbid & Hlen & _); [simpl; lia | lia | lia |].
  split; [exact Hem|]. split; [exact Hhdr|]. split; [exact Hbid|exact Hlen].
Defined.

(** ** C4: the absolute timestamp *)

Lemma i64_mul_u64 a b : i64 (u64 a * u64 b) = i64 (a * b).
Proof.
  unfold i64, signed, u64.
  by rewrite <- Z.mul_mod by lia.
Qed.

Lemma shiftl_31_disjoint ctr channel_time :
  0 <= channel_time < 2 ^ 31 →
  Z.land (Z.shiftl ctr 31) channel_time = 0.
Proof.
  intros Hct. apply Z.bits_inj'. intros n Hn.
  rewrite Z.land_spec, Z.bits_0.
  destruct (Z.lt_ge_cases n 31) as [Hlt|Hge].
  - by rewrite Z.shiftl_spec_low.
  - rewrite (Z.bits_above_log2 channel_time n); [apply andb_false_r|lia|].
    destruct (Z.eq_dec channel_time 0) as [->|Hnz]; [simpl; lia|].
    apply Z.lt_le_trans with 31; [|done].
    apply Z.log2_lt_pow2; lia.
Qed.

(** C4 (counterexample). With an odd counter and a channel time whose bit
    31 is set, the sum the code takes differs from the OR of the claim:
    the code yields 10 * 2^32, the claim's formula 10 * 2^31. A DPP-DAW
    packet with such a channel time word is stamped with the sum. *)
Lemma Time64_is_not_an_or :
  Time64 dpp_daw 1 0 0x80000000 = 42949672960
  ∧ spec_Time64 dpp_daw 1 0x80000000 = 21474836480
  ∧ Time64 dpp_daw 1 0 0x80000000 ≠ spec_Time64 dpp_daw 1 0x80000000
  ∧ (∃ st, ParseDocuments 8 (example_cfg dpp_daw) high_bit_packet fresh
             = Done st
       ∧ (emitted st).*2 = [42949672960]).
Proof.
  do 3 (split; [by vm_compute|]).
  eexists. split; by vm_compute.
Qed.

(** C4 (amended). When [channel_time_msb_idx] is not 2, the timestamp is
    [ns_per_clk * ((ctr << 31) + channel_time)]: the counter is shifted by
    31 bits, not 32, and the channel time is added, not OR-ed. The sum is
    the OR of the claim whenever the channel time is below 2^31. *)
Theorem Time64_shifts_by_31_and_adds fmt ctr channel_timeMSB channel_time :
  channel_time_msb_idx fmt ≠ 2 →
  0 <= ctr < 2 ^ 32 →
  0 <= channel_time < 2 ^ 32 →
  0 <= ns_per_clk fmt →
  ns_per_clk fmt * (ctr * 2 ^ 31 + channel_time) < 2 ^ 63 →
  Time64 fmt ctr channel_timeMSB channel_time
    = ns_per_clk fmt * (Z.shiftl ctr 31 + channel_time)
  ∧ (channel_time < 2 ^ 31 →
     Time64 fmt ctr channel_timeMSB channel_time
       = spec_Time64 fmt ctr channel_time).
Proof.
  intros Hidx Hctr Hct Hns Hfit.
  assert (Hsum : Time64 fmt ctr channel_timeMSB channel_time
                 = ns_per_clk fmt * (Z.shiftl ctr 31 + channel_time)).
  { unfold Time64. destruct (Z.eqb_spec (channel_time_msb_idx fmt) 2); [done|].
    rewrite i64_mul_u64, Z.shiftl_mul_pow2 by lia.
    apply signed_small; [lia|]. change (2 ^ (64 - 1)) with (2 ^ 63).
    split; [|done]. transitivity 0; [lia|]. apply Z.mul_nonneg_nonneg; lia. }
  split; [exact Hsum|]. intros Hlow. rewrite Hsum. unfold spec_Time64.
  f_equal. rewrite Z.add_nocarry_lxor, Z.lxor_lor;
    auto using shiftl_31_disjoint with lia.
Qed.

(** C4 (amended) at counter 1 and channel time 1e8 on a 10 ns clock. *)
Lemma Time64_shifts_by_31_and_adds_witness :
  Time64 dpp_daw 1 0 100000000
    = ns_per_clk dpp_daw * (Z.shiftl 1 31 + 100000000)
  ∧ (100000000 < 2 ^ 31 →
     Time64 dpp_daw 1 0 100000000 = spec_Time64 dpp_daw 1 100000000).
Proof.
  apply (Time64_shifts_by_31_and_adds dpp_daw 1 0 100000000);
    simpl; lia.
Defined.

(** ** C3: clock reconstruction and the firmware variant *)




(** The two rollover scenarios of a channel's first sighting: upward from
    counter 0, downward from counter 3. *)
Lemma rollover_scenarios :
  rollover 100000000 1600000000 0xFFFFFFFF 0 = 1
  ∧ Time64 dpp_daw 1 0 100000000 = 10 * (2 ^ 31 + 100000000)
  ∧ rollover 1800000000 100000000 0xFFFFFFFF 3 = 2.
Proof. by vm_compute. Qed.




(** ** C9: the board-fail event *)




(** ** C1: routing a fragment *)

Lemma chunk_of_nonneg cfg timestamp :
  0 < fFullChunkLength cfg → 0 <= timestamp →
  timestamp / fFullChunkLength cfg < 2 ^ 31 →
  chunk_of cfg timestamp = timestamp / fFullChunkLength cfg.
Proof.
  intros Hfull Ht Hc. unfold chunk_of.
  rewrite Z.quot_div_nonneg by lia.
  apply signed_small; [lia|]. change (2 ^ (32 - 1)) with (2 ^ 31).
  split; [|done]. transitivity 0; [lia|]. apply Z.div_pos; lia.
Qed.

(** C1 (amended). For a fragment at time [t >= 0] whose chunk id
    [c = t / full_chunk_ns] has six digits, [AddFragmentToBuffer] returns
    [c]. If [(c+1)*full_chunk_ns - t < overlap_ns] the fragment bytes are
    appended to [pad6(c+1)_pre] and to [pad6(c)_post], and the primary bucket
    [pad6(c)] is left as it was; otherwise they are appended to the primary
    bucket [pad6(c)]. No other bucket changes. *)
Theorem router_is_exclusive cfg fragment timestamp st :
  0 < fFullChunkLength cfg →
  0 <= timestamp →
  timestamp / fFullChunkLength cfg < 999999 →
  let c := timestamp / fFullChunkLength cfg in
  let primary := GetStringFormat c in
  let pre := GetStringFormat (c + 1) +:+ "_pre" in
  let post := GetStringFormat c +:+ "_post" in
  let old := fFragments st in
  let new := fFragments (AddFragmentToBuffer cfg fragment timestamp st).1 in
  (AddFragmentToBuffer cfg fragment timestamp st).2 = c
  ∧ if decide ((c + 1) * fFullChunkLength cfg - timestamp < fChunkOverlap cfg)
    then new !! pre = Some (default [] (old !! pre) ++ fragment)
         ∧ new !! post = Some (default [] (old !! post) ++ fragment)
         ∧ new !! primary = old !! primary
         ∧ ∀ name, name ≠ pre → name ≠ post → new !! name = old !! name
    else new !! primary = Some (default [] (old !! primary) ++ fragment)
         ∧ ∀ name, name ≠ primary → new !! name = old !! name.
Proof.
  intros Hfull Ht Hc c primary pre post old new.
  assert (Hc0 : 0 <= c) by (apply Z.div_pos; lia).
  assert (Hchunk : chunk_of cfg timestamp = c)
    by (apply chunk_of_nonneg; lia).
  split; [by rewrite returned_AddFragmentToBuffer|].
  subst new. unfold AddFragmentToBuffer, nextpre_of. rewrite Hchunk.
  fold c primary pre post.
  destruct (decide _) as [Hband|Hband].
  - destruct (Z.ltb_spec ((c + 1) * fFullChunkLength cfg - timestamp)
                (fChunkOverlap cfg)); [|lia].
    cbn. fold old. unfold bucket_append.
    assert (Hpp : pre ≠ post) by apply pre_is_not_post.
    assert (Hprim_pre : pre ≠ primary).
    { intros Heq. symmetry in Heq. revert Heq.
      apply primary_is_not_suffixed; [lia..|done]. }
    assert (Hprim_post : post ≠ primary).
    { intros Heq. symmetry in Heq. revert Heq.
      apply primary_is_not_suffixed; [lia..|done]. }
    split; [|split; [|split]].
    + by rewrite lookup_insert_ne, lookup_insert_eq.
    + by rewrite lookup_insert_eq, lookup_insert_ne.
    + by rewrite !lookup_insert_ne.
    + intros name Hpre Hpost. by rewrite !lookup_insert_ne.
  - destruct (Z.ltb_spec ((c + 1) * fFullChunkLength cfg - timestamp)
                (fChunkOverlap cfg)); [lia|].
    cbn. fold old. unfold bucket_append. split.
    + by rewrite lookup_insert_eq.
    + intros name Hname. by rewrite lookup_insert_ne.
Qed.

(** C1 (counterexample). With 5 s chunks and 0.5 s overlap, a fragment at
    5.1 s lies in the overlap band of chunk 0: it is appended to
    [000001_pre] and [000000_post], and the primary bucket [000000], where
    the claim puts it as well, does not exist. *)
Lemma overlap_fragment_skips_primary :
  let cfg := example_cfg dpp_daw in
  let st := (AddFragmentToBuffer cfg [1; 2; 3] 5100000000 fresh).1 in
  5100000000 / fFullChunkLength cfg = 0
  ∧ (0 + 1) * fFullChunkLength cfg - 5100000000 < fChunkOverlap cfg
  ∧ GetStringFormat 0 = "000000"
  ∧ fFragments st !! "000000" = None
  ∧ fFragments st !! "000001_pre" = Some [1; 2; 3]
  ∧ fFragments st !! "000000_post" = Some [1; 2; 3].
Proof. by vm_compute. Qed.

(** C1 (amended) at 4.0 s, outside the overlap band of chunk 0, on top of
    the fragment routed at 5.1 s. *)
Lemma router_is_exclusive_witness :
  let cfg := example_cfg dpp_daw in
  let st := (AddFragmentToBuffer cfg [1; 2; 3] 5100000000 fresh).1 in
  let new := fFragments (AddFragmentToBuffer cfg [4; 5] 4000000000 st).1 in
  (AddFragmentToBuffer cfg [4; 5] 4000000000 st).2 = 0
  ∧ new !! "000000" = Some [4; 5]
  ∧ ∀ name, name ≠ "000000" → new !! name = fFragments st !! name.
Proof.
  intros cfg st new.
  pose proof (router_is_exclusive cfg [4; 5] 4000000000 st) as H.
  destruct H as [Hret Hbuckets]; [by vm_compute..|].
  split; [exact Hret|]. exact Hbuckets.
Defined.

(** ** The output tree and the gap filler *)

Lemma extends_refl fs : extends fs fs.
Proof. split; [done|]. intros p. by left. Qed.

Lemma extends_trans fs1 fs2 fs3 :
  extends fs1 fs2 → extends fs2 fs3 → extends fs1 fs3.
Proof.
  intros [Hd12 Hf12] [Hd23 Hf23]. split; [set_solver|].
  intros p. destruct (Hf12 p) as [H12|[H1 H2]], (Hf23 p) as [H23|[H2' H3]].
  - left. congruence.
  - right. split; congruence.
  - right. split; congruence.
  - congruence.
Qed.

Lemma exists_file_false p fs : exists_file p fs = false → files fs !! p = None.
Proof.
  unfold exists_file. intros H%bool_decide_eq_false.
  by apply eq_None_not_Some.
Qed.

Lemma exists_file_true p fs : exists_file p fs = true → is_Some (files fs !! p).
Proof. unfold exists_file. by intros H%bool_decide_eq_true. Qed.

Lemma ensure_directory_dirs d fs : d ∈ dirs (ensure_directory d fs).
Proof.
  unfold ensure_directory, exists_dir.
  destruct (bool_decide (d ∈ dirs fs)) eqn:Hd; simpl.
  - by apply bool_decide_eq_true in Hd.
  - set_solver.
Qed.

Lemma ensure_directory_files d fs : files (ensure_directory d fs) = files fs.
Proof. unfold ensure_directory. by destruct (negb _). Qed.

Lemma ensure_directory_mono d fs : dirs fs ⊆ dirs (ensure_directory d fs).
Proof. unfold ensure_directory. destruct (negb _); simpl; set_solver. Qed.

Lemma create_placeholder_extends cfg name fs :
  extends fs (create_placeholder cfg name fs).
Proof.
  unfold create_placeholder.
  destruct (exists_file _ fs) eqn:Hex; simpl; [apply extends_refl|].
  apply exists_file_false in Hex.
  unfold write_file, exists_dir. cbn [fst GetFilePath].
  rewrite bool_decide_eq_true_2 by apply ensure_directory_dirs.
  split; simpl.
  - apply ensure_directory_mono.
  - intros p. rewrite ensure_directory_files.
    destruct (decide (p = GetFilePath cfg name false)) as [->|Hp].
    + right. by rewrite lookup_insert_eq.
    + left. by rewrite lookup_insert_ne.
Qed.

Lemma create_missing_at_extends cfg fs x :
  extends fs (create_missing_at cfg fs x).
Proof.
  unfold create_missing_at.
  eapply extends_trans; [|apply create_placeholder_extends].
  eapply extends_trans; [apply create_placeholder_extends|].
  destruct (negb _); [apply create_placeholder_extends|apply extends_refl].
Qed.

Lemma foldl_create_missing_extends cfg xs :
  ∀ fs, extends fs (foldl (create_missing_at cfg) fs xs).
Proof.
  induction xs as [|x xs IH]; intros fs; simpl; [apply extends_refl|].
  eapply extends_trans; [apply create_missing_at_extends|apply IH].
Qed.

Lemma CreateMissing_extends cfg back_from_id st :
  extends (disk st) (disk (CreateMissing cfg back_from_id st)).
Proof. unfold CreateMissing. simpl. apply foldl_create_missing_extends. Qed.

(** C10. The gap filler never overwrites: a placeholder whose file is
    already there is skipped, every file present before [CreateMissing] has
    the same bytes after it, a file that is new is an empty one at a path
    that was free, and no directory is lost. *)
Theorem gap_filler_never_overwrites cfg back_from_id st :
  (∀ name fs,
     is_Some (files fs !! GetFilePath cfg name false) →
     create_placeholder cfg name fs = fs)
  ∧ (∀ p content,
     files (disk st) !! p = Some content →
     files (disk (CreateMissing cfg back_from_id st)) !! p = Some content)
  ∧ (∀ p,
       files (disk (CreateMissing cfg back_from_id st)) !! p
         = files (disk st) !! p
       ∨ (files (disk st) !! p = None
          ∧ files (disk (CreateMissing cfg back_from_id st)) !! p = Some []))
  ∧ dirs (disk st) ⊆ dirs (disk (CreateMissing cfg back_from_id st)).
Proof.
  destruct (CreateMissing_extends cfg back_from_id st) as [Hdirs Hfiles].
  split; [|split; [|by split]].
  - intros name fs Hfile. unfold create_placeholder, exists_file.
    by rewrite bool_decide_eq_true_2.
  - intros p content Hp. destruct (Hfiles p) as [->|[Hnone _]]; congruence.
Qed.

(** C10 at a chunk file of three bytes that lies in the range the gap
    filler visits. *)
Lemma gap_filler_never_overwrites_witness :
  let cfg := example_cfg dpp_daw in
  let st := set_disk (λ _, {| dirs := {[ "000001"%string ]};
                              files := {[ ("000001"%string, file_name cfg)
                                          := [9; 8; 7] ]} |}) fresh in
  files (disk (CreateMissing cfg 3 st)) !! ("000001"%string, file_name cfg)
    = Some [9; 8; 7]
  ∧ files (disk (CreateMissing cfg 3 st)) !! ("000002"%string, file_name cfg)
    = Some [].
Proof.
  intros cfg st. split.
  - by apply (proj1 (proj2 (gap_filler_never_overwrites cfg 3 st))).
  - by vm_compute.
Defined.


(** *** Router names *)

Lemma router_key_spec name :
  router_key name = true →
  ∃ c, 0 <= c < 1000000 ∧ id_of name = Some c
       ∧ (name = GetStringFormat c
          ∨ name = GetStringFormat c +:+ "_pre"
          ∨ name = GetStringFormat c +:+ "_post").
Proof.
  unfold router_key. destruct (id_of name) as [c|] eqn:Hid; [|done].
  intros H. apply andb_prop in H as [H Hname]. apply andb_prop in H as [H0 H1].
  exists c. split; [lia|]. split; [done|].
  apply orb_prop in Hname as [Hname|Hname];
    [apply orb_prop in Hname as [Hname|Hname]|];
    apply String.eqb_eq in Hname; auto.
Qed.

Lemma router_key_suffixed c (suffix : string) :
  0 <= c < 1000000 →
  suffix = "" ∨ suffix = "_pre" ∨ suffix = "_post" →
  router_key (GetStringFormat c +:+ suffix) = true.
Proof.
  intros Hc Hsuffix. unfold router_key.
  rewrite id_of_GetStringFormat by done.
  destruct (Z.leb_spec 0 c); [|lia]. destruct (Z.ltb_spec c 1000000); [|lia].
  destruct Hsuffix as [->|[->| ->]]; rewrite ?string_app_nil_r;
    rewrite String.eqb_refl; simpl; by rewrite ?orb_true_r.
Qed.

Lemma router_key_primary c :
  0 <= c < 1000000 → router_key (GetStringFormat c) = true.
Proof.
  intros Hc. rewrite <- (string_app_nil_r (GetStringFormat c)).
  apply router_key_suffixed; auto.
Qed.

Lemma router_key_nonempty name : router_key name = true → name ≠ "".
Proof. by intros H ->. Qed.

Lemma router_key_not_temp name other :
  router_key name = true → router_key other = true →
  name ≠ other +:+ "_temp".
Proof.
  intros (c & Hc & _ & Hname)%router_key_spec
         (d & Hd & _ & Hother)%router_key_spec Heq.
  destruct Hname as [->|[->| ->]], Hother as [->|[->| ->]];
    try (apply (f_equal String.length) in Heq;
         rewrite ?length_string_app, ?length_GetStringFormat in Heq by done;
         simpl in Heq; lia).
  by apply string_app_inj_2 in Heq as [_ Heq].
Qed.

Lemma temp_is_not_itself (name : string) : name ≠ name +:+ "_temp".
Proof.
  intros Heq. apply (f_equal String.length) in Heq.
  rewrite length_string_app in Heq. simpl in Heq. lia.
Qed.

(** *** One bucket written out *)

Lemma extends_holds_file cfg fs fs' name :
  extends fs fs' → holds_file cfg fs name → holds_file cfg fs' name.
Proof.
  intros [Hdirs Hfiles] [Hd Hf]. split; [set_solver|].
  destruct (Hfiles (GetFilePath cfg name false)) as [->|[_ ->]]; eauto.
Qed.

Lemma extends_tree_ok fs fs' :
  extends fs fs' → tree_ok fs →
  (∀ d f, files fs !! (d, f) = None → is_Some (files fs' !! (d, f)) →
          d ∈ dirs fs') →
  tree_ok fs'.
Proof.
  intros [Hdirs Hfiles] Hok Hnew d f Hsome.
  destruct (files fs !! (d, f)) as [c|] eqn:Hold.
  - apply Hdirs, (Hok d f). by rewrite Hold.
  - by apply (Hnew d f).
Qed.

Lemma create_placeholder_tree_ok cfg name fs :
  tree_ok fs → tree_ok (create_placeholder cfg name fs).
Proof.
  intros Hok. unfold create_placeholder.
  destruct (exists_file _ fs) eqn:Hex; simpl; [done|].
  unfold write_file, exists_dir. cbn [fst GetFilePath].
  rewrite bool_decide_eq_true_2 by apply ensure_directory_dirs.
  intros d f. simpl. rewrite ensure_directory_files.
  destruct (decide ((GetDirectoryPath name false, file_name cfg) = (d, f)))
    as [Heq|Hne].
  - injection Heq as <- <-. intros _. apply ensure_directory_dirs.
  - rewrite lookup_insert_ne by done. intros Hsome.
    by apply ensure_directory_mono, (Hok d f).
Qed.

Lemma create_placeholder_holds cfg name fs :
  tree_ok fs → holds_file cfg (create_placeholder cfg name fs) name.
Proof.
  intros Hok. unfold create_placeholder.
  destruct (exists_file _ fs) eqn:Hex; simpl.
  - apply exists_file_true in Hex. split; [|done].
    by apply (Hok name (file_name cfg)).
  - unfold write_file, exists_dir. cbn [fst GetFilePath].
    rewrite bool_decide_eq_true_2 by apply ensure_directory_dirs.
    split; simpl; [apply ensure_directory_dirs|].
    by rewrite lookup_insert_eq.
Qed.

Lemma create_missing_at_tree_ok cfg fs x :
  tree_ok fs → tree_ok (create_missing_at cfg fs x).
Proof.
  intros Hok. unfold create_missing_at.
  apply create_placeholder_tree_ok.
  destruct (negb _); [apply create_placeholder_tree_ok|];
    by apply create_placeholder_tree_ok.
Qed.

Lemma create_missing_at_filled cfg fs x :
  tree_ok fs → - 2 ^ 31 <= x < 2 ^ 31 →
  gap_filled cfg (create_missing_at cfg fs x) x.
Proof.
  intros Hok Hx. unfold create_missing_at, gap_filled.
  assert (Hi : i32 x = x) by (by apply signed_small).
  rewrite Hi.
  set (fs1 := create_placeholder cfg (GetStringFormat x) fs).
  set (fs2 := if negb (x =? 0)
              then create_placeholder cfg (GetStringFormat x +:+ "_pre") fs1
              else fs1).
  assert (Hok1 : tree_ok fs1) by (by apply create_placeholder_tree_ok).
  assert (Hok2 : tree_ok fs2).
  { subst fs2. destruct (negb _); [by apply create_placeholder_tree_ok|done]. }
  assert (H12 : extends fs1 fs2).
  { subst fs2. destruct (negb _);
      [apply create_placeholder_extends|apply extends_refl]. }
  split; [|split].
  - eapply extends_holds_file; [apply create_placeholder_extends|].
    eapply extends_holds_file; [exact H12|].
    by apply create_placeholder_holds.
  - by apply create_placeholder_holds.
  - intros Hx0. eapply extends_holds_file; [apply create_placeholder_extends|].
    subst fs2. destruct (Z.eqb_spec x 0); [done|]. simpl.
    by apply create_placeholder_holds.
Qed.

Lemma extends_gap_filled cfg fs fs' x :
  extends fs fs' → gap_filled cfg fs x → gap_filled cfg fs' x.
Proof.
  intros Hext (H1 & H2 & H3).
  split; [|split]; [by eapply extends_holds_file..|].
  intros Hx. by eapply extends_holds_file; [|apply H3].
Qed.

Lemma foldl_create_missing_tree_ok cfg xs :
  ∀ fs, tree_ok fs → tree_ok (foldl (create_missing_at cfg) fs xs).
Proof.
  induction xs as [|x xs IH]; intros fs Hok; simpl; [done|].
  by apply IH, create_missing_at_tree_ok.
Qed.

Lemma foldl_create_missing_filled cfg xs :
  ∀ fs, tree_ok fs →
    ∀ x, x ∈ xs → - 2 ^ 31 <= x < 2 ^ 31 →
         gap_filled cfg (foldl (create_missing_at cfg) fs xs) x.
Proof.
  induction xs as [|y xs IH]; intros fs Hok x Hin Hx; simpl.
  - by apply elem_of_nil in Hin.
  - apply elem_of_cons in Hin as [->|Hin].
    + eapply extends_gap_filled; [apply foldl_create_missing_extends|].
      by apply create_missing_at_filled.
    + apply IH; [by apply create_missing_at_tree_ok|done..].
Qed.

(** ** C7: which buckets a flush writes out *)

(** The renaming step of [persist_bucket], seen from the tree it starts
    from. *)
Lemma persist_bucket_moves cfg name out fs :
  ∃ fs',
    rename (GetFilePath cfg name true) (GetFilePath cfg name false)
      (ensure_directory (GetDirectoryPath name false)
         (write_file (GetFilePath cfg name true) out
            (ensure_directory (GetDirectoryPath name true) fs)))
    = Some fs'
    ∧ dirs fs ⊆ dirs fs'
    ∧ name ∈ dirs fs'
    ∧ files fs' !! GetFilePath cfg name false = Some out
    ∧ (∀ p, p ≠ GetFilePath cfg name false → p ≠ GetFilePath cfg name true →
            files fs' !! p = files fs !! p)
    ∧ (tree_ok fs → tree_ok fs').
Proof.
  set (fs1 := ensure_directory (GetDirectoryPath name true) fs).
  assert (Hw : write_file (GetFilePath cfg name true) out fs1
               = {| dirs := dirs fs1;
                    files := <[GetFilePath cfg name true := out]> (files fs) |}).
  { unfold write_file, exists_dir. cbn [fst GetFilePath].
    rewrite bool_decide_eq_true_2 by apply ensure_directory_dirs.
    subst fs1. by rewrite ensure_directory_files. }
  rewrite Hw. clear Hw.
  set (fs2 := {| dirs := dirs fs1; files := _ |}).
  set (fs3 := ensure_directory (GetDirectoryPath name false) fs2).
  assert (Hf3 : files fs3 = <[GetFilePath cfg name true := out]> (files fs)).
  { subst fs3. by rewrite ensure_directory_files. }
  assert (Hd3 : name ∈ dirs fs3) by apply ensure_directory_dirs.
  assert (Hd03 : dirs fs ⊆ dirs fs3).
  { subst fs3 fs2. etrans; [|apply ensure_directory_mono]. simpl.
    apply ensure_directory_mono. }
  assert (Hd13 : GetDirectoryPath name true ∈ dirs fs3).
  { subst fs3 fs2. apply ensure_directory_mono. simpl.
    apply ensure_directory_dirs. }
  unfold rename. rewrite Hf3, lookup_insert_eq.
  unfold exists_dir. cbn [fst GetFilePath GetDirectoryPath].
  rewrite bool_decide_eq_true_2 by done.
  eexists. split; [done|]. simpl.
  split; [done|]. split; [done|]. split; [by rewrite lookup_insert_eq|].
  split.
  - intros p Hp Hpt. cbn [GetFilePath GetDirectoryPath] in Hp, Hpt.
    by rewrite lookup_insert_ne, lookup_delete_ne, lookup_insert_ne.
  - intros Hok d f Hsome.
    destruct (decide ((name, file_name cfg) = (d, f))) as [Heq|Hne].
    { by injection Heq as <- <-. }
    simpl in Hsome. rewrite lookup_insert_ne in Hsome by done.
    destruct (decide (GetFilePath cfg name true = (d, f))) as [Heq|Hnt].
    { rewrite <- Heq, lookup_delete_eq in Hsome. by destruct Hsome. }
    rewrite lookup_delete_ne, lookup_insert_ne in Hsome by done.
    by apply Hd03, (Hok d f).
Qed.

Lemma file_path_inj cfg a b ta tb :
  GetFilePath cfg a ta = GetFilePath cfg b tb →
  GetDirectoryPath a ta = GetDirectoryPath b tb.
Proof. unfold GetFilePath. by intros [= ->]. Qed.

(** What [persist_bucket] does to the worker. *)
Lemma persist_bucket_spec cfg name i st :
  ∃ st',
    persist_bucket cfg name i st = Done st'
    ∧ fFragments st' = fFragments st
    ∧ emitted st' = emitted st
    ∧ fMissingVerified st' = u32 i
    ∧ dirs (disk st) ⊆ dirs (disk st')
    ∧ name ∈ dirs (disk st')
    ∧ files (disk st') !! GetFilePath cfg name false
      = Some (compress cfg (default [] (fFragments st !! name)))
    ∧ (∀ p content,
         p ≠ GetFilePath cfg name false → p ≠ GetFilePath cfg name true →
         files (disk st) !! p = Some content →
         files (disk st') !! p = Some content)
    ∧ (tree_ok (disk st) → tree_ok (disk st')
       ∧ ∀ x, u32 (fMissingVerified st) <= x < u32 i → x < 2 ^ 31 →
              gap_filled cfg (disk st') x).
Proof.
  unfold persist_bucket.
  destruct (persist_bucket_moves cfg name
              (compress cfg (default [] (fFragments st !! name))) (disk st))
    as (fs' & -> & Hdirs & Hname & Hfile & Hother & Hok).
  eexists. split; [done|].
  set (st1 := set_disk _ _).
  pose proof (CreateMissing_extends cfg i st1) as [Hd Hf].
  split; [done|]. split; [done|]. split; [done|].
  split; [by etrans|]. split; [by apply Hd|]. split.
  { destruct (Hf (GetFilePath cfg name false)) as [->|[Hnone _]]; [done|].
    simpl in Hnone. congruence. }
  split.
  { intros p content Hp Hpt Hold.
    destruct (Hf p) as [->|[Hnone _]]; simpl; [by rewrite Hother|].
    simpl in Hnone. rewrite Hother in Hnone by done. congruence. }
  intros Htree. specialize (Hok Htree). split.
  - unfold CreateMissing. simpl. by apply foldl_create_missing_tree_ok.
  - intros x Hx Hx31. unfold CreateMissing. simpl.
    pose proof (Z.mod_pos_bound (fMissingVerified st) (2 ^ 32) ltac:(lia)).
    apply foldl_create_missing_filled; [done| |unfold u32 in *; lia].
    apply elem_of_seqZ. lia.
Qed.

Lemma router_path_not_temp cfg name other :
  router_key name = true → router_key other = true →
  GetFilePath cfg name false ≠ GetFilePath cfg other true.
Proof.
  intros Hname Hother Heq%file_path_inj. simpl in Heq.
  by apply (router_key_not_temp name other).
Qed.

Lemma selected_id s e name i :
  id_of name = Some i → selected s e name = (i <? s - 1) || e.
Proof. unfold selected. by intros ->. Qed.

(** The range-for of [WriteOutFiles] over router names: it returns, leaves
    [fFragments] alone, queues exactly the selected names, and leaves each
    of them compressed in its directory. *)
Lemma write_loop_effect cfg s e names :
  Forall (λ name, router_key name = true) names →
  ∀ st clear,
    ∃ st',
      write_loop cfg s e names st clear
        = Done (st', clear ++ filter (λ name, selected s e name = true) names)
      ∧ fFragments st' = fFragments st
      ∧ emitted st' = emitted st
      ∧ dirs (disk st) ⊆ dirs (disk st')
      ∧ (∀ name, router_key name = true →
           is_Some (files (disk st) !! GetFilePath cfg name false) →
           is_Some (files (disk st') !! GetFilePath cfg name false))
      ∧ (∀ p content,
           files (disk st) !! p = Some content →
           (∀ name, name ∈ names → selected s e name = true →
              p ≠ GetFilePath cfg name false ∧ p ≠ GetFilePath cfg name true) →
           files (disk st') !! p = Some content)
      ∧ (NoDup names →
         ∀ name, name ∈ names → selected s e name = true →
           name ∈ dirs (disk st')
           ∧ files (disk st') !! GetFilePath cfg name false
             = Some (compress cfg (default [] (fFragments st !! name)))).
Proof.
  induction names as [|name rest IH]; intros Hkeys st clear.
  - exists st. simpl. rewrite app_nil_r.
    do 6 (split; [done|]). intros _ name Hin. by apply elem_of_nil in Hin.
  - apply Forall_cons in Hkeys as [Hkey Hkeys].
    destruct (router_key_spec name Hkey) as (i & Hi & Hid & _).
    cbn [write_loop].
    destruct (String.eqb_spec name "") as [->|_]; [done|].
    rewrite Hid, filter_cons, (selected_id s e name i Hid).
    destruct ((i <? s - 1) || e) eqn:Hsel; cbn [negb].
    + destruct (persist_bucket_spec cfg name i st)
        as (st1 & -> & Hfr1 & Hem1 & _ & Hd1 & Hn1 & Hfile1 & Hkeep1 & _).
      cbn [mbind outcome_bind].
      destruct (IH Hkeys st1 (clear ++ [name]))
        as (st' & -> & Hfr & Hem & Hd & Hsome & Hkeep & Hpers).
      exists st'. rewrite decide_True by done. rewrite <- app_assoc.
      split; [done|]. split; [congruence|]. split; [congruence|].
      split; [by etrans|]. split; [|split].
      * intros other Hother Hfile. apply Hsome; [done|].
        destruct (decide (other = name)) as [->|Hne]; [by rewrite Hfile1|].
        destruct Hfile as [content Hfile]. exists content.
        apply Hkeep1; [|by apply router_path_not_temp|done].
        intros Heq%file_path_inj. by simpl in Heq.
      * intros p content Hp Hfree. apply Hkeep.
        -- destruct (Hfree name) as [Hp1 Hp2];
             [apply list_elem_of_here|by rewrite (selected_id s e name i)|].
           by apply Hkeep1.
        -- intros other Hin Hother. apply Hfree; [|done].
           by apply list_elem_of_further.
      * intros Hnodup other Hin Hother.
        apply NoDup_cons in Hnodup as [Hfresh Hnodup].
        apply elem_of_cons in Hin as [->|Hin].
        -- split; [by apply Hd|]. rewrite <- Hfr1 in Hfile1 at 1.
           apply Hkeep; [by rewrite Hfr1 in Hfile1|].
           intros other Hin Hsel'. split.
           ++ intros Heq%file_path_inj. simpl in Heq. by subst.
           ++ apply router_path_not_temp; [done|].
              by eapply Forall_forall in Hkeys.
        -- rewrite <- Hfr1. by apply Hpers.
    + destruct (IH Hkeys st clear)
        as (st' & -> & Hfr & Hem & Hd & Hsome & Hkeep & Hpers).
      exists st'. rewrite decide_False by done.
      split; [done|]. split; [done|]. split; [done|]. split; [done|].
      split; [done|]. split.
      * intros p content Hp Hfree. apply Hkeep; [done|].
        intros other Hin Hother. apply Hfree; [|done].
        by apply list_elem_of_further.
      * intros Hnodup other Hin Hother.
        apply NoDup_cons in Hnodup as [Hfresh Hnodup].
        apply elem_of_cons in Hin as [->|Hin]; [|by apply Hpers].
        rewrite (selected_id s e name i Hid) in Hother. congruence.
Qed.

Lemma elem_of_bucket_names (m : gmap string (list Z)) name :
  name ∈ bucket_names m ↔ is_Some (m !! name).
Proof.
  unfold bucket_names. rewrite merge_sort_Permutation.
  rewrite list_elem_of_fmap. split.
  - intros ([k v] & -> & Hin%elem_of_map_to_list). by exists v.
  - intros [v Hv]. exists (name, v). split; [done|].
    by apply elem_of_map_to_list.
Qed.

Lemma NoDup_bucket_names (m : gmap string (list Z)) : NoDup (bucket_names m).
Proof.
  unfold bucket_names. rewrite merge_sort_Permutation.
  apply NoDup_fst_map_to_list.
Qed.

Lemma lookup_foldl_delete (names : list string) :
  ∀ (m : gmap string (list Z)) name,
    foldl (λ m s, delete s m) m names !! name
    = if decide (name ∈ names) then None else m !! name.
Proof.
  induction names as [|k names IH]; intros m name; simpl.
  - destruct (decide (name ∈ [])) as [Hin|_]; [|done].
    by apply elem_of_nil in Hin.
  - rewrite IH. destruct (decide (name ∈ names)) as [Hin|Hnin].
    + rewrite decide_True; [done|]. by apply list_elem_of_further.
    + destruct (decide (name = k)) as [->|Hne].
      * rewrite decide_True by apply list_elem_of_here.
        apply lookup_delete_eq.
      * rewrite decide_False by (by intros [?|?]%elem_of_cons).
        by apply lookup_delete_ne.
Qed.

Lemma the_end_is_no_router_key cfg name :
  router_key name = true →
  GetFilePath cfg name false ≠ ("THE_END"%string, file_name cfg).
Proof.
  intros (c & Hc & _ & Hname)%router_key_spec [= Heq].
  destruct Hname as [->|[->| ->]];
    apply (f_equal String.length) in Heq;
    rewrite ?length_string_app, ?length_GetStringFormat in Heq by done;
    simpl in Heq; lia.
Qed.

Lemma router_keys_by_check (m : gmap string (list Z)) :
  forallb router_key (bucket_names m) = true →
  ∀ name, is_Some (m !! name) → router_key name = true.
Proof.
  intros Hall name Hname%elem_of_bucket_names.
  rewrite forallb_forall in Hall. by apply Hall, list_elem_of_In.
Qed.

(** What [WriteOutFiles] does to the buckets, by selection. *)
Lemma WriteOutFiles_effect cfg s e st :
  (∀ name, is_Some (fFragments st !! name) → router_key name = true) →
  ∃ st',
    WriteOutFiles cfg s e st = Done st'
    ∧ (∀ name buffer,
         fFragments st !! name = Some buffer →
         if selected s e name
         then fFragments st' !! name = None
              ∧ name ∈ dirs (disk st')
              ∧ files (disk st') !! GetFilePath cfg name false
                = Some (compress cfg buffer)
         else fFragments st' !! name = Some buffer)
    ∧ (∀ name, fFragments st !! name = None → fFragments st' !! name = None).
Proof.
  intros Hkeys. unfold WriteOutFiles.
  destruct (write_loop_effect cfg s e (bucket_names (fFragments st)))
    with (st := st) (clear := @nil string)
    as (st1 & -> & Hfr & _ & Hd & _ & _ & Hpers).
  { apply Forall_forall. intros name Hin. by apply Hkeys, elem_of_bucket_names. }
  specialize (Hpers (NoDup_bucket_names _)).
  cbn [mbind outcome_bind app]. eexists. split; [done|].
  set (queued := filter _ _).
  assert (Hqueued : ∀ name, name ∈ queued ↔
            is_Some (fFragments st !! name) ∧ selected s e name = true).
  { intros name. subst queued. rewrite list_elem_of_filter.
    rewrite elem_of_bucket_names. tauto. }
  split.
  - intros name buffer Hname.
    destruct (selected s e name) eqn:Hsel.
    + destruct (Hpers name) as [Hdir Hfile];
        [by apply elem_of_bucket_names|done|].
      rewrite Hname in Hfile. simpl in Hfile.
      destruct e; simpl.
      * split; [apply lookup_empty|]. unfold write_file, exists_dir.
        cbn [fst]. rewrite bool_decide_eq_true_2 by apply ensure_directory_dirs.
        simpl. split; [by apply ensure_directory_mono|].
        rewrite lookup_insert_ne, ensure_directory_files; [done|].
        apply not_eq_sym, the_end_is_no_router_key, Hkeys. by rewrite Hname.
      * split; [|done]. rewrite lookup_foldl_delete, decide_True; [done|].
        apply Hqueued. by rewrite Hname.
    + assert (e = false) as ->.
      { destruct (router_key_spec name (Hkeys name ltac:(by rewrite Hname)))
          as (i & _ & Hid & _).
        rewrite (selected_id s e name i Hid) in Hsel.
        by apply orb_false_elim in Hsel as [_ ->]. }
      simpl. rewrite lookup_foldl_delete, decide_False; [by rewrite Hfr|].
      rewrite Hqueued. intros [_ ?]. congruence.
  - intros name Hname. destruct e; simpl; [apply lookup_empty|].
    rewrite lookup_foldl_delete. case_decide; [done|]. by rewrite Hfr.
Qed.

(** C7. With only router names in memory, [WriteOutFiles] returns, and a
    bucket whose leading six digits read [idnrint] is treated as follows.
    If [idnrint < smallest_index_seen - 1], or if [end] is set, the bucket
    is gone from memory and its compressed bytes are the worker's file in
    the directory of that name. Otherwise the bucket is still in memory
    with the same bytes. No bucket appears that was not there. *)
Theorem WriteOutFiles_selects_by_id cfg smallest_index_seen end_ st :
  (∀ name, is_Some (fFragments st !! name) → router_key name = true) →
  ∃ st',
    WriteOutFiles cfg smallest_index_seen end_ st = Done st'
    ∧ (∀ name buffer idnrint,
         fFragments st !! name = Some buffer →
         id_of name = Some idnrint →
         if (idnrint <? smallest_index_seen - 1) || end_
         then fFragments st' !! name = None
              ∧ name ∈ dirs (disk st')
              ∧ files (disk st') !! GetFilePath cfg name false
                = Some (compress cfg buffer)
         else fFragments st' !! name = Some buffer)
    ∧ (∀ name, fFragments st !! name = None → fFragments st' !! name = None).
Proof.
  intros Hkeys. unfold WriteOutFiles.
  destruct (write_loop_effect cfg smallest_index_seen end_
              (bucket_names (fFragments st))) with (st := st) (clear := @nil string)
    as (st1 & -> & Hfr & _ & Hd & _ & _ & Hpers).
  { apply Forall_forall. intros name Hin. by apply Hkeys, elem_of_bucket_names. }
  specialize (Hpers (NoDup_bucket_names _)).
  cbn [mbind outcome_bind app]. eexists. split; [done|].
  set (queued := filter _ _).
  assert (Hqueued : ∀ name, name ∈ queued ↔
            is_Some (fFragments st !! name)
            ∧ selected smallest_index_seen end_ name = true).
  { intros name. subst queued. rewrite list_elem_of_filter.
    rewrite elem_of_bucket_names. tauto. }
  split.
  - intros name buffer i Hname Hid.
    rewrite <- (selected_id smallest_index_seen end_ name i Hid).
    destruct (selected smallest_index_seen end_ name) eqn:Hsel.
    + destruct (Hpers name) as [Hdir Hfile];
        [by apply elem_of_bucket_names|done|].
      rewrite Hname in Hfile. simpl in Hfile.
      destruct end_; simpl.
      * split; [apply lookup_empty|]. unfold write_file, exists_dir.
        cbn [fst]. rewrite bool_decide_eq_true_2 by apply ensure_directory_dirs.
        simpl. split; [by apply ensure_directory_mono|].
        rewrite lookup_insert_ne, ensure_directory_files; [done|].
        apply not_eq_sym, the_end_is_no_router_key, Hkeys. by rewrite Hname.
      * split; [|done]. rewrite lookup_foldl_delete, decide_True; [done|].
        apply Hqueued. by rewrite Hname.
    + assert (end_ = false) as ->.
      { rewrite (selected_id _ _ _ _ Hid) in Hsel.
        by apply orb_false_elim in Hsel as [_ ->]. }
      simpl. rewrite lookup_foldl_delete, decide_False; [by rewrite Hfr|].
      rewrite Hqueued. intros [_ ?]. congruence.
  - intros name Hname. destruct end_; simpl; [apply lookup_empty|].
    rewrite lookup_foldl_delete. case_decide; [done|]. by rewrite Hfr.
Qed.

(** C7 at a worker holding chunk 0 and chunk 5, flushed with threshold 5:
    chunk 0 is written out, chunk 5 stays. *)
Lemma WriteOutFiles_selects_by_id_witness :
  let cfg := example_cfg dpp_daw in
  let st := (AddFragmentToBuffer cfg [7; 7] 27500000000
               (AddFragmentToBuffer cfg [1; 2; 3] 4000000000 fresh).1).1 in
  ∃ st',
    WriteOutFiles cfg 5 false st = Done st'
    ∧ (∀ name buffer idnrint,
         fFragments st !! name = Some buffer →
         id_of name = Some idnrint →
         if (idnrint <? 5 - 1) || false
         then fFragments st' !! name = None
              ∧ name ∈ dirs (disk st')
              ∧ files (disk st') !! GetFilePath cfg name false
                = Some (compress cfg buffer)
         else fFragments st' !! name = Some buffer)
    ∧ (∀ name, fFragments st !! name = None → fFragments st' !! name = None).
Proof.
  intros cfg st. apply WriteOutFiles_selects_by_id.
  apply router_keys_by_check. by vm_compute.
Defined.

(** ** C2: gap filling up to the end of the stream *)








(** *** The invariant along a worker history *)


Lemma bucket_append_keeps name fragment (m : gmap string (list Z)) other :
  is_Some (m !! other) → is_Some (bucket_append name fragment m !! other).
Proof.
  intros Hother. unfold bucket_append.
  destruct (decide (name = other)) as [->|Hne].
  - by rewrite lookup_insert_eq.
  - by rewrite lookup_insert_ne.
Qed.

Lemma bucket_append_inv name fragment (m : gmap string (list Z)) other :
  is_Some (bucket_append name fragment m !! other) →
  other = name ∨ is_Some (m !! other).
Proof.
  unfold bucket_append. destruct (decide (name = other)) as [->|Hne].
  - by left.
  - rewrite lookup_insert_ne by done. by right.
Qed.

Lemma bucket_append_here name fragment (m : gmap string (list Z)) :
  is_Some (bucket_append name fragment m !! name).
Proof. unfold bucket_append. by rewrite lookup_insert_eq. Qed.

(** The buckets after [AddFragmentToBuffer], by destination. *)
Lemma AddFragmentToBuffer_buckets cfg fragment timestamp st :
  fFragments (AddFragmentToBuffer cfg fragment timestamp st).1
  = foldl (λ m name, bucket_append name fragment m) (fFragments st)
      (destinations cfg timestamp)
  ∧ disk (AddFragmentToBuffer cfg fragment timestamp st).1 = disk st
  ∧ fMissingVerified (AddFragmentToBuffer cfg fragment timestamp st).1
    = fMissingVerified st.
Proof.
  unfold AddFragmentToBuffer, destinations.
  by destruct (nextpre_of cfg timestamp).
Qed.

Lemma destinations_router_keys cfg timestamp :
  0 < fFullChunkLength cfg → routable cfg timestamp →
  ∀ name, name ∈ destinations cfg timestamp →
    router_key name = true
    ∧ ∃ i, id_of name = Some i ∧ timestamp / fFullChunkLength cfg <= i.
Proof.
  intros Hfull [Ht Hc] name. unfold destinations.
  rewrite chunk_of_nonneg by lia.
  set (c := timestamp / fFullChunkLength cfg) in *.
  assert (0 <= c) by (apply Z.div_pos; lia).
  destruct (nextpre_of cfg timestamp).
  - intros [->|[->|Hin%elem_of_nil]%elem_of_cons]%elem_of_cons; [| |done].
    + split; [apply router_key_suffixed; auto with lia|].
      exists (c + 1). rewrite id_of_GetStringFormat by lia. split; [done|lia].
    + split; [apply router_key_suffixed; auto with lia|].
      exists c. rewrite id_of_GetStringFormat by lia. split; [done|lia].
  - intros [->|Hin%elem_of_nil]%elem_of_cons; [|done].
    split; [apply router_key_primary; lia|].
    exists c. rewrite <- (string_app_nil_r (GetStringFormat c)).
    rewrite id_of_GetStringFormat by lia. split; [done|lia].
Qed.


Lemma foldl_bucket_append_keeps fragment names :
  ∀ (m : gmap string (list Z)) other,
    is_Some (m !! other) →
    is_Some (foldl (λ m name, bucket_append name fragment m) m names !! other).
Proof.
  induction names as [|name names IH]; intros m other Hother; simpl; [done|].
  by apply IH, bucket_append_keeps.
Qed.

Lemma foldl_bucket_append_here fragment names :
  ∀ (m : gmap string (list Z)) name, name ∈ names →
    is_Some (foldl (λ m name, bucket_append name fragment m) m names !! name).
Proof.
  induction names as [|k names IH]; intros m name Hin; simpl.
  - by apply elem_of_nil in Hin.
  - apply elem_of_cons in Hin as [->|Hin]; [|by apply IH].
    apply foldl_bucket_append_keeps, bucket_append_here.
Qed.

Lemma foldl_bucket_append_inv fragment names :
  ∀ (m : gmap string (list Z)) other,
    is_Some (foldl (λ m name, bucket_append name fragment m) m names !! other) →
    other ∈ names ∨ is_Some (m !! other).
Proof.
  induction names as [|k names IH]; intros m other Hother; simpl in *.
  - by right.
  - apply IH in Hother as [Hin|Hother]; [left; by apply list_elem_of_further|].
    apply bucket_append_inv in Hother as [->|Hother];
      [left; apply list_elem_of_here|by right].
Qed.







(** ** C5: cutting a pulse into fragments *)

Lemma counted_AddFragmentToBuffer cfg fragment timestamp st :
  fFragmentsProcessed (AddFragmentToBuffer cfg fragment timestamp st).1
  = fFragmentsProcessed st.
Proof. unfold AddFragmentToBuffer. by destruct (negb _). Qed.

Lemma sub_bytes_join a x y (l : list Z) :
  0 <= a → 0 <= x → 0 <= y →
  sub_bytes a x l ++ sub_bytes (a + x) y l = sub_bytes a (x + y) l.
Proof.
  intros Ha Hx Hy. unfold sub_bytes.
  rewrite !Z2Nat.inj_add by lia. rewrite <- drop_drop.
  apply take_take_drop.
Qed.

Lemma length_sub_bytes pos n (l : list Z) :
  0 <= pos → 0 <= n → pos + n <= Z.of_nat (length l) →
  Z.of_nat (length (sub_bytes pos n l)) = n.
Proof.
  intros Hpos Hn Hl. unfold sub_bytes.
  rewrite length_take, length_drop. lia.
Qed.

Lemma sub_bytes_nothing pos n (l : list Z) : n <= 0 → sub_bytes pos n l = [].
Proof.
  intros Hn. unfold sub_bytes. by replace (Z.to_nat n) with 0%nat by lia.
Qed.

(** The samples a reader finds in a fragment are the data it was built
    from, when the data fill the announced number of samples. *)
Lemma samples_of_strax_fragment cfg t stf w c sip fi bl data :
  0 <= stf < 2 ^ 31 → Z.of_nat (length data) = 2 * stf →
  samples_of (strax_fragment cfg t stf w c sip fi bl data) = data.
Proof.
  intros Hstf Hdata. unfold samples_of.
  rewrite read_header_strax_fragment. cbn [h_samples_this_fragment].
  unfold i32. rewrite signed_small by (change (2 ^ (32 - 1)) with (2 ^ 31); lia).
  unfold strax_fragment, zero_fill, fStraxHeaderSize.
  rewrite <- !app_assoc.
  repeat (rewrite sub_bytes_skip by (rewrite length_le_bytes; lia);
          rewrite length_le_bytes; simpl (_ - _)).
  by apply sub_bytes_here.
Qed.

Section Pulse.
Context (cfg : Config) (dp : data_packet) (p : Pulse).

Let fs := Z.shiftr (fFragmentBytes cfg) 1.
Let sip := samples_in_pulse p.
Let n := fragment_count cfg p.

Hypothesis no_quit : fForceQuit cfg = false.
Hypothesis fs_pos : 0 < fs.
Hypothesis fs_small : fs < 2 ^ 15.
Hypothesis sip_range : 0 <= sip <= 32768 * fs.
Hypothesis offset_range : 0 <= offset p ∧ offset p + sip < 2 ^ 32.

Lemma below_count i : 0 <= i → i < n ↔ i * fs < sip.
Proof.
  intros Hi. subst n. unfold fragment_count. fold fs sip. split.
  - intros Hlt. destruct (Z.lt_ge_cases (i * fs) sip) as [|Hge]; [done|].
    exfalso. apply (Z.lt_irrefl i).
    eapply Z.lt_le_trans; [exact Hlt|].
    apply Z.lt_succ_r, Z.div_lt_upper_bound; lia.
  - intros Hlt. apply Z.lt_le_trans with (i + 1); [lia|].
    apply Z.div_le_lower_bound; lia.
Qed.

Lemma count_range : 0 <= n <= 32768.
Proof.
  split.
  - subst n. unfold fragment_count. fold fs sip. apply Z.div_pos; lia.
  - destruct (Z.le_gt_cases n 32768) as [|Hgt]; [done|].
    assert (32768 < n) as Hlt%below_count by lia; lia.
Qed.

(** One turn of the loop emits fragment [i] and moves on. *)
Lemma fragment_loop_step fuel i smallest st :
  0 <= i < n →
  ∃ smallest' st',
    fragment_loop (S fuel) cfg dp p (Z.min (i * fs) sip) (u16 i) smallest st
    = fragment_loop fuel cfg dp p (Z.min ((i + 1) * fs) sip) (u16 (i + 1))
        smallest' st'
    ∧ emitted st' = emitted st ++ [nth_fragment cfg dp p i]
    ∧ fFragmentsProcessed st' = fFragmentsProcessed st + 1.
Proof.
  intros Hi. pose proof count_range as Hn.
  assert (Hlt : i * fs < sip) by (apply below_count; lia).
  assert (Hifs : 0 <= i * fs) by lia.
  assert (Hsip : sip < 2 ^ 30) by nia.
  cbn [fragment_loop]. fold fs sip.
  rewrite (Z.min_l (i * fs) sip) by lia.
  destruct (Z.ltb_spec (i * fs) sip); [|lia].
  rewrite (u16_small i) by lia.
  rewrite (u32_small (fs + i * fs)) by nia.
  rewrite (u32_small (sip - i * fs)) by lia.
  rewrite (u32_small fs) by lia.
  rewrite (u32_small (offset p + i * fs)) by lia.
  rewrite no_quit.
  destruct (Z.ltb_spec sip (fs + i * fs)) as [Hpartial|Hfull].
  - rewrite (u32_small (i * fs + (sip - i * fs))) by lia.
    replace (i * fs + (sip - i * fs) - i * fs) with (sip - i * fs) by lia.
    replace (i * fs + (sip - i * fs)) with sip by lia.
    rewrite (u32_small (sip - i * fs)) by lia.
    rewrite (u32_small ((sip - i * fs) * 2)) by lia.
    destruct (AddFragmentToBuffer _ _ _ _) as [st' chunk_id] eqn:Hadd.
    eexists _, st'. split; [f_equal; lia|].
    apply (f_equal fst) in Hadd. simpl in Hadd. subst st'.
    rewrite emitted_AddFragmentToBuffer. unfold nth_fragment.
    fold fs sip. rewrite (Z.min_r fs) by lia.
    split; [|by rewrite counted_AddFragmentToBuffer].
    by rewrite (Z.mul_comm (sip - i * fs) 2).
  - rewrite (u32_small (i * fs + fs)) by lia.
    rewrite (u32_small (fs * 2)) by lia.
    destruct (AddFragmentToBuffer _ _ _ _) as [st' chunk_id] eqn:Hadd.
    eexists _, st'. split; [f_equal; lia|].
    apply (f_equal fst) in Hadd. simpl in Hadd. subst st'.
    rewrite emitted_AddFragmentToBuffer. unfold nth_fragment.
    fold fs sip. rewrite (Z.min_l fs) by lia.
    split; [|by rewrite counted_AddFragmentToBuffer].
    by rewrite (Z.mul_comm fs 2).
Qed.

(** The loop returns after [n] turns, having emitted fragments
    [i, ..., n-1] in that order. *)
Lemma fragment_loop_from (k : nat) :
  ∀ fuel i smallest st,
    0 <= i → Z.of_nat k = n - i → (k < fuel)%nat →
    ∃ smallest' st',
      fragment_loop fuel cfg dp p (Z.min (i * fs) sip) (u16 i) smallest st
      = Done (smallest', st')
      ∧ emitted st'
        = emitted st ++ (nth_fragment cfg dp p <$> seqZ i (Z.of_nat k))
      ∧ fFragmentsProcessed st' = fFragmentsProcessed st + Z.of_nat k.
Proof.
  induction k as [|k IH]; intros fuel i smallest st Hi Hk Hfuel.
  - destruct fuel as [|fuel]; [lia|].
    assert (Hge : sip <= i * fs).
    { destruct (Z.le_gt_cases sip (i * fs)) as [|Hlt]; [done|].
      apply below_count in Hlt; lia. }
    exists smallest, st. cbn [fragment_loop]. fold fs sip.
    rewrite Z.min_r by lia. destruct (Z.ltb_spec sip sip); [lia|].
    split; [done|]. simpl. rewrite app_nil_r. split; [done|lia].
  - destruct fuel as [|fuel]; [lia|].
    destruct (fragment_loop_step fuel i smallest st) as
      (smallest1 & st1 & -> & Hem1 & Hcount1); [lia|].
    destruct (IH fuel (i + 1) smallest1 st1) as
      (smallest' & st' & -> & Hem & Hcount); [lia..|].
    exists smallest', st'. split; [done|].
    rewrite Hem, Hem1, Hcount, Hcount1, <- app_assoc.
    split; [|lia]. f_equal.
    rewrite (seqZ_cons i (Z.of_nat (S k))) by lia.
    rewrite fmap_cons. simpl.
    replace (Z.succ i) with (i + 1) by lia.
    by replace (Z.pred (Z.of_nat (S k))) with (Z.of_nat k) by lia.
Qed.

Hypothesis in_buffer :
  2 * (offset p + sip) <= Z.of_nat (length (buffer_bytes dp)).

Lemma samples_of_nth_fragment i :
  0 <= i < n →
  samples_of (nth_fragment cfg dp p i).1
  = sub_bytes (2 * (offset p + i * fs))
      (2 * (Z.min ((i + 1) * fs) sip - i * fs)) (buffer_bytes dp).
Proof.
  intros Hi. assert (Hlt : i * fs < sip) by (apply below_count; lia).
  unfold nth_fragment. fold fs sip. cbn [fst].
  replace (Z.min ((i + 1) * fs) sip - i * fs)
    with (Z.min fs (sip - i * fs)) by lia.
  apply samples_of_strax_fragment; [lia|].
  apply length_sub_bytes; lia.
Qed.

(** Fragments [i, ..., i+k-1] carry the samples from [i*fragment_samples]
    up to [(i+k)*fragment_samples], or to the end of the pulse. *)
Lemma samples_of_fragments (k : nat) :
  ∀ i, 0 <= i → i + Z.of_nat k <= n →
    concat ((λ ft, samples_of ft.1) <$>
              (nth_fragment cfg dp p <$> seqZ i (Z.of_nat k)))
    = sub_bytes (2 * (offset p + i * fs))
        (2 * (Z.min ((i + Z.of_nat k) * fs) sip - i * fs))
        (buffer_bytes dp).
Proof.
  induction k as [|k IH]; intros i Hi Hk.
  - simpl. symmetry. apply sub_bytes_nothing. lia.
  - assert (Hlt : i * fs < sip) by (apply below_count; lia).
    rewrite (seqZ_cons i (Z.of_nat (S k))) by lia.
    replace (Z.succ i) with (i + 1) by lia.
    replace (Z.pred (Z.of_nat (S k))) with (Z.of_nat k) by lia.
    rewrite !fmap_cons. cbn [concat].
    rewrite samples_of_nth_fragment by lia.
    destruct k as [|k].
    { simpl. by rewrite app_nil_r. }
    rewrite IH by lia.
    assert (Hnext : (i + 1) * fs < sip) by (apply below_count; lia).
    replace (2 * (offset p + (i + 1) * fs))
      with (2 * (offset p + i * fs)
            + 2 * (Z.min ((i + 1) * fs) sip - i * fs)) by lia.
    rewrite sub_bytes_join by lia. f_equal.
    assert ((i + 1) * fs <= (i + 1 + Z.of_nat (S k)) * fs) by nia.
    replace (i + 1 + Z.of_nat (S k)) with (i + Z.of_nat (S (S k))) by lia.
    lia.
Qed.

Hypothesis product_range : fs * sw p * n < 2 ^ 31.
Hypothesis time_range :
  0 <= pulse_time p ∧ 0 <= sw p
  ∧ pulse_time p + fs * sw p * n < 2 ^ 63.

(** Below the bound the 32-bit product is the product. *)
Lemma product_of_nth_fragment i :
  0 <= i < n → i32 (i32 (fs * sw p) * i) = fs * sw p * i.
Proof.
  intros Hi. destruct time_range as (_ & Hsw & _).
  assert (Hfsw : 0 <= fs * sw p) by nia.
  assert (Hone : fs * sw p <= fs * sw p * n) by nia.
  assert (Hi' : fs * sw p * i <= fs * sw p * n) by nia.
  unfold i32.
  rewrite (signed_small 32 (fs * sw p))
    by (change (2 ^ (32 - 1)) with (2 ^ 31); lia).
  apply signed_small; [lia|]. change (2 ^ (32 - 1)) with (2 ^ 31). nia.
Qed.

Lemma header_of_nth_fragment i :
  0 <= i < n →
  (nth_fragment cfg dp p i).2 = pulse_time p + fs * sw p * i
  ∧ h_time (read_header (nth_fragment cfg dp p i).1)
    = pulse_time p + fs * sw p * i
  ∧ h_samples_this_fragment (read_header (nth_fragment cfg dp p i).1)
    = Z.min fs (sip - i * fs)
  ∧ h_samples_in_pulse (read_header (nth_fragment cfg dp p i).1) = sip
  ∧ h_fragment_index (read_header (nth_fragment cfg dp p i).1) = i.
Proof.
  intros Hi. pose proof count_range as Hn.
  destruct time_range as (Ht & Hsw & Htime).
  assert (Hlt : i * fs < sip) by (apply below_count; lia).
  assert (Hi64 : i64 (pulse_time p + fs * sw p * i)
                 = pulse_time p + fs * sw p * i).
  { apply signed_small; [lia|]. change (2 ^ (64 - 1)) with (2 ^ 63).
    split; [nia|]. eapply Z.le_lt_trans; [|exact Htime]. nia. }
  unfold nth_fragment. fold fs sip. cbn [fst snd].
  rewrite read_header_strax_fragment. cbn.
  fold (i32 (fs * sw p)). fold (i32 (i32 (fs * sw p) * i)).
  rewrite (product_of_nth_fragment i Hi).
  rewrite i64_u64, Hi64. split; [done|]. split; [done|].
  split; [apply signed_small; [lia|]; change (2 ^ (32 - 1)) with (2 ^ 31); lia|].
  split; [apply signed_small; [lia|]; change (2 ^ (32 - 1)) with (2 ^ 31); nia|].
  apply signed_small; [lia|]. change (2 ^ (16 - 1)) with (2 ^ 15). lia.
Qed.

Lemma fragments_of_pulse fuel smallest st :
  (Z.to_nat n < fuel)%nat →
  ∃ smallest' st' fragments,
    fragment_loop fuel cfg dp p 0 0 smallest st = Done (smallest', st')
    ∧ emitted st' = emitted st ++ fragments
    ∧ Z.of_nat (length fragments) = n
    ∧ (∀ i, 0 <= i < n →
         ∃ fragment,
           fragments !! Z.to_nat i
             = Some (fragment, pulse_time p + fs * sw p * i)
           ∧ h_time (read_header fragment) = pulse_time p + fs * sw p * i
           ∧ h_samples_this_fragment (read_header fragment)
             = Z.min fs (sip - i * fs)
           ∧ h_samples_in_pulse (read_header fragment) = sip
           ∧ h_fragment_index (read_header fragment) = i)
    ∧ concat ((λ ft, samples_of ft.1) <$> fragments)
      = sub_bytes (2 * offset p) (2 * sip) (buffer_bytes dp).
Proof.
  intros Hfuel. pose proof count_range as Hn.
  destruct (fragment_loop_from (Z.to_nat n) fuel 0 smallest st)
    as (smallest' & st' & Hrun & Hem & _); [lia..|].
  rewrite Z.mul_0_l, Z.min_l in Hrun by lia. change (u16 0) with 0 in Hrun.
  rewrite Z2Nat.id in Hem by lia.
  exists smallest', st', (nth_fragment cfg dp p <$> seqZ 0 n).
  split; [done|]. split; [done|]. split; [|split].
  - rewrite length_fmap, length_seqZ. lia.
  - intros i Hi. exists (nth_fragment cfg dp p i).1.
    destruct (header_of_nth_fragment i Hi) as (Hts & Hhdr).
    split; [|exact Hhdr].
    rewrite list_lookup_fmap, lookup_seqZ_lt by lia.
    cbn [fmap option_fmap option_map].
    rewrite Z.add_0_l, Z2Nat.id, <- Hts by lia.
    by destruct (nth_fragment cfg dp p i).
  - pose proof (samples_of_fragments (Z.to_nat n) 0) as Hcat.
    rewrite Z2Nat.id in Hcat by lia. rewrite Hcat by lia.
    rewrite Z.mul_0_l, Z.add_0_r, Z.add_0_l, Z.sub_0_r.
    do 2 f_equal. apply Z.min_r.
    destruct (Z.le_gt_cases sip (n * fs)) as [|Hlt]; [done|].
    apply below_count in Hlt; lia.
Qed.
End Pulse.

(** C5. A pulse of [samples_in_pulse] samples is cut into exactly
    [ceil(samples_in_pulse / fragment_samples)] fragments, where
    [fragment_samples = payload_bytes / 2]: the loop returns having handed
    them to the router in order. Fragment [i] is stamped
    [t + fragment_samples * sw * i], its header announces
    [min(fragment_samples, samples_in_pulse - i*fragment_samples)] samples
    and index [i], and the first [samples_this_fragment * 2] payload bytes
    of all fragments, concatenated in order, are the sample bytes of the
    pulse. ([sw] is the 16-bit [ns_per_sample]; the bounds exclude the
    wrap-around of the 16-bit fragment index, of the 32-bit product
    [fragment_samples * sw * i] and of the 64-bit timestamp.) *)
Theorem pulse_is_cut_into_fragments cfg dp p fuel smallest st :
  let fragment_samples := fFragmentBytes cfg / 2 in
  let n := (samples_in_pulse p + fragment_samples - 1) / fragment_samples in
  fForceQuit cfg = false →
  0 < fragment_samples < 2 ^ 15 →
  0 <= samples_in_pulse p <= 32768 * fragment_samples →
  0 <= offset p ∧ offset p + samples_in_pulse p < 2 ^ 32 →
  2 * (offset p + samples_in_pulse p) <= Z.of_nat (length (buffer_bytes dp)) →
  fragment_samples * sw p * n < 2 ^ 31 →
  0 <= pulse_time p ∧ 0 <= sw p
    ∧ pulse_time p + fragment_samples * sw p * n < 2 ^ 63 →
  (Z.to_nat n < fuel)%nat →
  ∃ smallest' st' fragments,
    fragment_loop fuel cfg dp p 0 0 smallest st = Done (smallest', st')
    ∧ emitted st' = emitted st ++ fragments
    ∧ Z.of_nat (length fragments) = n
    ∧ (∀ i, 0 <= i < n →
         ∃ fragment,
           fragments !! Z.to_nat i
             = Some (fragment, pulse_time p + fragment_samples * sw p * i)
           ∧ h_time (read_header fragment)
             = pulse_time p + fragment_samples * sw p * i
           ∧ h_samples_this_fragment (read_header fragment)
             = Z.min fragment_samples
                 (samples_in_pulse p - i * fragment_samples)
           ∧ h_samples_in_pulse (read_header fragment) = samples_in_pulse p
           ∧ h_fragment_index (read_header fragment) = i)
    ∧ concat ((λ ft, samples_of ft.1) <$> fragments)
      = sub_bytes (2 * offset p) (2 * samples_in_pulse p) (buffer_bytes dp).
Proof.
  intros fs n Hquit [Hfs0 Hfs1] Hsip Hoff Hbuf Hprod Htime Hfuel.
  pose proof (fragments_of_pulse cfg dp p) as H.
  unfold fragment_count in H. rewrite !shiftr_1 in H.
  by apply H.
Qed.

(** C5 at a pulse of six samples cut with a payload of eight bytes: one
    full fragment of four samples and one of two. *)
Lemma pulse_is_cut_into_fragments_witness :
  let cfg := tiny_payload_cfg in
  let p := {| pulse_time := 1000000000; samples_in_pulse := 6; offset := 8;
              sw := 10; cl := 0; baseline := 0 |} in
  ∃ smallest' st' fragments,
    fragment_loop 3 cfg three_word_packet p 0 0 (-1) fresh
      = Done (smallest', st')
    ∧ emitted st' = emitted fresh ++ fragments
    ∧ Z.of_nat (length fragments) = (6 + 8 / 2 - 1) / (8 / 2)
    ∧ (∀ i, 0 <= i < (6 + 8 / 2 - 1) / (8 / 2) →
         ∃ fragment,
           fragments !! Z.to_nat i
             = Some (fragment, 1000000000 + 8 / 2 * 10 * i)
           ∧ h_time (read_header fragment) = 1000000000 + 8 / 2 * 10 * i
           ∧ h_samples_this_fragment (read_header fragment)
             = Z.min (8 / 2) (6 - i * (8 / 2))
           ∧ h_samples_in_pulse (read_header fragment) = 6
           ∧ h_fragment_index (read_header fragment) = i)
    ∧ concat ((λ ft, samples_of ft.1) <$> fragments)
      = sub_bytes (2 * 8) (2 * 6) (buffer_bytes three_word_packet).
Proof.
  intros cfg p.
  apply (pulse_is_cut_into_fragments cfg three_word_packet p 3 (-1) fresh);
    by vm_compute.
Defined.

(** Past the bound on the product the stamp wraps. With a payload of 32770
    bytes and 65535 ns per sample the third fragment of a pulse of 32772
    samples lies [2 * 16385 * 65535 = 2147581950] ns after the pulse time
    by the formula; the 32-bit product is [2147581950 - 2^32], and the
    fragment is stamped before the pulse. *)
Example product_wraps_past_31_bits :
  let cfg := {| fChunkLength := 5000000000; fChunkOverlap := 500000000;
                fFragmentBytes := 32770; fHostname := "reader0";
                thread_tag := "7f01"; fFmt := λ _, default_firmware;
                GetChannel := λ _ channel, channel;
                compress := λ bytes, bytes; fForceQuit := false |} in
  let p := {| pulse_time := 1000000000; samples_in_pulse := 32772;
              offset := 8; sw := 65535; cl := 0; baseline := 0 |} in
  match fragment_loop 4 cfg three_word_packet p 0 0 (-1) fresh with
  | Done (_, st) => (emitted st).*2
  | _ => []
  end = [1000000000; 2073790975; -1147385346].
Proof. by vm_compute. Qed.

(** ** C6: the size of a fragment *)

Lemma length_strax_fragment cfg t stf w c sip fi bl data :
  Z.of_nat (length data) <= fFragmentBytes cfg →
  Z.of_nat (length (strax_fragment cfg t stf w c sip fi bl data))
  = fStraxHeaderSize + fFragmentBytes cfg.
Proof.
  intros Hdata. unfold strax_fragment. rewrite length_zero_fill.
  rewrite !length_app, !length_le_bytes. unfold fStraxHeaderSize. lia.
Qed.

Lemma strax_fragment_padding cfg t stf w c sip fi bl data (i : nat) :
  (24 + length data <= i
   < length (strax_fragment cfg t stf w c sip fi bl data))%nat →
  strax_fragment cfg t stf w c sip fi bl data !! i = Some 0.
Proof.
  intros Hi. unfold strax_fragment in *. apply zero_fill_tail.
  split; [|lia]. rewrite !length_app, !length_le_bytes. simpl. lia.
Qed.

Lemma length_sub_bytes_le pos n (l : list Z) :
  0 <= n → Z.of_nat (length (sub_bytes pos n l)) <= n.
Proof. intros Hn. unfold sub_bytes. rewrite length_take. lia. Qed.

Lemma full_size_deadtime cfg timestamp bid :
  2 <= fFragmentBytes cfg →
  full_size cfg (deadtime_fragment cfg timestamp bid, timestamp).
Proof.
  intros Hfb. unfold full_size. cbn [fst].
  rewrite length_deadtime_fragment. unfold fStraxHeaderSize. lia.
Qed.

Lemma adds_full_size_refl cfg st st' :
  emitted st' = emitted st → adds_full_size cfg st st'.
Proof. intros Hem. exists []. by rewrite app_nil_r. Qed.

Lemma adds_full_size_trans cfg st1 st2 st3 :
  adds_full_size cfg st1 st2 → adds_full_size cfg st2 st3 →
  adds_full_size cfg st1 st3.
Proof.
  intros (f12 & H12 & F12) (f23 & H23 & F23). exists (f12 ++ f23).
  split; [by rewrite H23, H12, app_assoc|by apply Forall_app].
Qed.

Lemma adds_full_size_one cfg fragment timestamp st :
  full_size cfg (fragment, timestamp) →
  adds_full_size cfg st (AddFragmentToBuffer cfg fragment timestamp st).1.
Proof.
  intros Hsize. exists [(fragment, timestamp)].
  split; [apply emitted_AddFragmentToBuffer|by apply Forall_singleton].
Qed.

Section FragmentLoop.
Context (cfg : Config) (dp : data_packet) (p : Pulse).

Let fs := Z.shiftr (fFragmentBytes cfg) 1.
Let sip := samples_in_pulse p.

Hypothesis payload_range : 2 <= fFragmentBytes cfg < 2 ^ 16.
Hypothesis sip_range : 0 <= sip <= 2 ^ 31.

Lemma fs_range : 0 < fs < 2 ^ 15 ∧ 2 * fs <= fFragmentBytes cfg.
Proof.
  subst fs. rewrite shiftr_1.
  pose proof (Z.div_mod (fFragmentBytes cfg) 2 ltac:(lia)).
  pose proof (Z.mod_pos_bound (fFragmentBytes cfg) 2 ltac:(lia)).
  pow2. lia.
Qed.

Lemma fragment_loop_full_size fuel :
  ∀ index fi smallest st smallest' st',
    0 <= index → 0 <= fi < 2 ^ 16 →
    sip <= index ∨ fi * fs <= index →
    fragment_loop fuel cfg dp p index fi smallest st
      = Done (smallest', st') →
    adds_full_size cfg st st'.
Proof.
  pose proof fs_range as (Hfs & Hfb).
  induction fuel as [|fuel IH];
    intros index fi smallest st smallest' st' Hindex Hfi Hinv Hrun; [done|].
  cbn [fragment_loop] in Hrun. fold fs sip in Hrun.
  destruct (Z.ltb_spec index sip) as [Hlt|Hge];
    [|injection Hrun as _ <-; by apply adds_full_size_refl].
  destruct Hinv as [?|Hinv]; [lia|].
  assert (Hfifs : 0 <= fi * fs < 2 ^ 31).
  { pow2. nia. }
  rewrite (u32_small (fs + fi * fs)) in Hrun by (pow2; lia).
  rewrite (u32_small (sip - fi * fs)) in Hrun by (pow2; lia).
  rewrite (u32_small fs) in Hrun by (pow2; lia).
  assert (Hu16 : 0 <= u16 (fi + 1) < 2 ^ 16) by (apply Z.mod_pos_bound; lia).
  assert (Hu16le : u16 (fi + 1) <= fi + 1).
  { unfold u16. apply Z.mod_le; lia. }
  set (stf := if sip <? fs + fi * fs then _ else fs) in Hrun.
  set (next := if sip <? fs + fi * fs then _ else _) in Hrun.
  assert (Hstf : 0 <= stf <= fs ∧ 0 <= next
                 ∧ (sip <= next ∨ u16 (fi + 1) * fs <= next)).
  { subst stf next. destruct (Z.ltb_spec sip (fs + fi * fs)).
    - rewrite (u32_small (index + (sip - fi * fs))) by (pow2; lia).
      rewrite u32_small by (pow2; lia).
      lia.
    - rewrite u32_small by (pow2; lia).
      split; [lia|]. split; [lia|]. right. nia. }
  clearbody stf next.
  destruct (AddFragmentToBuffer _ _ _ _) as [st1 chunk_id] eqn:Hadd.
  assert (Hone : adds_full_size cfg st st1).
  { apply (f_equal fst) in Hadd. simpl in Hadd. subst st1.
    eapply adds_full_size_trans;
      [apply (adds_full_size_refl cfg st (count_fragment st)); done|].
    apply adds_full_size_one. unfold full_size. cbn [fst].
    apply length_strax_fragment.
    etrans; [apply length_sub_bytes_le; apply Z.mod_pos_bound; lia|].
    rewrite u32_small by (pow2; lia).
    lia. }
  destruct (fForceQuit cfg).
  - injection Hrun as _ <-. done.
  - eapply adds_full_size_trans; [exact Hone|].
    eapply (IH next (u16 (fi + 1))); [lia|lia|tauto|exact Hrun].
Qed.
End FragmentLoop.

(** A payload that passes the sanity check lies inside the buffer. *)
Lemma no_whoops_bound dp total_words words_in_event event_start_idx i
    channel_words :
  0 <= total_words < 2 ^ 32 → 0 <= channel_words →
  whoops_of dp total_words words_in_event event_start_idx i channel_words
    = false →
  channel_words <= total_words.
Proof.
  intros Htw Hcw Hwhoops. unfold whoops_of in Hwhoops.
  apply orb_false_elim in Hwhoops as [Hscan _].
  destruct (Z.le_gt_cases channel_words total_words) as [|Hgt]; [done|].
  exfalso. apply not_true_iff_false in Hscan. apply Hscan.
  apply existsb_exists.
  pose proof (u32_range i) as Hi.
  destruct (Z.le_gt_cases total_words (u32 i)) as [Hle|Hlt].
  - exists 0. split; [apply list_elem_of_In, elem_of_seqZ; lia|].
    apply orb_true_intro. left. rewrite Z.add_0_r. by apply Z.leb_le.
  - exists (total_words - u32 i).
    split; [apply list_elem_of_In, elem_of_seqZ; lia|].
    apply orb_true_intro. left. apply Z.leb_le.
    unfold u32 in *.
    replace (i + (total_words - i mod 2 ^ 32))
      with (total_words + i / 2 ^ 32 * 2 ^ 32)
      by (pose proof (Z.div_mod i (2 ^ 32) ltac:(lia)); lia).
    rewrite Z.mod_add, Z.mod_small; lia.
Qed.

Lemma channel_header_words_nonneg fmt dp wie esi cie et channel cur
    i cw ct msb bl ccs lts :
  0 <= cie →
  channel_header fmt dp wie esi cie et channel cur
    = Payload i cw ct msb bl ccs lts →
  0 <= cw.
Proof.
  intros Hcie. unfold channel_header.
  destruct (0 <? channel_header_words fmt).
  - destruct (_ <? _); [done|]. destruct (_ <=? u32 _); [done|].
    destruct (_ <=? 2); intros [= _ <- _ _ _ _ _]; apply u32_range.
  - intros [= _ <- _ _ _ _ _]. apply Z_div_nonneg_nonneg; [apply u32_range|done].
Qed.

Lemma popcount_nonneg x : 0 <= popcount x.
Proof. unfold popcount. lia. Qed.

Lemma channel_loop_full_size fuel cfg dp tw wie esi mask et :
  2 <= fFragmentBytes cfg < 2 ^ 16 →
  0 <= tw <= 2 ^ 30 →
  ∀ channels cur st cur' st',
    channel_loop fuel cfg dp tw wie esi mask et channels cur st
      = Done (cur', st') →
    adds_full_size cfg st st'.
Proof.
  intros Hfb Htw channels.
  induction channels as [|channel rest IH]; intros cur st cur' st' Hrun.
  - injection Hrun as _ <-. by apply adds_full_size_refl.
  - cbn [channel_loop] in Hrun.
    destruct (negb _); [by eapply IH|].
    destruct (channel_header _ _ _ _ _ _ _ _)
      as [i|i|i cw ct msb bl ccs lts] eqn:Hhdr.
    + injection Hrun as _ <-. by apply adds_full_size_refl.
    + by eapply IH.
    + apply channel_header_words_nonneg in Hhdr; [|apply popcount_nonneg].
      destruct (whoops_of _ _ _ _ _ _) eqn:Hwhoops.
      * injection Hrun as _ <-. unfold GenerateArtificialDeadtime.
        apply adds_full_size_one, full_size_deadtime. lia.
      * apply no_whoops_bound in Hwhoops;
          [|pow2; lia|done].
        cbn [cl] in Hrun. destruct (_ =? -1); [done|].
        destruct (fragment_loop _ _ _ _ _ _ _ _) as [[smallest st1]| |] eqn:Hloop;
          try done.
        cbn [mbind outcome_bind] in Hrun.
        assert (Hfrag : adds_full_size cfg st st1).
        { eapply (fragment_loop_full_size cfg dp _ Hfb) in Hloop; [done| |lia|lia|].
          - cbn [samples_in_pulse]. rewrite Z.shiftl_mul_pow2 by lia.
            pow2. rewrite u32_small; pow2; lia.
          - right. lia. }
        destruct (fForceQuit cfg).
        -- injection Hrun as _ <-. done.
        -- eapply adds_full_size_trans; [exact Hfrag|]. by eapply IH.
Qed.

Lemma parse_event_full_size fuel cfg dp tw cur st cur' st' go_on :
  2 <= fFragmentBytes cfg < 2 ^ 16 →
  0 <= tw <= 2 ^ 30 →
  parse_event fuel cfg dp tw cur st = Done (cur', st', go_on) →
  adds_full_size cfg st st'.
Proof.
  intros Hfb Htw Hrun. unfold parse_event in Hrun.
  destruct (negb (_ =? 0)).
  - injection Hrun as _ <- _. by apply adds_full_size_refl.
  - destruct (channel_loop _ _ _ _ _ _ _ _ _ _ _) as [[cur1 st1]| |] eqn:Hloop;
      try done.
    cbn in Hrun. injection Hrun as _ <- _.
    apply channel_loop_full_size in Hloop; [|done..].
    eapply adds_full_size_trans; [|exact Hloop].
    by apply adds_full_size_refl.
Qed.

Lemma parse_loop_full_size fuel inner cfg dp tw :
  2 <= fFragmentBytes cfg < 2 ^ 16 →
  0 <= tw <= 2 ^ 30 →
  ∀ cur st cur' st',
    parse_loop fuel inner cfg dp tw cur st = Done (cur', st') →
    adds_full_size cfg st st'.
Proof.
  intros Hfb Htw. induction fuel as [|fuel IH]; intros cur st cur' st' Hrun;
    [done|].
  cbn [parse_loop] in Hrun.
  destruct (_ && _); [|injection Hrun as _ <-; by apply adds_full_size_refl].
  destruct (_ =? 0xA); [|by eapply IH].
  destruct (parse_event _ _ _ _ _ _) as [[[cur1 st1] go_on]| |] eqn:Hevent;
    try done.
  cbn [mbind outcome_bind] in Hrun.
  apply parse_event_full_size in Hevent; [|done..].
  destruct go_on.
  - eapply adds_full_size_trans; [exact Hevent|]. by eapply IH.
  - by injection Hrun as _ <-.
Qed.

Lemma write_loop_emitted cfg s e names :
  ∀ st clear st' clear',
    write_loop cfg s e names st clear = Done (st', clear') →
    emitted st' = emitted st.
Proof.
  induction names as [|name rest IH]; intros st clear st' clear' Hrun.
  - by injection Hrun as <- _.
  - cbn [write_loop] in Hrun. destruct (String.eqb name "");
      [by injection Hrun as <- _|].
    destruct (id_of name) as [i|]; [|done].
    destruct (negb _); [by eapply IH|].
    destruct (persist_bucket_spec cfg name i st) as (st1 & Hst1 & _ & Hem & _).
    rewrite Hst1 in Hrun. cbn [mbind outcome_bind] in Hrun.
    apply IH in Hrun. congruence.
Qed.

Lemma WriteOutFiles_emitted cfg s e st st' :
  WriteOutFiles cfg s e st = Done st' → emitted st' = emitted st.
Proof.
  unfold WriteOutFiles. intros Hrun.
  destruct (write_loop _ _ _ _ _ _) as [[st1 clear]| |] eqn:Hloop; try done.
  cbn [mbind outcome_bind] in Hrun. injection Hrun as <-.
  apply write_loop_emitted in Hloop. by destruct e.
Qed.

(** *** The loop bound of the model *)

Section FragmentLoopFuel.
Context (cfg : Config) (dp : data_packet) (p : Pulse).

Let fs := Z.shiftr (fFragmentBytes cfg) 1.
Let sip := samples_in_pulse p.

Hypothesis payload_range : 2 <= fFragmentBytes cfg < 2 ^ 16.
Hypothesis sip_range : 0 <= sip <= 2 ^ 31.

(** Every turn of the fragment loop moves at least one sample on, so as
    many turns as there are samples left are enough. *)
Lemma fragment_loop_returns fuel :
  ∀ index fi smallest st,
    0 <= index → 0 <= fi < 2 ^ 16 →
    sip <= index ∨ fi * fs <= index →
    Z.max 0 (sip - index) < Z.of_nat fuel →
    ∃ r, fragment_loop fuel cfg dp p index fi smallest st = Done r.
Proof.
  pose proof (fs_range cfg p payload_range) as (Hfs & Hfb). fold fs in Hfs, Hfb.
  induction fuel as [|fuel IH]; intros index fi smallest st Hindex Hfi Hinv Hfuel.
  - lia.
  - cbn [fragment_loop]. fold fs sip.
    destruct (Z.ltb_spec index sip) as [Hlt|Hge]; [|by eexists].
    destruct Hinv as [?|Hinv]; [lia|].
    assert (Hfifs : 0 <= fi * fs < 2 ^ 31) by (pow2; nia).
    rewrite (u32_small (fs + fi * fs)) by (pow2; lia).
    rewrite (u32_small (sip - fi * fs)) by (pow2; lia).
    rewrite (u32_small fs) by (pow2; lia).
    assert (Hu16 : 0 <= u16 (fi + 1) < 2 ^ 16) by (apply Z.mod_pos_bound; lia).
    assert (Hu16le : u16 (fi + 1) <= fi + 1).
    { unfold u16. apply Z.mod_le; lia. }
    set (stf := if sip <? fs + fi * fs then _ else fs).
    set (next := if sip <? fs + fi * fs then _ else _).
    assert (Hnext : index < next
                    ∧ (sip <= next ∨ u16 (fi + 1) * fs <= next)).
    { subst stf next. destruct (Z.ltb_spec sip (fs + fi * fs)).
      - rewrite (u32_small (index + (sip - fi * fs))) by (pow2; lia). lia.
      - rewrite u32_small by (pow2; lia). split; [lia|]. right. nia. }
    clearbody stf next.
    destruct (AddFragmentToBuffer _ _ _ _) as [st1 chunk_id].
    destruct (fForceQuit cfg); [by eexists|].
    apply IH; [lia|lia|tauto|lia].
Qed.
End FragmentLoopFuel.

(** A payload that passes the sanity check ends inside the buffer. *)
Lemma no_whoops_inside dp total_words words_in_event event_start_idx i
    channel_words :
  0 <= total_words < 2 ^ 32 → 0 <= i < 2 ^ 32 → 0 < channel_words →
  whoops_of dp total_words words_in_event event_start_idx i channel_words
    = false →
  i + channel_words <= total_words.
Proof.
  intros Htw Hi Hcw Hwhoops. unfold whoops_of in Hwhoops.
  apply orb_false_elim in Hwhoops as [Hscan _].
  destruct (Z.le_gt_cases (i + channel_words) total_words) as [|Hgt]; [done|].
  exfalso. apply not_true_iff_false in Hscan. apply Hscan.
  apply existsb_exists.
  destruct (Z.le_gt_cases total_words i) as [Hle|Hlt].
  - exists 0. split; [apply list_elem_of_In, elem_of_seqZ; lia|].
    apply orb_true_intro. left. rewrite Z.add_0_r, u32_small by done.
    by apply Z.leb_le.
  - exists (total_words - i).
    split; [apply list_elem_of_In, elem_of_seqZ; lia|].
    apply orb_true_intro. left. apply Z.leb_le.
    rewrite u32_small; lia.
Qed.

(** The head of the channel loop body moves the cursor forward by at most
    the channel header. *)
Lemma channel_header_cursor fmt dp wie esi cie et channel cur :
  0 <= channel_header_words fmt < 2 ^ 16 → 0 <= cie →
  0 <= idx cur → idx cur + channel_header_words fmt < 2 ^ 32 →
  match channel_header fmt dp wie esi cie et channel cur with
  | Garbled i | Empty i =>
      idx cur <= i <= idx cur + channel_header_words fmt
  | Payload i cw _ _ _ _ _ =>
      idx cur <= i <= idx cur + channel_header_words fmt ∧ 0 <= cw
  end.
Proof.
  intros Hchw Hcie Hidx Hfit. unfold channel_header.
  assert (Hu : u32 (idx cur + channel_header_words fmt)
               = idx cur + channel_header_words fmt)
    by (apply u32_small; lia).
  destruct (Z.ltb_spec 0 (channel_header_words fmt)).
  - set (cw0 := Z.min _ _).
    destruct (Z.ltb_spec cw0 (Z.land (word dp (idx cur)) 0x7FFFFF));
      [rewrite Hu; lia|].
    rewrite (u32_small (channel_header_words fmt)) by (pow2; lia).
    assert (Hcw0 : 0 <= cw0).
    { subst cw0. apply Z.min_glb; [|apply u32_range].
      apply Z.land_nonneg. right. lia. }
    destruct (Z.leb_spec cw0 (channel_header_words fmt)).
    + rewrite (u32_small (channel_header_words fmt - cw0)) by (pow2; lia).
      rewrite u32_small; lia.
    + destruct (_ <=? 2); rewrite Hu; (split; [lia|apply u32_range]).
  - split; [lia|]. apply Z_div_nonneg_nonneg; [apply u32_range|done].
Qed.

Lemma channel_loop_progress fuel cfg dp tw wie esi mask et :
  let chw := channel_header_words (fFmt cfg (bid dp)) in
  2 <= fFragmentBytes cfg < 2 ^ 16 →
  0 <= tw <= 2 ^ 30 →
  0 <= chw < 2 ^ 16 →
  2 * tw < Z.of_nat fuel →
  ∀ channels cur st,
    (length channels <= 16)%nat →
    0 <= idx cur →
    idx cur + Z.of_nat (length channels) * chw <= tw + 4 + 16 * chw →
    returned (channel_loop fuel cfg dp tw wie esi mask et channels cur st)
    ∧ ∀ cur' st',
        channel_loop fuel cfg dp tw wie esi mask et channels cur st
          = Done (cur', st') →
        idx cur <= idx cur' <= tw + 4 + 16 * chw.
Proof.
  intros chw Hfb Htw Hchw Hfuel channels.
  induction channels as [|channel rest IH]; intros cur st Hlen Hidx Hbound.
  - split; [done|]. intros cur' st' [= <- _]. simpl in Hbound. lia.
  - cbn [channel_loop]. cbn [length] in Hlen, Hbound.
    assert (Hrest : idx cur + Z.of_nat (length rest) * chw
                    <= tw + 4 + 16 * chw) by nia.
    destruct (negb _); [apply IH; [lia|done..]|].
    pose proof (channel_header_cursor (fFmt cfg (bid dp)) dp wie esi
                  (popcount mask) et channel cur Hchw (popcount_nonneg mask)
                  Hidx ltac:(fold chw; pow2; nia)) as Hhdr.
    fold chw in Hhdr.
    destruct (channel_header _ _ _ _ _ _ _ _)
      as [i|i|i cw ct msb bl ccs lts].
    + split; [done|]. intros cur' st' [= <- _]. simpl. nia.
    + destruct (IH (set_idx i cur) st) as [Hret Hdone];
        [lia|simpl; lia|simpl; nia|].
      split; [done|]. intros cur' st' Hrun.
      apply Hdone in Hrun. simpl in Hrun. lia.
    + destruct Hhdr as [Hi Hcw].
      destruct (whoops_of _ _ _ _ _ _) eqn:Hwhoops.
      { split; [done|]. intros cur' st' [= <- _]. simpl. nia. }
      assert (Hend : cw = 0 ∨ i + cw <= tw).
      { destruct (Z.eq_dec cw 0); [by left|]. right.
        eapply no_whoops_inside; [| | |exact Hwhoops]; pow2; nia. }
      assert (Hu : u32 (i + cw) = i + cw) by (apply u32_small; pow2; nia).
      cbn [cl smallest_latest_index_seen]. destruct (_ =? -1); [done|].
      destruct (fragment_loop_returns cfg dp
                  {| pulse_time := Time64 (fFmt cfg (bid dp)) (get ccs channel)
                                     msb ct;
                     samples_in_pulse := u32 (Z.shiftl cw 1);
                     offset := u32 (Z.shiftl i 1);
                     sw := u16 (ns_per_sample (fFmt cfg (bid dp)));
                     cl := i16 (GetChannel cfg (bid dp) (Z.of_nat channel));
                     baseline := bl |} Hfb) with
        (fuel := fuel) (index := 0) (fi := 0)
        (smallest := smallest_latest_index_seen cur) (st := st)
        as [[smallest st1] ->].
      { cbn [samples_in_pulse]. rewrite Z.shiftl_mul_pow2 by lia.
        rewrite u32_small by (pow2; lia). pow2. lia. }
      { lia. } { lia. } { right. lia. }
      { cbn [samples_in_pulse]. rewrite Z.shiftl_mul_pow2 by lia.
        rewrite u32_small by (pow2; lia). lia. }
      cbn [mbind outcome_bind]. rewrite Hu.
      destruct (fForceQuit cfg).
      { split; [done|]. intros cur' st' [= <- _]. simpl. nia. }
      destruct (IH (set_smallest smallest
                      (set_idx (i + cw)
                         {| idx := i; clock_counters := ccs;
                            last_times_seen := lts;
                            smallest_latest_index_seen :=
                              smallest_latest_index_seen cur |})) st1)
        as [Hret Hdone]; [lia|simpl; lia|simpl; nia|].
      split; [done|]. intros cur' st' Hrun.
      apply Hdone in Hrun. simpl in Hrun. lia.
Qed.

Lemma parse_event_progress fuel cfg dp tw cur st :
  let chw := channel_header_words (fFmt cfg (bid dp)) in
  2 <= fFragmentBytes cfg < 2 ^ 16 →
  0 <= tw <= 2 ^ 30 →
  0 <= chw < 2 ^ 16 →
  2 * tw < Z.of_nat fuel →
  0 <= idx cur < tw →
  returned (parse_event fuel cfg dp tw cur st)
  ∧ ∀ cur' st' go_on,
      parse_event fuel cfg dp tw cur st = Done (cur', st', go_on) →
      idx cur < idx cur'.
Proof.
  intros chw Hfb Htw Hchw Hfuel Hidx. unfold parse_event.
  assert (Hu : u32 (idx cur + event_header_words) = idx cur + 4)
    by (apply u32_small; unfold event_header_words; pow2; lia).
  rewrite Hu. destruct (negb (_ =? 0)).
  - split; [done|]. intros cur' st' go_on [= <- _ _]. simpl. lia.
  - destruct (channel_loop_progress fuel cfg dp tw
                (Z.min (Z.land (word dp (idx cur)) 0xFFFFFFF)
                   (u32 (tw - idx cur)))
                (idx cur)
                (if negb (channel_mask_msb_idx (fFmt cfg (bid dp)) =? -1)
                 then Z.lor
                        (Z.shiftl
                           (Z.land
                              (Z.shiftr (word dp (u32 (idx cur + 2))) 24)
                              0xFF) 8)
                        (Z.land (word dp (u32 (idx cur + 1))) 0xFF)
                 else Z.land (word dp (u32 (idx cur + 1))) 0xFF)
                (Z.land (word dp (u32 (idx cur + 3))) 0xFFFFFFFF)
                Hfb Htw Hchw Hfuel (seq 0 max_channels)
                (set_idx (idx cur + 4) cur) (count_event st))
      as [Hret Hdone]; [simpl; lia|simpl; lia|simpl; fold chw; lia|].
    destruct (channel_loop _ _ _ _ _ _ _ _ _ _ _) as [[cur1 st1]| |];
      [|done|done].
    split; [done|]. intros cur' st' go_on [= <- _ _].
    specialize (Hdone _ _ eq_refl). simpl in Hdone. lia.
Qed.

Lemma parse_loop_returns fuel inner cfg dp tw :
  let chw := channel_header_words (fFmt cfg (bid dp)) in
  2 <= fFragmentBytes cfg < 2 ^ 16 →
  0 <= tw <= 2 ^ 30 →
  0 <= chw < 2 ^ 16 →
  2 * tw < Z.of_nat inner →
  ∀ cur st,
    0 <= idx cur →
    Z.max 0 (tw - idx cur) < Z.of_nat fuel →
    returned (parse_loop fuel inner cfg dp tw cur st).
Proof.
  intros chw Hfb Htw Hchw Hinner.
  induction fuel as [|fuel IH]; intros cur st Hidx Hfuel; [lia|].
  cbn [parse_loop].
  destruct (Z.ltb_spec (idx cur) tw) as [Hlt|Hge]; [|done].
  destruct (negb _); [|done]. cbn [andb].
  destruct (_ =? 0xA).
  - destruct (parse_event_progress inner cfg dp tw cur st Hfb Htw Hchw Hinner)
      as [Hret Hdone]; [lia|].
    destruct (parse_event _ _ _ _ _ _) as [[[cur1 st1] go_on]| |];
      [|done|done].
    cbn [mbind outcome_bind]. specialize (Hdone _ _ _ eq_refl).
    destruct go_on; [|done]. apply IH; lia.
  - apply IH; simpl; rewrite u32_small by (pow2; lia); lia.
Qed.

Lemma write_loop_returns cfg s e names :
  ∀ st clear, returned (write_loop cfg s e names st clear).
Proof.
  induction names as [|name rest IH]; intros st clear; [done|].
  cbn [write_loop]. destruct (String.eqb name ""); [done|].
  destruct (id_of name) as [i|]; [|done].
  destruct (negb _); [apply IH|].
  destruct (persist_bucket_spec cfg name i st) as (st1 & -> & _).
  apply IH.
Qed.

Lemma WriteOutFiles_returns cfg s e st : returned (WriteOutFiles cfg s e st).
Proof.
  unfold WriteOutFiles.
  pose proof (write_loop_returns cfg s e (bucket_names (fFragments st)) st [])
    as Hret.
  by destruct (write_loop _ _ _ _ _ _) as [[st1 clear]| |].
Qed.

(** X1. [ParseDocuments] returns or throws: for a payload of at least two
    bytes and a channel header of sane size, the loop bound of the model is
    never what ends a run once it exceeds the number of 16-bit samples in
    the packet. *)
Lemma ParseDocuments_returns fuel cfg dp st :
  2 <= fFragmentBytes cfg < 2 ^ 16 →
  0 <= channel_header_words (fFmt cfg (bid dp)) < 2 ^ 16 →
  2 * (u32 (size dp) / 4) < Z.of_nat fuel →
  returned (ParseDocuments fuel cfg dp st).
Proof.
  intros Hfb Hchw Hfuel. unfold ParseDocuments.
  assert (Htw : 0 <= u32 (size dp) / 4 <= 2 ^ 30).
  { pose proof (u32_range (size dp)) as Hsize. pow2.
    split; [apply Z.div_pos; lia|].
    apply Z.lt_le_incl, Z.div_lt_upper_bound; lia. }
  set (cur := {| idx := 0; clock_counters := _ |}).
  pose proof (parse_loop_returns fuel fuel cfg dp (u32 (size dp) / 4)
                Hfb Htw Hchw Hfuel cur st) as Hret.
  destruct (parse_loop _ _ _ _ _ _ _) as [[cur1 st1]| |];
    [|done|apply Hret; simpl; lia].
  cbn [mbind outcome_bind]. destruct (negb _); [|done].
  pose proof (WriteOutFiles_returns cfg (smallest_latest_index_seen cur1)
                false st1) as Hw.
  by destruct (WriteOutFiles _ _ _ _).
Qed.

Lemma ParseDocuments_returns_witness :
  returned (ParseDocuments 17 (example_cfg dpp_daw) dpp_daw_packet fresh).
Proof.
  apply (ParseDocuments_returns 17 (example_cfg dpp_daw) dpp_daw_packet fresh);
    [by vm_compute|by vm_compute|].
  change (u32 (size dpp_daw_packet) / 4) with 8. lia.
Defined.

(** C6. With a payload of at least two bytes, every fragment a call of
    [ParseDocuments] hands to the router, waveform fragment or artificial
    dead time, has exactly [header_size + payload_bytes] bytes. So has the
    dead-time fragment on its own; and the serializer fills up with zero
    bytes behind the sample bytes. (By [ParseDocuments_returns] a call
    does return or throw.) *)
Theorem every_fragment_has_full_size cfg :
  2 <= fFragmentBytes cfg < 2 ^ 16 →
  (∀ fuel dp st st',
     ParseDocuments fuel cfg dp st = Done st' →
     ∃ fragments,
       emitted st' = emitted st ++ fragments
       ∧ Forall (λ ft, Z.of_nat (length ft.1)
                       = fStraxHeaderSize + fFragmentBytes cfg) fragments)
  ∧ (∀ timestamp bid,
       Z.of_nat (length (deadtime_fragment cfg timestamp bid))
       = fStraxHeaderSize + fFragmentBytes cfg)
  ∧ (∀ t stf w c sip fi bl data,
       Z.of_nat (length data) <= fFragmentBytes cfg →
       let fragment := strax_fragment cfg t stf w c sip fi bl data in
       Z.of_nat (length fragment) = fStraxHeaderSize + fFragmentBytes cfg
       ∧ ∀ i : nat, (24 + length data <= i < length fragment)%nat →
                    fragment !! i = Some 0).
Proof.
  intros Hfb. split; [|split].
  - intros fuel dp st st' Hrun. unfold ParseDocuments in Hrun.
    destruct (parse_loop _ _ _ _ _ _ _) as [[cur1 st1]| |] eqn:Hloop; try done.
    cbn [mbind outcome_bind] in Hrun.
    apply parse_loop_full_size in Hloop; [|done|].
    2:{ pose proof (u32_range (size dp)) as Hsize.
        pow2. split; [apply Z.div_pos; lia|].
        apply Z.lt_le_incl, Z.div_lt_upper_bound; lia. }
    assert (Hflush : ∃ st2, emitted st2 = emitted st1
                            ∧ st' = count_bytes (size dp) st2).
    { destruct (negb _).
      - destruct (WriteOutFiles _ _ _ _) as [st2| |] eqn:Hw; try done.
        cbn in Hrun. injection Hrun as <-. exists st2.
        split; [by eapply WriteOutFiles_emitted|done].
      - cbn in Hrun. injection Hrun as <-. by exists st1. }
    destruct Hflush as (st2 & Hem & ->).
    destruct Hloop as (fragments & Hnew & Hsized). exists fragments.
    split; [|done]. cbn. by rewrite Hem.
  - intros timestamp bid.
    apply (full_size_deadtime cfg timestamp bid). lia.
  - intros t stf w c sip fi bl data Hdata fragment.
    split; [by apply length_strax_fragment|].
    intros i Hi. by apply strax_fragment_padding.
Qed.

(** C6 at a packet whose payload holds a stray header word: one waveform
    is lost and replaced by an artificial dead-time fragment. *)
Lemma every_fragment_has_full_size_witness :
  let cfg := example_cfg default_firmware in
  ∃ st' fragments,
    ParseDocuments 12 cfg caened_packet fresh = Done st'
    ∧ emitted st' = emitted fresh ++ fragments
    ∧ length fragments = 1%nat
    ∧ Forall (λ ft, Z.of_nat (length ft.1) = 24 + 220) fragments.
Proof.
  intros cfg.
  destruct (every_fragment_has_full_size cfg) as [Hparse _]; [by vm_compute|].
  assert (Hrun : ∃ st', ParseDocuments 12 cfg caened_packet fresh = Done st')
    by (eexists; by vm_compute).
  destruct Hrun as [st' Hrun].
  destruct (Hparse _ _ _ _ Hrun) as (fragments & Hem & Hsized).
  exists st', fragments. split; [done|]. split; [done|]. split; [|done].
  apply (f_equal length) in Hem. rewrite length_app in Hem.
  assert (Hone : length (emitted st') = 1%nat).
  { revert Hrun. clear. intros Hrun. vm_compute in Hrun.
    by injection Hrun as <-. }
  simpl in Hem. lia.
Defined.

(** * Further properties *)

(** ** Chunk names *)

(** X2. Below a million a chunk id and its name determine each other: the
    name has six characters, the writer reads the id back from the first
    six characters of a bucket name whatever follows them, and different
    ids have different names. *)
Theorem chunk_name_reads_back c d (suffix : string) :
  0 <= c < 1000000 → 0 <= d < 1000000 →
  String.length (GetStringFormat c) = 6%nat
  ∧ id_of (GetStringFormat c +:+ suffix) = Some c
  ∧ (GetStringFormat c = GetStringFormat d → c = d).
Proof.
  intros Hc Hd. split; [by apply length_GetStringFormat|].
  split; [by apply id_of_GetStringFormat|]. by apply GetStringFormat_inj.
Qed.

Lemma chunk_name_reads_back_witness :
  String.length (GetStringFormat 42) = 6%nat
  ∧ id_of (GetStringFormat 42 +:+ "_pre") = Some 42
  ∧ (GetStringFormat 42 = GetStringFormat 7 → 42 = 7).
Proof. apply (chunk_name_reads_back 42 7 "_pre"); lia. Defined.

(** ** Names beyond six digits *)

Lemma fixed_width_acc k :
  ∀ n acc, fixed_width k n acc = fixed_width k n "" +:+ acc.
Proof.
  induction k as [|k IH]; intros n acc; [done|].
  cbn [fixed_width]. rewrite IH, (IH _ (String _ "")).
  by rewrite string_app_assoc.
Qed.

Lemma fixed_width_split (j k : nat) :
  ∀ n acc, 0 <= n →
    fixed_width (j + k) n acc
    = fixed_width j (n / 10 ^ Z.of_nat k) (fixed_width k n acc).
Proof.
  induction k as [|k IH]; intros n acc Hn.
  - rewrite Nat.add_0_r. simpl. by rewrite Z.div_1_r.
  - rewrite Nat.add_succ_r. cbn [fixed_width].
    rewrite IH by (apply Z.div_pos; lia).
    rewrite Z.div_div by lia.
    by rewrite Nat2Z.inj_succ, Z.pow_succ_r by lia.
Qed.

Lemma digit_count_unique (j k : nat) n :
  (1 <= j)%nat → (1 <= k)%nat →
  10 ^ (Z.of_nat j - 1) <= n < 10 ^ Z.of_nat j →
  10 ^ (Z.of_nat k - 1) <= n < 10 ^ Z.of_nat k →
  j = k.
Proof.
  intros Hj Hk [Hj0 Hj1] [Hk0 Hk1].
  destruct (Nat.lt_trichotomy j k) as [Hlt|[->|Hlt]]; [|done|].
  - assert (10 ^ Z.of_nat j <= 10 ^ (Z.of_nat k - 1))
      by (apply Z.pow_le_mono_r; lia). lia.
  - assert (10 ^ Z.of_nat k <= 10 ^ (Z.of_nat j - 1))
      by (apply Z.pow_le_mono_r; lia). lia.
Qed.

Lemma GetStringFormat_long (k : nat) id :
  (6 <= k)%nat → 10 ^ (Z.of_nat k - 1) <= id < 10 ^ Z.of_nat k →
  id < 2 ^ 31 →
  GetStringFormat id = fixed_width k id "".
Proof.
  intros Hk Hid H31.
  assert (0 < 10 ^ (Z.of_nat k - 1)) by (apply Z.pow_pos_nonneg; lia).
  unfold GetStringFormat, to_string.
  destruct (Z.ltb_spec id 0); [lia|].
  destruct (digits_of_fixed_width 9 id "") as (j & Hj & Hlt & Hmin & ->).
  { change (10 ^ Z.of_nat 10) with 10000000000. lia. }
  assert (j = k) as ->.
  { destruct Hmin as [->|Hmin].
    - assert (10 ^ 5 <= 10 ^ (Z.of_nat k - 1))
        by (apply Z.pow_le_mono_r; lia).
      change (10 ^ Z.of_nat 1) with 10 in Hlt. lia.
    - apply (digit_count_unique j k id); lia. }
  unfold pad_zeros, fChunkNameLength. rewrite length_fixed_width.
  simpl String.length. by replace (6 - (k + 0))%nat with 0%nat by lia.
Qed.

(** X3. From a million on the name outgrows the six characters the writer
    reads: the name of a chunk id of [k >= 6] digits has [k] characters,
    and the writer takes the bucket for chunk [id / 10^(k-6)]. *)
Theorem long_chunk_name_reads_back_truncated (k : nat) id (suffix : string) :
  (6 <= k)%nat → 10 ^ (Z.of_nat k - 1) <= id < 10 ^ Z.of_nat k →
  id < 2 ^ 31 →
  String.length (GetStringFormat id) = k
  ∧ id_of (GetStringFormat id +:+ suffix)
    = Some (id / 10 ^ (Z.of_nat k - 6)).
Proof.
  intros Hk Hid H31.
  assert (0 < 10 ^ (Z.of_nat k - 1)) by (apply Z.pow_pos_nonneg; lia).
  rewrite (GetStringFormat_long k) by done.
  split; [rewrite length_fixed_width; simpl; lia|].
  replace k with (6 + (k - 6))%nat at 1 by lia.
  rewrite fixed_width_split, fixed_width_acc by lia.
  replace (Z.of_nat (k - 6)) with (Z.of_nat k - 6) by lia.
  set (m := id / 10 ^ (Z.of_nat k - 6)).
  assert (Hm : 0 <= m < 1000000).
  { assert (0 < 10 ^ (Z.of_nat k - 6)) by (apply Z.pow_pos_nonneg; lia).
    subst m. split; [apply Z.div_pos; lia|].
    apply Z.div_lt_upper_bound; [done|].
    change 1000000 with (10 ^ 6). rewrite <- Z.pow_add_r by lia.
    replace (Z.of_nat k - 6 + 6) with (Z.of_nat k) by lia. lia. }
  unfold id_of, fChunkNameLength.
  rewrite string_app_assoc.
  replace 6%nat with (String.length (fixed_width 6 m "")) at 1
    by (by rewrite length_fixed_width).
  rewrite substring_prefix. by apply stoi_fixed_width_6.
Qed.

Lemma long_chunk_name_reads_back_truncated_witness :
  String.length (GetStringFormat 1234567) = 7%nat
  ∧ id_of (GetStringFormat 1234567 +:+ "_post") = Some (1234567 / 10 ^ (7 - 6)).
Proof.
  apply (long_chunk_name_reads_back_truncated 7 1234567 "_post");
    [lia|by vm_compute|by vm_compute].
Defined.

(** ** The overlap band *)

(** X4. The overlap band is the tail of a full chunk: a fragment at
    [t >= 0] goes to the [_pre] and [_post] buckets exactly when
    [t mod (chunk length + overlap)] exceeds the chunk length. *)
Theorem overlap_band_is_chunk_tail cfg timestamp :
  0 < fFullChunkLength cfg → 0 <= timestamp →
  timestamp / fFullChunkLength cfg < 2 ^ 31 →
  nextpre_of cfg timestamp = true
  ↔ fChunkLength cfg < timestamp mod fFullChunkLength cfg.
Proof.
  intros Hfull Ht Hc. unfold nextpre_of.
  rewrite chunk_of_nonneg by done. rewrite Z.ltb_lt.
  pose proof (Z.div_mod timestamp (fFullChunkLength cfg) ltac:(lia)) as Hdm.
  unfold fFullChunkLength in *. nia.
Qed.

Lemma overlap_band_is_chunk_tail_witness :
  nextpre_of (example_cfg dpp_daw) 5000000001 = true
  ↔ fChunkLength (example_cfg dpp_daw)
    < 5000000001 mod fFullChunkLength (example_cfg dpp_daw).
Proof.
  apply (overlap_band_is_chunk_tail (example_cfg dpp_daw) 5000000001);
    by vm_compute.
Defined.

(** ** The names the router makes *)

(** X5. The router only makes names the writer and the gap filler know: a
    bucket that is in memory after [AddFragmentToBuffer] at a time [t >= 0]
    with a chunk id below 999999 was there before, or it is one of the
    destinations of [t], whose name is six digits with at most a [_pre] or
    [_post] behind them. It is never [000000_pre], the one directory the
    gap filler leaves out. *)
Theorem router_makes_only_router_names cfg fragment timestamp st name :
  0 < fFullChunkLength cfg → routable cfg timestamp →
  is_Some (fFragments (AddFragmentToBuffer cfg fragment timestamp st).1 !! name) →
  is_Some (fFragments st !! name)
  ∨ (name ∈ destinations cfg timestamp
     ∧ router_key name = true
     ∧ name ≠ GetStringFormat 0 +:+ "_pre").
Proof.
  intros Hfull Hroutable Hin.
  destruct (AddFragmentToBuffer_buckets cfg fragment timestamp st)
    as (Hfr & _ & _).
  rewrite Hfr in Hin. apply foldl_bucket_append_inv in Hin as [Hin|Hin];
    [right|by left].
  split; [done|].
  split; [by apply (destinations_router_keys cfg timestamp)|].
  destruct Hroutable as [Ht Hc]. unfold destinations in Hin.
  rewrite chunk_of_nonneg in Hin by lia.
  set (c := timestamp / fFullChunkLength cfg) in *.
  assert (0 <= c) by (apply Z.div_pos; lia).
  destruct (nextpre_of cfg timestamp).
  - apply elem_of_cons in Hin as [->|Hin].
    + intros Heq. apply string_app_inj_2 in Heq as [Heq _]; [|done].
      apply GetStringFormat_inj in Heq; lia.
    + apply list_elem_of_singleton in Hin as ->.
      intros Heq. symmetry in Heq. by apply pre_is_not_post in Heq.
  - apply list_elem_of_singleton in Hin as ->.
    apply primary_is_not_suffixed; [lia|lia|done].
Qed.

Lemma router_makes_only_router_names_witness :
  let cfg := example_cfg dpp_daw in
  let name := "000001_pre"%string in
  is_Some (fFragments fresh !! name)
  ∨ (name ∈ destinations cfg 5000000001
     ∧ router_key name = true
     ∧ name ≠ GetStringFormat 0 +:+ "_pre").
Proof.
  intros cfg name.
  apply (router_makes_only_router_names cfg [1] 5000000001 fresh name).
  - by vm_compute.
  - by vm_compute.
  - exists [1]. by vm_compute.
Defined.

(** ** The size counter *)

Lemma buffered_bytes_delete (m : gmap string (list Z)) name :
  buffered_bytes (delete name m) = buffered_bytes m - bucket_size m name.
Proof.
  unfold buffered_bytes, bucket_size.
  destruct (m !! name) as [buffer|] eqn:Hname.
  - rewrite (map_fold_delete_L _ 0 name buffer m); [simpl; lia| |done].
    intros. lia.
  - rewrite delete_id by done. simpl. lia.
Qed.

Lemma buffered_bytes_insert (m : gmap string (list Z)) name buffer :
  buffered_bytes (<[name := buffer]> m)
  = buffered_bytes m - bucket_size m name + Z.of_nat (length buffer).
Proof.
  rewrite <- insert_delete_eq. unfold buffered_bytes at 1.
  rewrite map_fold_insert_L; [|intros; lia|apply lookup_delete_eq].
  fold (buffered_bytes (delete name m)). rewrite buffered_bytes_delete. lia.
Qed.

Lemma buffered_bytes_append (m : gmap string (list Z)) name fragment :
  buffered_bytes (bucket_append name fragment m)
  = buffered_bytes m + Z.of_nat (length fragment).
Proof.
  unfold bucket_append. rewrite buffered_bytes_insert. unfold bucket_size.
  rewrite length_app. lia.
Qed.

Lemma overlap_bytes_snoc cfg log fragment timestamp :
  overlap_bytes cfg (log ++ [(fragment, timestamp)])
  = overlap_bytes cfg log
    + (if nextpre_of cfg timestamp then Z.of_nat (length fragment) else 0).
Proof.
  unfold overlap_bytes. induction log as [|[f t] log IH]; cbn [foldr app].
  - cbn. destruct (nextpre_of cfg timestamp); lia.
  - rewrite IH. cbn [fst snd].
    destruct (nextpre_of cfg t), (nextpre_of cfg timestamp); lia.
Qed.

Lemma size_AddFragmentToBuffer cfg fragment timestamp st :
  fFragmentSize (AddFragmentToBuffer cfg fragment timestamp st).1
  = fFragmentSize st + Z.of_nat (length fragment).
Proof. unfold AddFragmentToBuffer. by destruct (negb _). Qed.

Lemma size_counter_route cfg fragment timestamp st :
  let st' := (AddFragmentToBuffer cfg fragment timestamp st).1 in
  buffered_bytes (fFragments st') - fFragmentSize st'
    - overlap_bytes cfg (emitted st')
  = buffered_bytes (fFragments st) - fFragmentSize st
    - overlap_bytes cfg (emitted st).
Proof.
  intros st'. subst st'.
  destruct (AddFragmentToBuffer_buckets cfg fragment timestamp st)
    as (-> & _ & _).
  rewrite emitted_AddFragmentToBuffer, overlap_bytes_snoc,
    size_AddFragmentToBuffer.
  unfold destinations.
  destruct (nextpre_of cfg timestamp); cbn [foldl];
    rewrite !buffered_bytes_append; lia.
Qed.

Lemma persist_bucket_size cfg name i st st' :
  persist_bucket cfg name i st = Done st' →
  fFragmentSize st' = fFragmentSize st - bucket_size (fFragments st) name
  ∧ fFragments st' = fFragments st
  ∧ emitted st' = emitted st.
Proof.
  unfold persist_bucket. destruct (rename _ _ _); [|done].
  by intros [= <-].
Qed.

Lemma write_loop_size cfg s e names :
  ∀ st clear st' clear',
    write_loop cfg s e names st clear = Done (st', clear') →
    ∃ written,
      clear' = clear ++ written
      ∧ written `sublist_of` names
      ∧ Forall (λ name, selected s e name = true) written
      ∧ fFragments st' = fFragments st
      ∧ emitted st' = emitted st
      ∧ fFragmentSize st'
        = fFragmentSize st
          - foldr (λ name total, total + bucket_size (fFragments st) name) 0
              written.
Proof.
  induction names as [|name rest IH]; intros st clear st' clear' Hrun.
  - injection Hrun as <- <-. exists []. rewrite app_nil_r. simpl.
    do 3 (split; [done|]). split; [done|]. split; [done|lia].
  - cbn [write_loop] in Hrun. destruct (String.eqb name "").
    { injection Hrun as <- <-. exists []. rewrite app_nil_r. simpl.
      split; [done|]. split; [apply sublist_nil_l|].
      split; [done|]. split; [done|]. split; [done|lia]. }
    destruct (id_of name) as [i|] eqn:Hid; [|done].
    destruct (negb _) eqn:Hsel.
    + apply IH in Hrun as (written & -> & Hsub & Hall & Hfr & Hem & Hsize).
      exists written. split; [done|]. split; [by apply sublist_cons|done].
    + destruct (persist_bucket cfg name i st) as [st1| |] eqn:Hp; [|done..].
      cbn [mbind outcome_bind] in Hrun.
      apply persist_bucket_size in Hp as (Hs1 & Hf1 & He1).
      apply IH in Hrun as (written & -> & Hsub & Hall & Hfr & Hem & Hsize).
      exists (name :: written). rewrite <- app_assoc. simpl.
      split; [done|]. split; [by apply sublist_skip|].
      split; [apply Forall_cons; split; [|done];
              unfold selected; rewrite Hid; by apply negb_false_iff|].
      split; [congruence|]. split; [congruence|].
      rewrite Hsize, Hs1, Hf1. lia.
Qed.

Lemma buffered_bytes_foldl_delete (written : list string) :
  ∀ m : gmap string (list Z), NoDup written →
    buffered_bytes (foldl (λ m s, delete s m) m written)
    = buffered_bytes m
      - foldr (λ name total, total + bucket_size m name) 0 written.
Proof.
  induction written as [|name written IH]; intros m Hnd; simpl; [lia|].
  apply NoDup_cons in Hnd as [Hnot Hnd].
  rewrite IH, buffered_bytes_delete by done.
  assert (Hsame : foldr (λ k total, total + bucket_size (delete name m) k)
                    0 written
                  = foldr (λ k total, total + bucket_size m k) 0 written).
  { clear IH Hnd. induction written as [|k written IH]; [done|]. simpl.
    rewrite not_elem_of_cons in Hnot. destruct Hnot as [Hne Hnot].
    rewrite IH by done. f_equal. unfold bucket_size.
    by rewrite lookup_delete_ne. }
  rewrite Hsame. lia.
Qed.

Lemma size_counter_flush cfg s st st' :
  WriteOutFiles cfg s false st = Done st' →
  buffered_bytes (fFragments st') - fFragmentSize st'
    - overlap_bytes cfg (emitted st')
  = buffered_bytes (fFragments st) - fFragmentSize st
    - overlap_bytes cfg (emitted st).
Proof.
  unfold WriteOutFiles.
  destruct (write_loop _ _ _ _ _ _) as [[st1 clear]| |] eqn:Hloop; [|done..].
  cbn [mbind outcome_bind]. intros [= <-].
  apply write_loop_size in Hloop
    as (written & -> & Hsub & _ & Hfr & Hem & Hsize).
  cbn [set_fragments fFragments fFragmentSize emitted app].
  rewrite Hfr, Hem, Hsize, buffered_bytes_foldl_delete; [lia|].
  eapply sublist_NoDup; [apply NoDup_bucket_names|exact Hsub].
Qed.

(** X6. While a worker routes fragments and flushes (without the end flag),
    [fFragmentSize] lags behind the bytes actually held in the buckets by
    the bytes of all fragments routed into the overlap band so far: such a
    fragment is stored twice and counted once. *)
Theorem size_counter_misses_overlap cfg steps st :
  run cfg steps fresh = Done st →
  fFragmentSize st
  = buffered_bytes (fFragments st) - overlap_bytes cfg (emitted st).
Proof.
  assert (Hgen : ∀ st0 st1, run cfg steps st0 = Done st1 →
            buffered_bytes (fFragments st1) - fFragmentSize st1
              - overlap_bytes cfg (emitted st1)
            = buffered_bytes (fFragments st0) - fFragmentSize st0
              - overlap_bytes cfg (emitted st0)).
  { induction steps as [|[fragment timestamp|s] steps IH]; intros st0 st1 Hrun.
    - by injection Hrun as <-.
    - cbn [run] in Hrun. apply IH in Hrun. rewrite Hrun.
      apply size_counter_route.
    - cbn [run] in Hrun.
      destruct (WriteOutFiles cfg s false st0) as [st2| |] eqn:Hw; [|done..].
      cbn [mbind outcome_bind] in Hrun. apply IH in Hrun. rewrite Hrun.
      by apply (size_counter_flush cfg s). }
  intros Hrun. apply Hgen in Hrun.
  change (buffered_bytes (fFragments fresh)) with 0 in Hrun.
  change (overlap_bytes cfg (emitted fresh)) with 0 in Hrun.
  change (fFragmentSize fresh) with 0 in Hrun. lia.
Qed.

Lemma size_counter_misses_overlap_witness :
  let cfg := example_cfg dpp_daw in
  let steps := [Route [1; 2; 3] 5000000001; Flush 5] in
  let st := result fresh (run cfg steps fresh) in
  run cfg steps fresh = Done st
  ∧ fFragmentSize st
    = buffered_bytes (fFragments st) - overlap_bytes cfg (emitted st)
  ∧ fFragmentSize st = -3.
Proof.
  intros cfg steps st. split; [by vm_compute|].
  split; [apply (size_counter_misses_overlap cfg steps); by vm_compute|].
  by vm_compute.
Defined.

(** ** The reach of the gap filler *)

Lemma create_placeholder_frame cfg name fs :
  (∀ p, p ≠ GetFilePath cfg name false →
        files (create_placeholder cfg name fs) !! p = files fs !! p)
  ∧ (∀ d, d ∈ dirs (create_placeholder cfg name fs) → d ∈ dirs fs ∨ d = name).
Proof.
  unfold create_placeholder. destruct (negb _); [|by split; [|left]].
  unfold write_file, exists_dir. cbn [fst GetFilePath].
  rewrite bool_decide_eq_true_2 by apply ensure_directory_dirs.
  cbn [files dirs]. split.
  - intros p Hp. by rewrite lookup_insert_ne, ensure_directory_files.
  - intros d. unfold ensure_directory, GetDirectoryPath.
    destruct (negb _); [|by left]. simpl.
    intros [->%elem_of_singleton|?]%elem_of_union; [by right|by left].
Qed.

Lemma create_missing_at_frame cfg fs x :
  (∀ p, files (create_missing_at cfg fs x) !! p ≠ files fs !! p →
        ∃ name, name ∈ gap_names x ∧ p = GetFilePath cfg name false)
  ∧ (∀ d, d ∈ dirs (create_missing_at cfg fs x) →
          d ∈ dirs fs ∨ d ∈ gap_names x).
Proof.
  unfold create_missing_at, gap_names. cbn zeta.
  set (name := GetStringFormat (i32 x)).
  set (fs1 := create_placeholder cfg name fs).
  destruct (create_placeholder_frame cfg name fs) as [Hf1 Hd1]. fold fs1 in Hf1, Hd1.
  split.
  - intros p Hp.
    destruct (decide (p = GetFilePath cfg name false)) as [->|H1];
      [exists name; split; [apply list_elem_of_here|done]|].
    destruct (decide (p = GetFilePath cfg (name +:+ "_post") false)) as [->|H2];
      [exists (name +:+ "_post")%string;
       split; [apply list_elem_of_further, list_elem_of_here|done]|].
    destruct (Z.eqb_spec x 0) as [->|Hx]; cbn [negb] in *.
    + destruct (create_placeholder_frame cfg (name +:+ "_post") fs1) as [Hf2 _].
      rewrite Hf2, Hf1 in Hp by done. done.
    + destruct (decide (p = GetFilePath cfg (name +:+ "_pre") false)) as [->|H3];
        [exists (name +:+ "_pre")%string;
         split; [do 2 apply list_elem_of_further; apply list_elem_of_here|done]|].
      set (fs2 := create_placeholder cfg (name +:+ "_pre") fs1) in *.
      destruct (create_placeholder_frame cfg (name +:+ "_pre") fs1) as [Hf2 _].
      destruct (create_placeholder_frame cfg (name +:+ "_post") fs2) as [Hf3 _].
      rewrite Hf3 in Hp by done. unfold fs2 in Hp.
      rewrite Hf2, Hf1 in Hp by done. done.
  - intros d Hd.
    assert (Hmid : ∀ fs2, (∀ d, d ∈ dirs fs2 → d ∈ dirs fs1
                                 ∨ (x ≠ 0 ∧ d = (name +:+ "_pre")%string)) →
              d ∈ dirs (create_placeholder cfg (name +:+ "_post") fs2) →
              d ∈ dirs fs ∨ d ∈ name :: (name +:+ "_post")%string
                              :: (if x =? 0 then [] else [(name +:+ "_pre")%string])).
    { intros fs2 H2 Hin.
      destruct (create_placeholder_frame cfg (name +:+ "_post") fs2) as [_ Hd3].
      destruct (Hd3 d Hin) as [Hin2| ->];
        [|right; apply list_elem_of_further, list_elem_of_here].
      destruct (H2 d Hin2) as [Hin1|[Hx ->]].
      - destruct (Hd1 d Hin1) as [?| ->]; [by left|right; apply list_elem_of_here].
      - right. destruct (Z.eqb_spec x 0); [done|].
        do 2 apply list_elem_of_further. apply list_elem_of_here. }
    destruct (Z.eqb_spec x 0) as [->|Hx]; cbn [negb] in Hd.
    + apply (Hmid fs1); [by left|done].
    + apply (Hmid (create_placeholder cfg (name +:+ "_pre") fs1)); [|done].
      intros d' Hd'.
      destruct (create_placeholder_frame cfg (name +:+ "_pre") fs1) as [_ Hd2].
      destruct (Hd2 d' Hd') as [?| ->]; [by left|by right].
Qed.

Lemma foldl_create_missing_frame cfg xs :
  ∀ fs,
    (∀ p, files (foldl (create_missing_at cfg) fs xs) !! p ≠ files fs !! p →
          ∃ x name, x ∈ xs ∧ name ∈ gap_names x
                    ∧ p = GetFilePath cfg name false)
    ∧ (∀ d, d ∈ dirs (foldl (create_missing_at cfg) fs xs) →
            d ∈ dirs fs ∨ ∃ x, x ∈ xs ∧ d ∈ gap_names x).
Proof.
  induction xs as [|x xs IH]; intros fs; cbn [foldl]; [by split; [|left]|].
  destruct (IH (create_missing_at cfg fs x)) as [Hf Hd].
  destruct (create_missing_at_frame cfg fs x) as [Hf1 Hd1].
  split.
  - intros p Hp.
    destruct (decide (files (foldl (create_missing_at cfg)
                               (create_missing_at cfg fs x) xs) !! p
                      = files (create_missing_at cfg fs x) !! p)) as [Heq|Hne].
    + rewrite Heq in Hp. destruct (Hf1 p Hp) as (name & Hname & ->).
      exists x, name. split; [apply list_elem_of_here|done].
    + destruct (Hf p Hne) as (y & name & Hy & Hname & ->).
      exists y, name. split; [by apply list_elem_of_further|done].
  - intros d Hin. destruct (Hd d Hin) as [Hin1|(y & Hy & Hname)].
    + destruct (Hd1 d Hin1) as [?|Hname]; [by left|].
      right. exists x. split; [apply list_elem_of_here|done].
    + right. exists y. split; [by apply list_elem_of_further|done].
Qed.

(** X7. [CreateMissing] touches nothing outside the range it is asked to
    fill: a file that differs after the call is the worker's file in one of
    the directories of a chunk id between the old [fMissingVerified] and
    [back_from_id], a directory that is new is one of those, and the
    watermark is set to [back_from_id]. *)
Theorem gap_filler_stays_in_range cfg back_from_id st :
  (∀ p, files (disk (CreateMissing cfg back_from_id st)) !! p
          ≠ files (disk st) !! p →
        ∃ x name, u32 (fMissingVerified st) <= x < u32 back_from_id
                  ∧ name ∈ gap_names x ∧ p = GetFilePath cfg name false)
  ∧ (∀ d, d ∈ dirs (disk (CreateMissing cfg back_from_id st)) →
          d ∈ dirs (disk st)
          ∨ ∃ x, u32 (fMissingVerified st) <= x < u32 back_from_id
                 ∧ d ∈ gap_names x)
  ∧ fMissingVerified (CreateMissing cfg back_from_id st) = u32 back_from_id.
Proof.
  unfold CreateMissing. cbn [disk set_missing_verified set_disk fMissingVerified].
  destruct (foldl_create_missing_frame cfg
              (seqZ (u32 (fMissingVerified st))
                 (u32 back_from_id - u32 (fMissingVerified st))) (disk st))
    as [Hf Hd].
  split; [|split; [|done]].
  - intros p Hp. destruct (Hf p Hp) as (x & name & Hx%elem_of_seqZ & Hname & ->).
    exists x, name. split; [lia|done].
  - intros d Hin. destruct (Hd d Hin) as [?|(x & Hx%elem_of_seqZ & Hname)];
      [by left|]. right. exists x. split; [lia|done].
Qed.

(** X8. Filling up to [b] and then up to [c] is filling up to [c]. *)
Theorem gap_filler_composes cfg b c st :
  u32 (fMissingVerified st) <= u32 b <= u32 c →
  CreateMissing cfg c (CreateMissing cfg b st) = CreateMissing cfg c st.
Proof.
  intros Hbc. unfold CreateMissing.
  cbn [disk set_missing_verified set_disk fMissingVerified].
  assert (u32 (u32 b) = u32 b) as -> by (unfold u32; apply Z.mod_mod; lia).
  replace (u32 c - u32 (fMissingVerified st))
    with ((u32 b - u32 (fMissingVerified st)) + (u32 c - u32 b)) by lia.
  rewrite seqZ_app, foldl_app by lia.
  by replace (u32 (fMissingVerified st) + (u32 b - u32 (fMissingVerified st)))
    with (u32 b) by lia.
Qed.

Lemma gap_filler_composes_witness :
  CreateMissing (example_cfg dpp_daw) 5 (CreateMissing (example_cfg dpp_daw) 2 fresh)
  = CreateMissing (example_cfg dpp_daw) 5 fresh.
Proof. apply (gap_filler_composes (example_cfg dpp_daw) 2 5 fresh). by vm_compute. Defined.

(** ** The end of the stream *)

Lemma router_names_in_memory (st : Inserter) :
  (∀ name, is_Some (fFragments st !! name) → router_key name = true) →
  Forall (λ name, router_key name = true) (bucket_names (fFragments st)).
Proof.
  intros Hkeys. apply Forall_forall. intros name Hin.
  by apply Hkeys, elem_of_bucket_names.
Qed.

Lemma write_loop_ignores_threshold cfg s s' names :
  ∀ st clear,
    write_loop cfg s true names st clear = write_loop cfg s' true names st clear.
Proof.
  induction names as [|name rest IH]; intros st clear; [done|].
  cbn [write_loop]. destruct (String.eqb name ""); [done|].
  destruct (id_of name) as [i|]; [|done].
  rewrite !orb_true_r. cbn [negb].
  destruct (persist_bucket cfg name i st); [|done..].
  cbn [mbind outcome_bind]. apply IH.
Qed.

(** X9. The end-of-stream flush. With only router names in memory,
    [WriteOutFiles(_, true)] returns, the same whatever threshold it is
    given, and afterwards no bucket is left in memory, [fFragmentSize] is
    0, and the directory [THE_END] holds the worker's file with the bytes
    [...my only friend]. *)
Theorem end_flush_empties_and_marks cfg st :
  (∀ name, is_Some (fFragments st !! name) → router_key name = true) →
  ∃ st',
    (∀ s, WriteOutFiles cfg s true st = Done st')
    ∧ fFragments st' = ∅
    ∧ fFragmentSize st' = 0
    ∧ "THE_END"%string ∈ dirs (disk st')
    ∧ files (disk st') !! ("THE_END"%string, file_name cfg)
      = Some (bytes_of_string "...my only friend").
Proof.
  intros Hkeys%router_names_in_memory.
  destruct (write_loop_effect cfg 0 true _ Hkeys st []) as (st1 & Hloop & _).
  eexists. split.
  - intros s. unfold WriteOutFiles.
    rewrite (write_loop_ignores_threshold cfg s 0), Hloop.
    cbn [mbind outcome_bind]. reflexivity.
  - cbn [write_the_end fFragments fFragmentSize set_fragment_size set_fragments
           set_disk disk].
    split; [done|]. split; [done|].
    unfold write_file, exists_dir. cbn [fst].
    rewrite bool_decide_eq_true_2 by apply ensure_directory_dirs.
    cbn [dirs files]. split; [apply ensure_directory_dirs|].
    apply lookup_insert_eq.
Qed.

Lemma end_flush_empties_and_marks_witness :
  let cfg := example_cfg dpp_daw in
  let st := (AddFragmentToBuffer cfg [7; 7] 27500000000 fresh).1 in
  ∃ st',
    (∀ s, WriteOutFiles cfg s true st = Done st')
    ∧ fFragments st' = ∅
    ∧ fFragmentSize st' = 0
    ∧ "THE_END"%string ∈ dirs (disk st')
    ∧ files (disk st') !! ("THE_END"%string, file_name cfg)
      = Some (bytes_of_string "...my only friend").
Proof.
  intros cfg st. apply (end_flush_empties_and_marks cfg st).
  apply router_keys_by_check. by vm_compute.
Defined.

(** ** A bucket without a name *)

Lemma empty_name_first (m : gmap string (list Z)) :
  is_Some (m !! ""%string) → ∃ rest, bucket_names m = ""%string :: rest.
Proof.
  intros Hin%elem_of_bucket_names.
  pose proof (StronglySorted_merge_sort String.le (map_to_list m).*1) as Hs.
  fold (bucket_names m) in Hs.
  destruct (bucket_names m) as [|name rest]; [by apply elem_of_nil in Hin|].
  apply elem_of_cons in Hin as [<-|Hin]; [by eexists|].
  apply StronglySorted_inv in Hs as [_ Hall].
  rewrite Forall_forall in Hall. specialize (Hall _ Hin).
  destruct name; [by eexists|]. done.
Qed.

Lemma set_fragments_id (st : Inserter) : set_fragments (λ m, m) st = st.
Proof. by destruct st. Qed.

(** X10. A bucket with the empty name stops the writer: the empty name sorts
    first and the loop breaks on it, so no bucket is written out. Without
    the end flag the worker is unchanged; with it every bucket is dropped
    unwritten and only [THE_END] is written. *)
Theorem empty_name_blocks_the_writer cfg s e st :
  is_Some (fFragments st !! ""%string) →
  WriteOutFiles cfg s e st = Done (if e then write_the_end cfg st else st).
Proof.
  intros [rest Hnames]%empty_name_first. unfold WriteOutFiles.
  rewrite Hnames. cbn [write_loop String.eqb mbind outcome_bind foldl].
  rewrite set_fragments_id. reflexivity.
Qed.

Lemma empty_name_blocks_the_writer_witness :
  let cfg := example_cfg dpp_daw in
  let st := set_fragments (λ _, {[ ""%string := [1]; "000000"%string := [2; 3] ]})
              fresh in
  WriteOutFiles cfg 5 true st = Done (write_the_end cfg st).
Proof.
  intros cfg st. apply (empty_name_blocks_the_writer cfg 5 true st).
  exists [1]. by vm_compute.
Defined.

(** ** Temporary directories *)

Lemma gap_names_router_keys x name :
  0 <= x < 1000000 → name ∈ gap_names x → router_key name = true.
Proof.
  intros Hx. unfold gap_names, i32.
  rewrite (signed_small 32 x) by (change (2 ^ (32 - 1)) with (2 ^ 31); lia).
  intros [->|[->|Hin]%elem_of_cons]%elem_of_cons.
  - by apply router_key_primary.
  - apply router_key_suffixed; auto.
  - destruct (x =? 0); [by apply elem_of_nil in Hin|].
    apply list_elem_of_singleton in Hin as ->. apply router_key_suffixed; auto.
Qed.

Lemma CreateMissing_keeps_temp cfg i st other :
  0 <= fMissingVerified st < 1000000 → 0 <= i < 1000000 →
  router_key other = true →
  files (disk (CreateMissing cfg i st)) !! GetFilePath cfg other true
  = files (disk st) !! GetFilePath cfg other true.
Proof.
  intros Hmv Hi Hother.
  destruct (decide (files (disk (CreateMissing cfg i st))
                      !! GetFilePath cfg other true
                    = files (disk st) !! GetFilePath cfg other true))
    as [|Hne]; [done|].
  unfold CreateMissing in Hne. cbn [disk set_missing_verified set_disk] in Hne.
  apply foldl_create_missing_frame in Hne
    as (x & name & Hx%elem_of_seqZ & Hname & Heq).
  rewrite !u32_small in Hx by lia.
  apply gap_names_router_keys in Hname; [|lia].
  symmetry in Heq. by apply router_path_not_temp in Heq.
Qed.

Lemma string_app_inv_tail (s t u : string) : s +:+ u = t +:+ u → s = t.
Proof.
  intros Heq. by apply string_app_inj_2 in Heq as [Heq _].
Qed.

Lemma persist_bucket_temp cfg name i st :
  0 <= fMissingVerified st < 1000000 → 0 <= i < 1000000 →
  router_key name = true →
  ∃ st',
    persist_bucket cfg name i st = Done st'
    ∧ fMissingVerified st' = i
    ∧ dirs (disk st) ⊆ dirs (disk st')
    ∧ GetDirectoryPath name true ∈ dirs (disk st')
    ∧ files (disk st') !! GetFilePath cfg name true = None
    ∧ ∀ other, router_key other = true → other ≠ name →
        files (disk st') !! GetFilePath cfg other true
        = files (disk st) !! GetFilePath cfg other true.
Proof.
  intros Hmv Hi Hkey. unfold persist_bucket.
  set (out := compress cfg _).
  set (fs1 := ensure_directory (GetDirectoryPath name true) (disk st)).
  assert (Hw : write_file (GetFilePath cfg name true) out fs1
               = {| dirs := dirs fs1;
                    files := <[GetFilePath cfg name true := out]>
                               (files (disk st)) |}).
  { unfold write_file, exists_dir. cbn [fst GetFilePath].
    rewrite bool_decide_eq_true_2 by apply ensure_directory_dirs.
    subst fs1. by rewrite ensure_directory_files. }
  rewrite Hw. clear Hw.
  set (fs2 := {| dirs := dirs fs1; files := _ |}).
  set (fs3 := ensure_directory (GetDirectoryPath name false) fs2).
  assert (Hf3 : files fs3
                = <[GetFilePath cfg name true := out]> (files (disk st))).
  { subst fs3. by rewrite ensure_directory_files. }
  assert (Hd03 : dirs (disk st) ⊆ dirs fs3).
  { subst fs3 fs2. etrans; [|apply ensure_directory_mono]. simpl.
    apply ensure_directory_mono. }
  assert (Hd13 : GetDirectoryPath name true ∈ dirs fs3).
  { subst fs3 fs2. apply ensure_directory_mono. simpl.
    apply ensure_directory_dirs. }
  unfold rename. rewrite Hf3, lookup_insert_eq.
  unfold exists_dir. cbn [fst GetFilePath].
  rewrite bool_decide_eq_true_2 by apply ensure_directory_dirs.
  set (fs4 := {| dirs := dirs fs3; files := _ |}).
  set (st1 := set_disk (λ _, fs4) (set_fragment_size _ st)).
  assert (Hmv1 : 0 <= fMissingVerified st1 < 1000000) by done.
  eexists. split; [done|].
  pose proof (CreateMissing_extends cfg i st1) as [Hd _].
  split; [unfold CreateMissing; simpl; by apply u32_small; lia|].
  split; [by etrans|]. split; [by apply Hd|]. split.
  - rewrite CreateMissing_keeps_temp by done.
    change (files (disk st1)) with (files fs4). subst fs4. cbn [files].
    rewrite lookup_insert_ne, lookup_delete_eq; [done|].
    unfold GetFilePath, GetDirectoryPath. intros [= Heq].
    by apply temp_is_not_itself in Heq.
  - intros other Hother Hne. rewrite CreateMissing_keeps_temp by done.
    change (files (disk st1)) with (files fs4). subst fs4. cbn [files].
    rewrite lookup_insert_ne, lookup_delete_ne, lookup_insert_ne; [done|..].
    + unfold GetFilePath, GetDirectoryPath. intros [= Heq].
      by apply string_app_inv_tail in Heq.
    + unfold GetFilePath, GetDirectoryPath. intros [= Heq].
      by apply string_app_inv_tail in Heq.
    + unfold GetFilePath, GetDirectoryPath. intros [= Heq].
      by apply (router_key_not_temp name other).
Qed.

Lemma write_loop_temp cfg s e names :
  Forall (λ name, router_key name = true) names → NoDup names →
  ∀ st clear, 0 <= fMissingVerified st < 1000000 →
    ∃ st' clear',
      write_loop cfg s e names st clear = Done (st', clear')
      ∧ 0 <= fMissingVerified st' < 1000000
      ∧ dirs (disk st) ⊆ dirs (disk st')
      ∧ (∀ other, router_key other = true → other ∉ names →
           files (disk st') !! GetFilePath cfg other true
           = files (disk st) !! GetFilePath cfg other true)
      ∧ ∀ name, name ∈ names → selected s e name = true →
          GetDirectoryPath name true ∈ dirs (disk st')
          ∧ files (disk st') !! GetFilePath cfg name true = None.
Proof.
  induction names as [|name rest IH]; intros Hkeys Hnd st clear Hmv.
  - exists st, clear. do 4 (split; [done|]).
    intros name Hin. by apply elem_of_nil in Hin.
  - apply Forall_cons in Hkeys as [Hkey Hkeys].
    apply NoDup_cons in Hnd as [Hfresh Hnd].
    destruct (router_key_spec name Hkey) as (i & Hi & Hid & _).
    cbn [write_loop].
    destruct (String.eqb_spec name "") as [->|_]; [done|].
    rewrite Hid.
    destruct ((i <? s - 1) || e) eqn:Hsel; cbn [negb].
    + destruct (persist_bucket_temp cfg name i st Hmv Hi Hkey)
        as (st1 & -> & Hmv1 & Hd1 & Ht1 & Hnone1 & Hkeep1).
      cbn [mbind outcome_bind].
      destruct (IH Hkeys Hnd st1 (clear ++ [name]) ltac:(lia))
        as (st' & clear' & -> & Hmv' & Hd & Hkeep & Hdone).
      exists st', clear'. split; [done|]. split; [done|]. split; [by etrans|].
      split.
      * intros other Hother [Hne Hnin]%not_elem_of_cons.
        rewrite Hkeep by done. by apply Hkeep1.
      * intros other [->|Hin]%elem_of_cons Hother; [|by apply Hdone].
        split; [by apply Hd|]. by rewrite Hkeep.
    + destruct (IH Hkeys Hnd st clear Hmv)
        as (st' & clear' & -> & Hmv' & Hd & Hkeep & Hdone).
      exists st', clear'. do 3 (split; [done|]). split.
      * intros other Hother [Hne Hnin]%not_elem_of_cons. by apply Hkeep.
      * intros other [->|Hin]%elem_of_cons Hother; [|by apply Hdone].
        rewrite (selected_id s e name i Hid) in Hother. congruence.
Qed.

(** X11. The writer leaves its temporary directories behind, empty of the
    worker's file: after [WriteOutFiles], for every bucket it has written
    out, the directory [name_temp] exists and the worker's file in it has
    been moved away. *)
Theorem temp_directories_are_left_empty cfg s e st :
  (∀ name, is_Some (fFragments st !! name) → router_key name = true) →
  0 <= fMissingVerified st < 1000000 →
  ∃ st',
    WriteOutFiles cfg s e st = Done st'
    ∧ ∀ name, is_Some (fFragments st !! name) → selected s e name = true →
        (name +:+ "_temp")%string ∈ dirs (disk st')
        ∧ files (disk st') !! (name +:+ "_temp", file_name cfg)%string = None.
Proof.
  intros Hkeys Hmv.
  assert (Hall : Forall (λ name, router_key name = true)
                   (bucket_names (fFragments st))).
  { apply Forall_forall. intros name Hin. by apply Hkeys, elem_of_bucket_names. }
  destruct (write_loop_temp cfg s e _ Hall (NoDup_bucket_names _) st [] Hmv)
    as (st1 & clear1 & Hloop & _ & _ & _ & Hdone).
  unfold WriteOutFiles. rewrite Hloop. cbn [mbind outcome_bind].
  eexists. split; [done|].
  intros name Hin%elem_of_bucket_names Hsel.
  destruct (Hdone name Hin Hsel) as [Hdir Hfile].
  unfold GetFilePath, GetDirectoryPath in Hdir, Hfile.
  destruct e; [|done].
  cbn [write_the_end disk set_disk set_fragments set_fragment_size].
  unfold write_file, exists_dir. cbn [fst].
  rewrite bool_decide_eq_true_2 by apply ensure_directory_dirs.
  cbn [dirs files]. split; [by apply ensure_directory_mono|].
  rewrite lookup_insert_ne, ensure_directory_files; [done|].
  intros [= Heq]. apply (f_equal String.length) in Heq.
  destruct (router_key_spec name (Hkeys name ltac:(by apply elem_of_bucket_names)))
    as (c & Hc & _ & [->|[->| ->]]);
    rewrite ?length_string_app, ?length_GetStringFormat in Heq by done;
    simpl in Heq; lia.
Qed.

Lemma temp_directories_are_left_empty_witness :
  let cfg := example_cfg dpp_daw in
  let st := (AddFragmentToBuffer cfg [7; 7] 4000000000 fresh).1 in
  ∃ st',
    WriteOutFiles cfg 5 false st = Done st'
    ∧ ∀ name, is_Some (fFragments st !! name) → selected 5 false name = true →
        (name +:+ "_temp")%string ∈ dirs (disk st')
        ∧ files (disk st') !! (name +:+ "_temp", file_name cfg)%string = None.
Proof.
  intros cfg st. apply (temp_directories_are_left_empty cfg 5 false st).
  - apply router_keys_by_check. by vm_compute.
  - by vm_compute.
Defined.

(** ** Late fragments *)

Lemma route_primary cfg fragment timestamp st :
  0 < fFullChunkLength cfg → routable cfg timestamp →
  nextpre_of cfg timestamp = false →
  fFragments (AddFragmentToBuffer cfg fragment timestamp st).1
  = bucket_append (GetStringFormat (timestamp / fFullChunkLength cfg))
      fragment (fFragments st).
Proof.
  intros Hfull [Ht Hc] Hpre.
  destruct (AddFragmentToBuffer_buckets cfg fragment timestamp st)
    as (-> & _ & _).
  unfold destinations. rewrite Hpre, chunk_of_nonneg by lia. done.
Qed.

(** X12. A fragment that arrives after its chunk has been written out starts
    a new bucket of the same name, and the next flush puts that bucket in
    the place of the chunk file: the file then holds the late fragment
    only. *)
Theorem late_fragment_replaces_chunk_file cfg f1 f2 timestamp s :
  0 < fFullChunkLength cfg → routable cfg timestamp →
  nextpre_of cfg timestamp = false →
  timestamp / fFullChunkLength cfg < s - 1 →
  ∃ st1 st,
    run cfg [Route f1 timestamp; Flush s] fresh = Done st1
    ∧ files (disk st1)
        !! GetFilePath cfg
             (GetStringFormat (timestamp / fFullChunkLength cfg)) false
      = Some (compress cfg f1)
    ∧ run cfg [Route f2 timestamp; Flush s] st1 = Done st
    ∧ files (disk st)
        !! GetFilePath cfg
             (GetStringFormat (timestamp / fFullChunkLength cfg)) false
      = Some (compress cfg f2).
Proof.
  intros Hfull Hroutable Hpre Hs.
  set (c := timestamp / fFullChunkLength cfg).
  set (name := GetStringFormat c).
  assert (Hc : 0 <= c < 1000000).
  { destruct Hroutable as [Ht Hc]. subst c.
    split; [apply Z.div_pos; lia|lia]. }
  assert (Hkey : router_key name = true) by by apply router_key_primary.
  assert (Hsel : selected s false name = true).
  { unfold selected, name.
    rewrite <- (string_app_nil_r (GetStringFormat c)).
    rewrite id_of_GetStringFormat by done.
    apply orb_true_intro. left. apply Z.ltb_lt. lia. }
  assert (Hflush : ∀ fragment st0,
            (∀ other, fFragments st0 !! other = None) →
            ∃ st',
              run cfg [Route fragment timestamp; Flush s] st0 = Done st'
              ∧ files (disk st') !! GetFilePath cfg name false
                = Some (compress cfg fragment)
              ∧ ∀ other, fFragments st' !! other = None).
  { intros fragment st0 Hnone. cbn [run].
    set (st1 := (AddFragmentToBuffer cfg fragment timestamp st0).1).
    assert (Hfr : fFragments st1 = bucket_append name fragment (fFragments st0))
      by by apply route_primary.
    assert (Hname : fFragments st1 !! name = Some fragment).
    { rewrite Hfr. unfold bucket_append. by rewrite lookup_insert_eq, Hnone. }
    assert (Hothers : ∀ other, other ≠ name → fFragments st1 !! other = None).
    { intros other Hne. rewrite Hfr. unfold bucket_append.
      by rewrite lookup_insert_ne. }
    destruct (WriteOutFiles_effect cfg s false st1) as (st' & -> & Hdone & Hgone).
    { intros other Hother. destruct (decide (other = name)) as [->|Hne]; [done|].
      rewrite Hothers in Hother by done. by destruct Hother. }
    exists st'. split; [done|].
    specialize (Hdone name fragment Hname). rewrite Hsel in Hdone.
    destruct Hdone as (Hmem & _ & Hfile). split; [done|].
    intros other. destruct (decide (other = name)) as [->|Hne]; [done|].
    by apply Hgone, Hothers. }
  destruct (Hflush f1 fresh) as (st1 & Hrun1 & Hfile1 & Hnone1); [done|].
  destruct (Hflush f2 st1 Hnone1) as (st & Hrun & Hfile & _).
  by exists st1, st.
Qed.

Lemma late_fragment_replaces_chunk_file_witness :
  let cfg := example_cfg dpp_daw in
  ∃ st1 st,
    run cfg [Route [1; 2] 4000000000; Flush 5] fresh = Done st1
    ∧ files (disk st1)
        !! GetFilePath cfg
             (GetStringFormat (4000000000 / fFullChunkLength cfg)) false
      = Some (compress cfg [1; 2])
    ∧ run cfg [Route [3] 4000000000; Flush 5] st1 = Done st
    ∧ files (disk st)
        !! GetFilePath cfg
             (GetStringFormat (4000000000 / fFullChunkLength cfg)) false
      = Some (compress cfg [3]).
Proof.
  intros cfg.
  apply (late_fragment_replaces_chunk_file cfg [1; 2] [3] 4000000000 5);
    by vm_compute.
Defined.

(** ** From the router to the chunk file *)

Lemma NoDup_destinations cfg timestamp : NoDup (destinations cfg timestamp).
Proof.
  unfold destinations. destruct (nextpre_of cfg timestamp).
  - apply NoDup_cons. split; [|apply NoDup_singleton].
    intros Heq%list_elem_of_singleton. by apply pre_is_not_post in Heq.
  - apply NoDup_singleton.
Qed.

Lemma lookup_foldl_bucket_append fragment names :
  NoDup names →
  ∀ (m : gmap string (list Z)) name,
    default [] (foldl (λ m name, bucket_append name fragment m) m names !! name)
    = default [] (m !! name) ++ (if decide (name ∈ names) then fragment else []).
Proof.
  induction names as [|k names IH]; intros Hnd m name; cbn [foldl].
  - rewrite decide_False by apply not_elem_of_nil. by rewrite app_nil_r.
  - apply NoDup_cons in Hnd as [Hk Hnd]. rewrite IH by done.
    unfold bucket_append at 1. destruct (decide (name = k)) as [->|Hne].
    + rewrite lookup_insert_eq, decide_False by done.
      rewrite decide_True by apply list_elem_of_here.
      by rewrite app_nil_r.
    + rewrite lookup_insert_ne by done.
      destruct (decide (name ∈ names)) as [Hin|Hnin].
      * by rewrite decide_True by by apply list_elem_of_further.
      * by rewrite decide_False by (by intros [?|?]%elem_of_cons).
Qed.

Lemma routed_to_snoc cfg name log fragment timestamp :
  routed_to cfg name (log ++ [(fragment, timestamp)])
  = routed_to cfg name log
    ++ (if decide (name ∈ destinations cfg timestamp) then fragment else []).
Proof.
  unfold routed_to. rewrite filter_app, fmap_app, concat_app. f_equal.
  rewrite filter_cons, filter_nil. cbn [snd].
  case_decide; [|done]. cbn. by rewrite app_nil_r.
Qed.

Lemma run_routes cfg log :
  ∀ st,
    ∃ st',
      run cfg ((λ ft, Route ft.1 ft.2) <$> log) st = Done st'
      ∧ disk st' = disk st
      ∧ (∀ name, default [] (fFragments st' !! name)
                 = default [] (fFragments st !! name) ++ routed_to cfg name log)
      ∧ (∀ name, is_Some (fFragments st' !! name) →
                 is_Some (fFragments st !! name)
                 ∨ ∃ ft, ft ∈ log ∧ name ∈ destinations cfg ft.2)
      ∧ (∀ ft name, ft ∈ log → name ∈ destinations cfg ft.2 →
                    is_Some (fFragments st' !! name)).
Proof.
  induction log as [|[fragment timestamp] log IH] using rev_ind; intros st.
  - exists st. cbn. split; [done|]. split; [done|].
    split; [intros name; by rewrite app_nil_r|]. split; [by left|].
    by intros ft name Hin%elem_of_nil.
  - destruct (IH st) as (st1 & Hrun1 & Hdisk1 & Hbytes1 & Hinv1 & Hin1).
    exists (AddFragmentToBuffer cfg fragment timestamp st1).1.
    destruct (AddFragmentToBuffer_buckets cfg fragment timestamp st1)
      as (Hfr & Hdisk & _).
    split; [|split; [congruence|split; [|split]]].
    + rewrite fmap_app. cbn [fmap list_fmap fst snd].
      clear -Hrun1. revert st Hrun1.
      induction ((λ ft, Route ft.1 ft.2) <$> log) as [|[f t|s] steps IHs];
        intros st Hrun1; cbn [app run] in *.
      * by injection Hrun1 as ->.
      * by apply IHs.
      * destruct (WriteOutFiles cfg s false st) as [st2| |]; try done.
        cbn [mbind outcome_bind] in *. by apply IHs.
    + intros name. rewrite Hfr, lookup_foldl_bucket_append
        by apply NoDup_destinations.
      by rewrite Hbytes1, routed_to_snoc, app_assoc.
    + intros name Hsome. rewrite Hfr in Hsome.
      apply foldl_bucket_append_inv in Hsome as [Hin|Hsome].
      * right. exists (fragment, timestamp).
        split; [apply elem_of_app; right; apply list_elem_of_here|done].
      * destruct (Hinv1 name Hsome) as [?|(ft & Hft & Hname)]; [by left|].
        right. exists ft. split; [apply elem_of_app; by left|done].
    + intros ft name [Hft|Hft]%elem_of_app Hname; rewrite Hfr.
      * by eapply foldl_bucket_append_keeps, Hin1.
      * apply list_elem_of_singleton in Hft as ->.
        by apply foldl_bucket_append_here.
Qed.

(** X13. From the router to the chunk file. A fresh worker that routes a
    list of fragments at times [t >= 0] with chunk ids below 999999 and is
    then flushed at the end of the stream leaves, for every bucket a
    fragment was sent to, the worker's file in the directory of that name,
    and the file holds the compressed concatenation, in order of arrival,
    of exactly the fragments the router sent to that bucket. *)
Theorem chunk_file_holds_the_routed_fragments cfg log s :
  0 < fFullChunkLength cfg →
  (∀ ft, ft ∈ log → routable cfg ft.2) →
  ∃ st st',
    run cfg ((λ ft, Route ft.1 ft.2) <$> log) fresh = Done st
    ∧ WriteOutFiles cfg s true st = Done st'
    ∧ ∀ ft name, ft ∈ log → name ∈ destinations cfg ft.2 →
        name ∈ dirs (disk st')
        ∧ files (disk st') !! GetFilePath cfg name false
          = Some (compress cfg (routed_to cfg name log)).
Proof.
  intros Hfull Hroutable.
  destruct (run_routes cfg log fresh) as (st & Hrun & _ & Hbytes & Hinv & Hin).
  assert (Hkeys : ∀ name, is_Some (fFragments st !! name) →
                          router_key name = true).
  { intros name Hsome.
    destruct (Hinv name Hsome) as [Hold|(ft & Hft & Hname)].
    - cbn in Hold. rewrite lookup_empty in Hold. by destruct Hold.
    - by apply (destinations_router_keys cfg ft.2 Hfull (Hroutable ft Hft)). }
  destruct (WriteOutFiles_effect cfg s true st Hkeys) as (st' & Hw & Hsel & _).
  exists st, st'. split; [done|]. split; [done|].
  intros ft name Hft Hname.
  destruct (Hin ft name Hft Hname) as [buffer Hbuffer].
  specialize (Hsel name buffer Hbuffer).
  destruct (router_key_spec name (Hkeys name ltac:(by rewrite Hbuffer)))
    as (i & _ & Hid & _).
  rewrite (selected_id s true name i Hid), orb_true_r in Hsel.
  destruct Hsel as (_ & Hdir & Hfile). split; [done|].
  rewrite Hfile. do 2 f_equal.
  specialize (Hbytes name). rewrite Hbuffer in Hbytes. cbn in Hbytes.
  by rewrite lookup_empty in Hbytes.
Qed.

Lemma chunk_file_holds_the_routed_fragments_witness :
  let cfg := example_cfg dpp_daw in
  let log := [([1; 2], 4000000000); ([3], 5000000001); ([4; 5], 100)] in
  ∃ st st',
    run cfg ((λ ft, Route ft.1 ft.2) <$> log) fresh = Done st
    ∧ WriteOutFiles cfg 1000000 true st = Done st'
    ∧ ∀ ft name, ft ∈ log → name ∈ destinations cfg ft.2 →
        name ∈ dirs (disk st')
        ∧ files (disk st') !! GetFilePath cfg name false
          = Some (compress cfg (routed_to cfg name log)).
Proof.
  intros cfg log.
  apply (chunk_file_holds_the_routed_fragments cfg log 1000000);
    [by vm_compute|].
  intros ft Hft. repeat (apply elem_of_cons in Hft as [->|Hft]);
    [by vm_compute..|by apply elem_of_nil in Hft].
Defined.

(** ** Flushing twice *)

Lemma write_loop_nothing_selected cfg s names :
  Forall (λ name, router_key name = true ∧ selected s false name = false)
    names →
  ∀ st clear, write_loop cfg s false names st clear = Done (st, clear).
Proof.
  induction 1 as [|name rest [Hkey Hsel] Hrest IH]; intros st clear; [done|].
  cbn [write_loop].
  destruct (String.eqb_spec name "") as [->|_]; [done|].
  destruct (router_key_spec name Hkey) as (i & _ & Hid & _).
  rewrite Hid. rewrite (selected_id s false name i Hid) in Hsel.
  rewrite Hsel. cbn [negb]. apply IH.
Qed.

(** X14. A flush leaves nothing for the same flush to do: with router names
    in memory, [WriteOutFiles(s, false)] returns a state on which the same
    call changes nothing at all. *)
Theorem flush_is_idempotent cfg s st :
  (∀ name, is_Some (fFragments st !! name) → router_key name = true) →
  ∃ st',
    WriteOutFiles cfg s false st = Done st'
    ∧ WriteOutFiles cfg s false st' = Done st'.
Proof.
  intros Hkeys.
  destruct (WriteOutFiles_effect cfg s false st Hkeys)
    as (st' & Hrun & Hsel & Hnone).
  exists st'. split; [done|]. unfold WriteOutFiles.
  rewrite write_loop_nothing_selected.
  - cbn [mbind outcome_bind foldl]. by rewrite set_fragments_id.
  - apply Forall_forall. intros name Hin%elem_of_bucket_names.
    destruct (fFragments st !! name) as [buffer|] eqn:Hold;
      [|rewrite (Hnone name Hold) in Hin; by destruct Hin].
    split; [apply Hkeys; by rewrite Hold|].
    specialize (Hsel name buffer Hold).
    destruct (selected s false name); [|done].
    destruct Hsel as [Hgone _]. rewrite Hgone in Hin. by destruct Hin.
Qed.

Lemma flush_is_idempotent_witness :
  let cfg := example_cfg dpp_daw in
  let st := (AddFragmentToBuffer cfg [7; 7] 27500000000
               (AddFragmentToBuffer cfg [1] 4000000000 fresh).1).1 in
  ∃ st',
    WriteOutFiles cfg 5 false st = Done st'
    ∧ WriteOutFiles cfg 5 false st' = Done st'.
Proof.
  intros cfg st. apply (flush_is_idempotent cfg 5 st).
  apply router_keys_by_check. by vm_compute.
Defined.

(** ** Packets without events *)

Lemma parse_loop_skips inner cfg dp tw k :
  0 <= k <= tw → tw < 2 ^ 32 →
  (∀ j, 0 <= j < k →
        Z.shiftr (word dp j) 28 ≠ 0xA ∧ word dp j ≠ 0xFFFFFFFF) →
  k = tw ∨ word dp k = 0xFFFFFFFF →
  ∀ fuel cur st,
    0 <= idx cur <= k → (Z.to_nat (k - idx cur) < fuel)%nat →
    parse_loop fuel inner cfg dp tw cur st = Done (set_idx k cur, st).
Proof.
  intros Hk Htw Hplain Hstop.
  induction fuel as [|fuel IH]; intros cur st Hidx Hfuel; [lia|].
  cbn [parse_loop].
  destruct (Z.eq_dec (idx cur) k) as [Heq|Hne].
  - assert ((idx cur <? tw) && negb (word dp (idx cur) =? 0xFFFFFFFF) = false)
      as ->.
    { rewrite Heq. destruct Hstop as [-> | ->].
      - by rewrite Z.ltb_irrefl.
      - rewrite Z.eqb_refl. apply andb_false_r. }
    rewrite <- Heq. by destruct cur.
  - destruct (Hplain (idx cur)) as [Hhdr Hterm]; [lia|].
    destruct (Z.ltb_spec (idx cur) tw); [|lia].
    destruct (Z.eqb_spec (word dp (idx cur)) 0xFFFFFFFF); [done|].
    destruct (Z.eqb_spec (Z.shiftr (word dp (idx cur)) 28) 0xA); [done|].
    cbn [andb negb]. rewrite IH; cbn [idx set_idx].
    + done.
    + rewrite u32_small by lia. lia.
    + rewrite u32_small by lia. lia.
Qed.

(** X15. A packet without an event header is skipped. If the first [k] words
    are neither an event header (top four bits [0xA]) nor the terminator
    [0xFFFFFFFF], and then the buffer ends or the terminator stands, then
    [ParseDocuments] emits nothing, counts no event, writes nothing and
    only adds the packet size to [fBytesProcessed]. An empty packet and a
    packet that starts with the terminator are the case [k = 0]. *)
Theorem packet_without_event_header_is_skipped fuel cfg dp st k :
  0 <= k <= u32 (size dp) / 4 →
  (∀ j, 0 <= j < k →
        Z.shiftr (word dp j) 28 ≠ 0xA ∧ word dp j ≠ 0xFFFFFFFF) →
  k = u32 (size dp) / 4 ∨ word dp k = 0xFFFFFFFF →
  (Z.to_nat k < fuel)%nat →
  ParseDocuments fuel cfg dp st = Done (count_bytes (size dp) st).
Proof.
  intros Hk Hplain Hstop Hfuel. unfold ParseDocuments.
  assert (Htw : u32 (size dp) / 4 < 2 ^ 32).
  { pose proof (u32_range (size dp)). apply Z.div_lt_upper_bound; lia. }
  rewrite (parse_loop_skips fuel cfg dp _ k Hk Htw Hplain Hstop);
    [done|cbn; lia|cbn; lia].
Qed.

Lemma packet_without_event_header_is_skipped_witness :
  let dp := {| buff := [0x12345678; 0x00000007; 0xFFFFFFFF; 0xA0000004];
               size := 16; clock_counter := 0; header_time := 0; bid := 0 |} in
  ParseDocuments 3 (example_cfg dpp_daw) dp fresh
  = Done (count_bytes (size dp) fresh).
Proof.
  intros dp.
  apply (packet_without_event_header_is_skipped 3 (example_cfg dpp_daw) dp
           fresh 2).
  - by vm_compute.
  - intros j Hj. assert (j = 0 ∨ j = 1) as [-> | ->] by lia; by vm_compute.
  - by right.
  - simpl. lia.
Defined.

(** ** A payload of less than two bytes *)

(** X16. With [fFragmentBytes] below 2 the fragment length is zero samples,
    the loop over a pulse never advances, and it does not end: whatever
    the loop bound, the model runs out of fuel. *)
Theorem zero_payload_never_finishes_a_pulse cfg dp p fuel :
  0 <= fFragmentBytes cfg < 2 → fForceQuit cfg = false →
  ∀ index fragment_index smallest st,
    0 <= index < samples_in_pulse p → index < 2 ^ 32 →
    fragment_loop fuel cfg dp p index fragment_index smallest st = OutOfFuel.
Proof.
  intros Hfb Hquit. induction fuel as [|fuel IH];
    intros index fi smallest st Hindex H32; [done|].
  cbn [fragment_loop].
  assert (Z.shiftr (fFragmentBytes cfg) 1 = 0) as ->.
  { rewrite shiftr_1. apply Z.div_small. lia. }
  destruct (Z.ltb_spec index (samples_in_pulse p)); [|lia].
  rewrite Z.mul_0_r, Z.add_0_l. change (u32 0) with 0.
  destruct (Z.ltb_spec (samples_in_pulse p) 0); [lia|].
  replace (u32 (index + 0)) with index
    by (by rewrite Z.add_0_r, u32_small by lia).
  destruct (AddFragmentToBuffer _ _ _ _) as [st1 chunk_id].
  rewrite Hquit. by apply IH.
Qed.

Lemma zero_payload_never_finishes_a_pulse_witness :
  let cfg := {| fChunkLength := 5000000000; fChunkOverlap := 500000000;
                fFragmentBytes := 1; fHostname := "reader0"; thread_tag := "7f01";
                fFmt := λ _, default_firmware; GetChannel := λ _ channel, channel;
                compress := λ bytes, bytes; fForceQuit := false |} in
  let p := {| pulse_time := 1000000000; samples_in_pulse := 6; offset := 8;
              sw := 10; cl := 0; baseline := 0 |} in
  fragment_loop 50 cfg three_word_packet p 0 0 (-1) fresh = OutOfFuel.
Proof.
  intros cfg p.
  apply (zero_payload_never_finishes_a_pulse cfg three_word_packet p 50);
    by vm_compute.
Defined.

(** ** Timestamps with a channel time MSB word *)

(** X17. On a board whose format has [channel_time_msb_idx = 2] the clock
    counter plays no part: the timestamp is
    [ns_per_clk * (channel_timeMSB * 2^32 + channel_time)], and with a
    16-bit MSB, a 32-bit channel time and [ns_per_clk] below 2^15 the
    64-bit product does not wrap. *)
Theorem Time64_of_a_48_bit_channel_time fmt ctr channel_timeMSB channel_time :
  channel_time_msb_idx fmt = 2 →
  0 <= ns_per_clk fmt < 2 ^ 15 →
  0 <= channel_timeMSB < 2 ^ 16 →
  0 <= channel_time < 2 ^ 32 →
  Time64 fmt ctr channel_timeMSB channel_time
  = ns_per_clk fmt * (channel_timeMSB * 2 ^ 32 + channel_time).
Proof.
  intros Hidx Hns Hmsb Hct. unfold Time64. rewrite Hidx. cbn [Z.eqb Pos.eqb].
  rewrite i64_mul_u64, Z.shiftl_mul_pow2 by lia.
  apply signed_small; [lia|]. change (2 ^ (64 - 1)) with (2 ^ 63).
  pow2. nia.
Qed.

Lemma Time64_of_a_48_bit_channel_time_witness :
  let fmt := {| channel_header_words := 3; channel_mask_msb_idx := 2;
                channel_time_msb_idx := 2; ns_per_clk := 2;
                ns_per_sample := 2 |} in
  Time64 fmt 7 1 5 = 2 * (1 * 2 ^ 32 + 5).
Proof.
  intros fmt. apply (Time64_of_a_48_bit_channel_time fmt 7 1 5); by vm_compute.
Defined.

(** ** What every emitted fragment satisfies *)

Lemma signed_range w x : 0 < w → - 2 ^ (w - 1) <= signed w x < 2 ^ (w - 1).
Proof.
  intros Hw. unfold signed.
  assert (Hp : 2 ^ w = 2 * 2 ^ (w - 1)).
  { rewrite <- Z.pow_succ_r by lia. f_equal. lia. }
  pose proof (Z.mod_pos_bound x (2 ^ w) ltac:(lia)).
  destruct (Z.ltb_spec (x mod 2 ^ w) (2 ^ (w - 1))); lia.
Qed.

Lemma signed_idemp w x : 0 < w → signed w (signed w x) = signed w x.
Proof. intros Hw. by apply signed_small, signed_range. Qed.

Lemma fragment_samples_range cfg :
  2 <= fFragmentBytes cfg < 2 ^ 16 →
  0 < Z.shiftr (fFragmentBytes cfg) 1 < 2 ^ 15
  ∧ 2 * Z.shiftr (fFragmentBytes cfg) 1 <= fFragmentBytes cfg.
Proof.
  intros Hfb. rewrite shiftr_1.
  pose proof (Z.div_mod (fFragmentBytes cfg) 2 ltac:(lia)).
  pose proof (Z.mod_pos_bound (fFragmentBytes cfg) 2 ltac:(lia)).
  pow2. lia.
Qed.

Lemma adds_refl P st st' : emitted st' = emitted st → adds P st st'.
Proof. intros Hem. exists []. by rewrite app_nil_r. Qed.

Lemma adds_trans P st1 st2 st3 : adds P st1 st2 → adds P st2 st3 → adds P st1 st3.
Proof.
  intros (f12 & H12 & F12) (f23 & H23 & F23). exists (f12 ++ f23).
  split; [by rewrite H23, H12, app_assoc|by apply Forall_app].
Qed.

Lemma adds_one P cfg fragment timestamp st :
  P (fragment, timestamp) →
  adds P st (AddFragmentToBuffer cfg fragment timestamp st).1.
Proof.
  intros HP. exists [(fragment, timestamp)].
  split; [apply emitted_AddFragmentToBuffer|by apply Forall_singleton].
Qed.

Section EmittedFragments.
Context (cfg : Config) (P : list Z * Z → Prop).

Let fs := Z.shiftr (fFragmentBytes cfg) 1.

Hypothesis payload_range : 2 <= fFragmentBytes cfg < 2 ^ 16.
Hypothesis P_deadtime :
  ∀ timestamp bid,
    i64 timestamp = timestamp → P (deadtime_fragment cfg timestamp bid, timestamp).
Hypothesis P_waveform :
  ∀ t stf w c sip fi bl data,
    1 <= stf <= fs → stf <= sip < 2 ^ 31 → i16 c ≠ -1 →
    P (strax_fragment cfg t stf w c sip fi bl data, i64 t).

Lemma fragment_loop_adds dp p fuel :
  0 <= samples_in_pulse p < 2 ^ 31 → i16 (cl p) ≠ -1 →
  ∀ index fi smallest st smallest' st',
    0 <= index → 0 <= fi < 2 ^ 16 →
    samples_in_pulse p <= index ∨ fi * fs <= index →
    fragment_loop fuel cfg dp p index fi smallest st
      = Done (smallest', st') →
    adds P st st'.
Proof.
  intros Hsip Hcl.
  pose proof (fragment_samples_range cfg payload_range) as (Hfs & Hfb).
  fold fs in Hfs, Hfb.
  set (sip := samples_in_pulse p) in *.
  induction fuel as [|fuel IH];
    intros index fi smallest st smallest' st' Hindex Hfi Hinv Hrun; [done|].
  cbn [fragment_loop] in Hrun. fold fs sip in Hrun.
  destruct (Z.ltb_spec index sip) as [Hlt|Hge];
    [|injection Hrun as _ <-; by apply adds_refl].
  destruct Hinv as [?|Hinv]; [lia|].
  assert (Hfifs : 0 <= fi * fs < 2 ^ 31) by (pow2; nia).
  rewrite (u32_small (fs + fi * fs)) in Hrun by (pow2; lia).
  rewrite (u32_small (sip - fi * fs)) in Hrun by (pow2; lia).
  rewrite (u32_small fs) in Hrun by (pow2; lia).
  assert (Hu16 : 0 <= u16 (fi + 1) < 2 ^ 16) by (apply Z.mod_pos_bound; lia).
  assert (Hu16le : u16 (fi + 1) <= fi + 1).
  { unfold u16. apply Z.mod_le; lia. }
  set (stf := if sip <? fs + fi * fs then _ else fs) in Hrun.
  set (next := if sip <? fs + fi * fs then _ else _) in Hrun.
  assert (Hstf : 1 <= stf <= fs ∧ stf <= sip ∧ 0 <= next
                 ∧ (sip <= next ∨ u16 (fi + 1) * fs <= next)).
  { subst stf next. destruct (Z.ltb_spec sip (fs + fi * fs)).
    - rewrite (u32_small (index + (sip - fi * fs))) by (pow2; lia).
      rewrite u32_small by (pow2; lia).
      lia.
    - rewrite u32_small by (pow2; lia).
      split; [lia|]. split; [nia|]. split; [lia|]. right. nia. }
  clearbody stf next.
  destruct (AddFragmentToBuffer _ _ _ _) as [st1 chunk_id] eqn:Hadd.
  assert (Hone : adds P st st1).
  { apply (f_equal fst) in Hadd. simpl in Hadd. subst st1.
    eapply adds_trans;
      [apply (adds_refl P st (count_fragment st)); done|].
    apply adds_one. apply P_waveform; [lia|lia|done]. }
  destruct (fForceQuit cfg).
  - injection Hrun as _ <-. done.
  - eapply adds_trans; [exact Hone|].
    eapply (IH next (u16 (fi + 1))); [lia|lia|tauto|exact Hrun].
Qed.

Lemma channel_loop_adds fuel dp tw wie esi mask et :
  0 <= tw < 2 ^ 30 →
  ∀ channels cur st cur' st',
    channel_loop fuel cfg dp tw wie esi mask et channels cur st
      = Done (cur', st') →
    adds P st st'.
Proof.
  intros Htw channels.
  induction channels as [|channel rest IH]; intros cur st cur' st' Hrun.
  - injection Hrun as _ <-. by apply adds_refl.
  - cbn [channel_loop] in Hrun.
    destruct (negb _); [by eapply IH|].
    destruct (channel_header _ _ _ _ _ _ _ _)
      as [i|i|i cw ct msb bl ccs lts] eqn:Hhdr.
    + injection Hrun as _ <-. by apply adds_refl.
    + by eapply IH.
    + apply channel_header_words_nonneg in Hhdr; [|apply popcount_nonneg].
      destruct (whoops_of _ _ _ _ _ _) eqn:Hwhoops.
      * injection Hrun as _ <-. unfold GenerateArtificialDeadtime.
        apply adds_one, P_deadtime.
        unfold Time64. destruct (_ =? 2); apply signed_idemp; lia.
      * apply no_whoops_bound in Hwhoops; [|pow2; lia|done].
        cbn [cl] in Hrun.
        destruct (Z.eqb_spec (i16 (GetChannel cfg (bid dp) (Z.of_nat channel)))
                    (-1)) as [|Hcl]; [done|].
        destruct (fragment_loop _ _ _ _ _ _ _ _) as [[smallest st1]| |] eqn:Hloop;
          try done.
        cbn [mbind outcome_bind] in Hrun.
        assert (Hfrag : adds P st st1).
        { eapply fragment_loop_adds in Hloop; [done| | |lia|lia|].
          - cbn [samples_in_pulse]. rewrite Z.shiftl_mul_pow2 by lia.
            pow2. rewrite u32_small; pow2; lia.
          - cbn [cl]. unfold i16 in *. by rewrite signed_idemp.
          - right. lia. }
        destruct (fForceQuit cfg).
        -- injection Hrun as _ <-. done.
        -- eapply adds_trans; [exact Hfrag|]. by eapply IH.
Qed.

Lemma parse_loop_adds fuel inner dp tw :
  0 <= tw < 2 ^ 30 →
  ∀ cur st cur' st',
    parse_loop fuel inner cfg dp tw cur st = Done (cur', st') →
    adds P st st'.
Proof.
  intros Htw. induction fuel as [|fuel IH]; intros cur st cur' st' Hrun;
    [done|].
  cbn [parse_loop] in Hrun.
  destruct (_ && _); [|injection Hrun as _ <-; by apply adds_refl].
  destruct (_ =? 0xA); [|by eapply IH].
  destruct (parse_event _ _ _ _ _ _) as [[[cur1 st1] go_on]| |] eqn:Hevent;
    try done.
  cbn [mbind outcome_bind] in Hrun.
  assert (Hev : adds P st st1).
  { unfold parse_event in Hevent. destruct (negb (_ =? 0)).
    - injection Hevent as _ <- _. by apply adds_refl.
    - destruct (channel_loop _ _ _ _ _ _ _ _ _ _ _) as [[cur2 st2]| |] eqn:Hloop;
        try done.
      cbn in Hevent. injection Hevent as _ <- _.
      apply channel_loop_adds in Hloop; [|done].
      eapply adds_trans; [|exact Hloop]. by apply adds_refl. }
  destruct go_on.
  - eapply adds_trans; [exact Hev|]. by eapply IH.
  - by injection Hrun as _ <-.
Qed.

Lemma ParseDocuments_adds fuel dp st st' :
  ParseDocuments fuel cfg dp st = Done st' → adds P st st'.
Proof.
  unfold ParseDocuments. intros Hrun.
  assert (Htw : 0 <= u32 (size dp) / 4 < 2 ^ 30).
  { pose proof (u32_range (size dp)) as Hsize. pow2.
    split; [apply Z.div_pos; lia|apply Z.div_lt_upper_bound; lia]. }
  destruct (parse_loop _ _ _ _ _ _ _) as [[cur1 st1]| |] eqn:Hloop; try done.
  cbn [mbind outcome_bind] in Hrun.
  apply parse_loop_adds in Hloop; [|done].
  eapply adds_trans; [exact Hloop|]. apply adds_refl.
  destruct (negb _).
  - destruct (WriteOutFiles _ _ _ _) as [st2| |] eqn:Hw; try done.
    cbn [mbind outcome_bind] in Hrun. injection Hrun as <-.
    by apply WriteOutFiles_emitted in Hw.
  - cbn [mbind outcome_bind] in Hrun. by injection Hrun as <-.
Qed.
End EmittedFragments.

Lemma well_formed_deadtime cfg timestamp bid :
  2 <= fFragmentBytes cfg < 2 ^ 16 → i64 timestamp = timestamp →
  well_formed cfg (deadtime_fragment cfg timestamp bid, timestamp).
Proof.
  intros Hfb Ht. pose proof (fragment_samples_range cfg Hfb) as (Hfs & _).
  unfold well_formed. cbn [fst snd].
  rewrite deadtime_is_strax_fragment, read_header_strax_fragment.
  cbn [h_time h_channel h_samples_this_fragment h_samples_in_pulse].
  rewrite <- shiftr_1. unfold i32. rewrite signed_idemp by lia.
  rewrite (signed_small 32 (Z.shiftr _ 1))
    by (change (2 ^ (32 - 1)) with (2 ^ 31); pow2; lia).
  split; [done|]. split; [by vm_compute|]. lia.
Qed.

Lemma well_formed_waveform cfg t stf w c sip fi bl data :
  1 <= stf <= Z.shiftr (fFragmentBytes cfg) 1 → stf <= sip < 2 ^ 31 →
  i16 c ≠ -1 →
  well_formed cfg (strax_fragment cfg t stf w c sip fi bl data, i64 t).
Proof.
  intros Hstf Hsip Hc. unfold well_formed. cbn [fst snd].
  rewrite read_header_strax_fragment.
  cbn [h_time h_channel h_samples_this_fragment h_samples_in_pulse].
  rewrite <- shiftr_1. unfold i32.
  rewrite !signed_small by (change (2 ^ (32 - 1)) with (2 ^ 31); lia).
  split; [done|]. split; [done|]. lia.
Qed.

(** X18. Every fragment a call of [ParseDocuments] hands to the router,
    waveform or artificial dead time, is well formed: the time in its
    header is the timestamp it is routed by, its channel is not -1, and its
    sample count lies between 1 and [payload_bytes / 2] and does not exceed
    the pulse length it announces. *)
Theorem every_fragment_is_well_formed cfg fuel dp st st' :
  2 <= fFragmentBytes cfg < 2 ^ 16 →
  ParseDocuments fuel cfg dp st = Done st' →
  ∃ fragments,
    emitted st' = emitted st ++ fragments
    ∧ Forall (λ ft,
        h_time (read_header ft.1) = ft.2
        ∧ h_channel (read_header ft.1) ≠ -1
        ∧ 1 <= h_samples_this_fragment (read_header ft.1)
            <= fFragmentBytes cfg / 2
        ∧ h_samples_this_fragment (read_header ft.1)
            <= h_samples_in_pulse (read_header ft.1)) fragments.
Proof.
  intros Hfb Hrun.
  apply (ParseDocuments_adds cfg (well_formed cfg) Hfb) in Hrun; [done|..].
  - intros timestamp bid. by apply well_formed_deadtime.
  - intros. by apply well_formed_waveform.
Qed.

Lemma every_fragment_is_well_formed_witness :
  let cfg := tiny_payload_cfg in
  ∃ st',
    ParseDocuments 8 cfg three_word_packet fresh = Done st'
    ∧ ∃ fragments,
        emitted st' = emitted fresh ++ fragments
        ∧ Forall (λ ft,
            h_time (read_header ft.1) = ft.2
            ∧ h_channel (read_header ft.1) ≠ -1
            ∧ 1 <= h_samples_this_fragment (read_header ft.1)
                <= fFragmentBytes cfg / 2
            ∧ h_samples_this_fragment (read_header ft.1)
                <= h_samples_in_pulse (read_header ft.1)) fragments.
Proof.
  intros cfg. eexists. split; [by vm_compute|].
  apply (every_fragment_is_well_formed cfg 8 three_word_packet fresh);
    by vm_compute.
Defined.

(** ** Where the samples are copied from *)

Lemma length_buffer_bytes dp :
  length (buffer_bytes dp) = (4 * length (buff dp))%nat.
Proof.
  unfold buffer_bytes. induction (buff dp) as [|w ws IH]; [done|].
  cbn [flat_map length]. rewrite length_app, length_le_bytes, IH. lia.
Qed.

Lemma channel_header_idx fmt dp wie esi cie et channel cur :
  0 <= idx cur < 2 ^ 32 →
  match channel_header fmt dp wie esi cie et channel cur with
  | Garbled i | Empty i | Payload i _ _ _ _ _ _ => 0 <= i < 2 ^ 32
  end.
Proof.
  intros Hidx. unfold channel_header.
  destruct (0 <? _); [|done].
  destruct (_ <? _); [apply u32_range|].
  destruct (_ <=? u32 _); [apply u32_range|].
  destruct (_ <=? 2); apply u32_range.
Qed.

Section CopiedFromInside.
Context (cfg : Config) (dp : data_packet).

Let fs := Z.shiftr (fFragmentBytes cfg) 1.
Let tw := u32 (size dp) / 4.

Hypothesis payload_range : 2 <= fFragmentBytes cfg < 2 ^ 16.
Hypothesis buffer_holds_size : tw <= Z.of_nat (length (buff dp)).
Hypothesis index_fits : 2 * tw <= 2 ^ 16 * fs.

Lemma tw_range : 0 <= tw < 2 ^ 30.
Proof.
  subst tw. pose proof (u32_range (size dp)) as Hsize. pow2.
  split; [apply Z.div_pos; lia|apply Z.div_lt_upper_bound; lia].
Qed.

Lemma fragment_loop_inside p fuel i cw :
  0 <= i → 0 <= cw → (0 < cw → i + cw <= tw) →
  offset p = 2 * i → samples_in_pulse p = 2 * cw →
  ∀ index fi smallest st smallest' st',
    0 <= index → 0 <= fi < 2 ^ 16 →
    samples_in_pulse p <= index ∨ index = fi * fs →
    fragment_loop fuel cfg dp p index fi smallest st
      = Done (smallest', st') →
    adds (copied_from_inside cfg dp) st st'.
Proof.
  intros Hi Hcw Hend Hoff Hsip.
  pose proof (fragment_samples_range cfg payload_range) as (Hfs & Hfb).
  pose proof tw_range as Htw.
  fold fs in Hfs, Hfb.
  set (sip := samples_in_pulse p) in *.
  induction fuel as [|fuel IH];
    intros index fi smallest st smallest' st' Hindex Hfi Hinv Hrun; [done|].
  cbn [fragment_loop] in Hrun. fold fs sip in Hrun.
  destruct (Z.ltb_spec index sip) as [Hlt|Hge];
    [|injection Hrun as _ <-; by apply adds_refl].
  destruct Hinv as [?| ->]; [lia|].
  assert (Hin : i + cw <= tw) by (apply Hend; lia).
  assert (Hfifs : 0 <= fi * fs < 2 ^ 31) by (pow2; nia).
  rewrite (u32_small (fs + fi * fs)) in Hrun by (pow2; lia).
  rewrite (u32_small (sip - fi * fs)) in Hrun by (pow2; lia).
  rewrite (u32_small fs) in Hrun by (pow2; lia).
  rewrite Hoff, (u32_small (2 * i + fi * fs)) in Hrun by (pow2; lia).
  assert (Hu16 : 0 <= u16 (fi + 1) < 2 ^ 16) by (apply Z.mod_pos_bound; lia).
  set (stf := if sip <? fs + fi * fs then _ else fs) in Hrun.
  set (next := if sip <? fs + fi * fs then _ else _) in Hrun.
  assert (Hstf : 1 <= stf <= fs ∧ fi * fs + stf <= sip ∧ 0 <= next
                 ∧ (sip <= next ∨ next = u16 (fi + 1) * fs)).
  { subst stf next. destruct (Z.ltb_spec sip (fs + fi * fs)).
    - rewrite (u32_small (fi * fs + (sip - fi * fs))) by (pow2; lia).
      rewrite u32_small by (pow2; lia).
      lia.
    - rewrite u32_small by (pow2; lia).
      split; [lia|]. split; [lia|]. split; [lia|].
      destruct (Z.eq_dec (fi + 1) (2 ^ 16)) as [Hwrap|Hno].
      + left. nia.
      + right. rewrite u16_small by lia. lia. }
  clearbody stf next.
  rewrite (u32_small (stf * 2)) in Hrun by (pow2; lia).
  destruct (AddFragmentToBuffer _ _ _ _) as [st1 chunk_id] eqn:Hadd.
  assert (Hone : adds (copied_from_inside cfg dp) st st1).
  { apply (f_equal fst) in Hadd. simpl in Hadd. subst st1.
    eapply adds_trans;
      [apply (adds_refl _ st (count_fragment st)); done|].
    apply adds_one. right. exists (2 * (2 * i + fi * fs)).
    cbn [fst snd]. rewrite read_header_strax_fragment.
    cbn [h_samples_this_fragment]. unfold i32.
    rewrite (signed_small 32 stf)
      by (change (2 ^ (32 - 1)) with (2 ^ 31); pow2; lia).
    split; [lia|]. split; [fold tw; lia|].
    rewrite samples_of_strax_fragment; [by rewrite (Z.mul_comm stf 2)|pow2; lia|].
    rewrite length_sub_bytes; [lia|lia|lia|].
    rewrite length_buffer_bytes. lia. }
  destruct (fForceQuit cfg).
  - injection Hrun as _ <-. done.
  - eapply adds_trans; [exact Hone|].
    eapply (IH next (u16 (fi + 1))); [lia|lia|tauto|exact Hrun].
Qed.

Lemma channel_loop_inside fuel wie esi mask et :
  ∀ channels cur st cur' st',
    0 <= idx cur < 2 ^ 32 →
    channel_loop fuel cfg dp tw wie esi mask et channels cur st
      = Done (cur', st') →
    adds (copied_from_inside cfg dp) st st' ∧ 0 <= idx cur' < 2 ^ 32.
Proof.
  pose proof tw_range as Htw.
  intros channels.
  induction channels as [|channel rest IH]; intros cur st cur' st' Hidx Hrun.
  - injection Hrun as <- <-. split; [by apply adds_refl|done].
  - cbn [channel_loop] in Hrun.
    destruct (negb _); [by eapply IH|].
    pose proof (channel_header_idx (fFmt cfg (bid dp)) dp wie esi
                  (popcount mask) et channel cur Hidx) as Hi.
    destruct (channel_header _ _ _ _ _ _ _ _)
      as [i|i|i cw ct msb bl ccs lts] eqn:Hhdr.
    + injection Hrun as <- <-. split; [by apply adds_refl|done].
    + eapply IH; [|exact Hrun]. done.
    + apply channel_header_words_nonneg in Hhdr; [|apply popcount_nonneg].
      destruct (whoops_of _ _ _ _ _ _) eqn:Hwhoops.
      * injection Hrun as <- <-. split; [|done].
        unfold GenerateArtificialDeadtime.
        apply adds_one. left. by eexists.
      * assert (Hin : 0 < cw → i + cw <= tw).
        { intros Hpos. eapply no_whoops_inside; [| | |exact Hwhoops];
            pow2; lia. }
        apply no_whoops_bound in Hwhoops; [|pow2; lia|done].
        cbn [cl] in Hrun.
        destruct (_ =? -1); [done|].
        destruct (fragment_loop _ _ _ _ _ _ _ _) as [[smallest st1]| |] eqn:Hloop;
          try done.
        cbn [mbind outcome_bind] in Hrun.
        assert (Hfrag : adds (copied_from_inside cfg dp) st st1).
        { destruct (Z.eq_dec cw 0) as [->|Hne].
          - destruct fuel; [done|]. injection Hloop as _ <-.
            by apply adds_refl.
          - eapply (fragment_loop_inside _ _ i cw) in Hloop;
              [done|lia|lia|done| | |lia|lia|by right].
            + cbn [offset]. rewrite Z.shiftl_mul_pow2 by lia.
              rewrite u32_small; pow2; lia.
            + cbn [samples_in_pulse]. rewrite Z.shiftl_mul_pow2 by lia.
              rewrite u32_small; pow2; lia. }
        destruct (fForceQuit cfg).
        -- injection Hrun as <- <-. split; [done|]. simpl. apply u32_range.
        -- eapply IH in Hrun as [Hrest Hidx']; [|simpl; apply u32_range].
           split; [|done]. by eapply adds_trans.
Qed.

Lemma parse_loop_inside fuel inner :
  ∀ cur st cur' st',
    0 <= idx cur < 2 ^ 32 →
    parse_loop fuel inner cfg dp tw cur st = Done (cur', st') →
    adds (copied_from_inside cfg dp) st st'.
Proof.
  induction fuel as [|fuel IH]; intros cur st cur' st' Hidx Hrun; [done|].
  cbn [parse_loop] in Hrun.
  destruct (_ && _); [|injection Hrun as _ <-; by apply adds_refl].
  destruct (_ =? 0xA);
    [|eapply IH; [|exact Hrun]; simpl; apply u32_range].
  destruct (parse_event _ _ _ _ _ _) as [[[cur1 st1] go_on]| |] eqn:Hevent;
    try done.
  cbn [mbind outcome_bind] in Hrun.
  assert (Hev : adds (copied_from_inside cfg dp) st st1
                ∧ 0 <= idx cur1 < 2 ^ 32).
  { unfold parse_event in Hevent. destruct (negb (_ =? 0)).
    - injection Hevent as <- <- _.
      split; [by apply adds_refl|simpl; apply u32_range].
    - destruct (channel_loop _ _ _ _ _ _ _ _ _ _ _) as [[cur2 st2]| |] eqn:Hloop;
        try done.
      cbn in Hevent. injection Hevent as <- <- _.
      apply channel_loop_inside in Hloop as [Hloop Hidx2];
        [|simpl; apply u32_range].
      split; [|done].
      eapply adds_trans; [|exact Hloop]. by apply adds_refl. }
  destruct Hev as [Hev Hidx1]. destruct go_on.
  - eapply adds_trans; [exact Hev|]. by eapply IH.
  - by injection Hrun as _ <-.
Qed.
End CopiedFromInside.

(** X19. The waveform is copied from inside the packet. If the buffer holds
    the [size] bytes the packet announces and the packet's samples fit in
    65536 fragments (the range of the 16-bit [fragment_index]), every
    fragment a call of [ParseDocuments] hands to the router is either the
    artificial dead-time fragment or carries [2 * samples_this_fragment]
    bytes that lie, as one run, within the first [4 * (size / 4)] bytes of
    the buffer. *)
Theorem waveforms_are_copied_from_inside_the_packet fuel cfg dp st st' :
  2 <= fFragmentBytes cfg < 2 ^ 16 →
  u32 (size dp) / 4 <= Z.of_nat (length (buff dp)) →
  2 * (u32 (size dp) / 4) <= 2 ^ 16 * (fFragmentBytes cfg / 2) →
  ParseDocuments fuel cfg dp st = Done st' →
  ∃ fragments,
    emitted st' = emitted st ++ fragments
    ∧ Forall (λ ft,
        (∃ bid, ft.1 = deadtime_fragment cfg ft.2 bid)
        ∨ ∃ pos,
            let n := 2 * h_samples_this_fragment (read_header ft.1) in
            0 <= pos ∧ pos + n <= 4 * (u32 (size dp) / 4)
            ∧ samples_of ft.1 = sub_bytes pos n (buffer_bytes dp)) fragments.
Proof.
  intros Hfb Hbuf Hfit. rewrite <- shiftr_1 in Hfit.
  unfold ParseDocuments. intros Hrun.
  destruct (parse_loop _ _ _ _ _ _ _) as [[cur1 st1]| |] eqn:Hloop; try done.
  cbn [mbind outcome_bind] in Hrun.
  apply (parse_loop_inside cfg dp Hfb Hbuf Hfit) in Hloop; [|simpl; lia].
  eapply (adds_trans (copied_from_inside cfg dp)); [exact Hloop|].
  apply adds_refl.
  destruct (negb _).
  - destruct (WriteOutFiles _ _ _ _) as [st2| |] eqn:Hw; try done.
    cbn [mbind outcome_bind] in Hrun. injection Hrun as <-.
    by apply WriteOutFiles_emitted in Hw.
  - cbn [mbind outcome_bind] in Hrun. by injection Hrun as <-.
Qed.

Lemma waveforms_are_copied_from_inside_the_packet_witness :
  let cfg := tiny_payload_cfg in
  let st' := result fresh (ParseDocuments 8 cfg three_word_packet fresh) in
  ParseDocuments 8 cfg three_word_packet fresh = Done st'
  ∧ ∃ fragments,
      emitted st' = emitted fresh ++ fragments
      ∧ Forall (λ ft,
          (∃ bid, ft.1 = deadtime_fragment cfg ft.2 bid)
          ∨ ∃ pos,
              let n := 2 * h_samples_this_fragment (read_header ft.1) in
              0 <= pos ∧ pos + n <= 4 * (u32 (size three_word_packet) / 4)
              ∧ samples_of ft.1
                = sub_bytes pos n (buffer_bytes three_word_packet)) fragments.
Proof.
  intros cfg st'. split; [by vm_compute|].
  apply (waveforms_are_copied_from_inside_the_packet 8 cfg three_word_packet
           fresh); by vm_compute.
Defined.

(** ** Fragments of the packet at hand are not written out *)

Lemma tracks_refl cfg s st st' :
  emitted st' = emitted st → fFragments st' = fFragments st →
  tracks cfg s st s st'.
Proof.
  intros Hem Hfr. exists []. rewrite app_nil_r. split; [done|].
  split; [by rewrite Hfr|]. split; [by intros f t name Hin%elem_of_nil|].
  split; [rewrite Hfr; by left|].
  intros log. by rewrite app_nil_r.
Qed.

Lemma tracks_trans cfg s1 st1 s2 st2 s3 st3 :
  tracks cfg s1 st1 s2 st2 → tracks cfg s2 st2 s3 st3 →
  tracks cfg s1 st1 s3 st3.
Proof.
  intros (f12 & He12 & Hk12 & Hd12 & Hn12 & Hs12)
         (f23 & He23 & Hk23 & Hd23 & Hn23 & Hs23).
  exists (f12 ++ f23). split; [by rewrite He23, He12, app_assoc|].
  split; [by intros name ?%Hk12%Hk23|]. split; [|split].
  - intros f t name [Hin|Hin]%elem_of_app Hname.
    + by eapply Hk23, Hd12.
    + by eapply Hd23.
  - intros name Hsome.
    destruct (Hn23 name Hsome) as [Hmid|(f & t & Hin & Hname)].
    + destruct (Hn12 name Hmid) as [?|(f & t & Hin & Hname)]; [by left|].
      right. exists f, t. split; [apply elem_of_app; by left|done].
    + right. exists f, t. split; [apply elem_of_app; by right|done].
  - intros log Hlog. rewrite app_assoc. by apply Hs23, Hs12.
Qed.

Lemma tracks_route cfg s s' fragment timestamp st :
  (∀ log, seen cfg s log → seen cfg s' (log ++ [(fragment, timestamp)])) →
  tracks cfg s st s' (AddFragmentToBuffer cfg fragment timestamp st).1.
Proof.
  intros Hseen. exists [(fragment, timestamp)].
  destruct (AddFragmentToBuffer_buckets cfg fragment timestamp st)
    as (Hfr & _ & _).
  split; [apply emitted_AddFragmentToBuffer|]. rewrite Hfr.
  split; [intros name; apply foldl_bucket_append_keeps|].
  split; [|split; [|done]].
  - intros f t name [= -> ->]%list_elem_of_singleton Hname.
    by apply foldl_bucket_append_here.
  - intros name [Hin|Hold]%foldl_bucket_append_inv; [|by left].
    right. exists fragment, timestamp. split; [apply list_elem_of_here|done].
Qed.

Lemma seen_waveform cfg s fragment timestamp log :
  seen cfg s log →
  seen cfg (if (s =? -1) || (chunk_of cfg timestamp <? s)
            then chunk_of cfg timestamp else s)
    (log ++ [(fragment, timestamp)]).
Proof.
  intros Hlog Hpos.
  destruct Hlog as [Hs Hall].
  { intros f t Hin. apply (Hpos f t), elem_of_app. by left. }
  assert (Hc : 0 <= chunk_of cfg timestamp).
  { apply (Hpos fragment timestamp), elem_of_app. right.
    apply list_elem_of_here. }
  destruct (Z.eqb_spec s (-1)) as [->|Hne]; cbn [orb].
  - split; [by right|]. intros f t [Hin|Hin]%elem_of_app.
    + destruct (Hall f t Hin) as [?|?]; [by left|lia].
    + apply list_elem_of_singleton in Hin as [= -> ->]. right. lia.
  - destruct (Z.ltb_spec (chunk_of cfg timestamp) s).
    + split; [by right|]. intros f t [Hin|Hin]%elem_of_app.
      * destruct (Hall f t Hin) as [?|?]; [by left|right; lia].
      * apply list_elem_of_singleton in Hin as [= -> ->]. right. lia.
    + split; [done|]. intros f t [Hin|Hin]%elem_of_app.
      * by apply Hall.
      * apply list_elem_of_singleton in Hin as [= -> ->]. right. lia.
Qed.

Lemma seen_deadtime cfg s timestamp bid log :
  seen cfg s log →
  seen cfg s (log ++ [(deadtime_fragment cfg timestamp bid, timestamp)]).
Proof.
  intros Hlog Hpos.
  destruct Hlog as [Hs Hall].
  { intros f t Hin. apply (Hpos f t), elem_of_app. by left. }
  split; [done|]. intros f t [Hin|Hin]%elem_of_app; [by apply Hall|].
  apply list_elem_of_singleton in Hin as [= -> ->]. left.
  by rewrite deadtime_is_strax_fragment, read_header_strax_fragment.
Qed.

Lemma tracks_fragment_loop cfg dp p fuel :
  ∀ index fi s st s' st',
    fragment_loop fuel cfg dp p index fi s st = Done (s', st') →
    tracks cfg s st s' st'.
Proof.
  induction fuel as [|fuel IH]; intros index fi s st s' st' Hrun; [done|].
  cbn [fragment_loop] in Hrun.
  destruct (_ <? samples_in_pulse p);
    [|injection Hrun as <- <-; by apply tracks_refl].
  destruct (AddFragmentToBuffer _ _ _ _) as [st1 chunk_id] eqn:Hadd.
  pose proof (returned_AddFragmentToBuffer cfg) as Hret.
  pose proof (f_equal snd Hadd) as Hid. rewrite Hret in Hid. cbn in Hid.
  subst chunk_id.
  set (t := i64 _) in *.
  set (s1 := if (s =? -1) || (chunk_of cfg t <? s) then _ else s) in Hrun.
  assert (Hone : tracks cfg s st s1 st1).
  { apply (f_equal fst) in Hadd. simpl in Hadd. subst st1.
    eapply tracks_trans;
      [apply (tracks_refl cfg s st (count_fragment st)); done|].
    apply tracks_route. intros log. apply seen_waveform. }
  destruct (fForceQuit cfg).
  - by injection Hrun as <- <-.
  - eapply tracks_trans; [exact Hone|]. by eapply IH.
Qed.

Lemma tracks_channel_loop fuel cfg dp tw wie esi mask et :
  ∀ channels cur st cur' st',
    channel_loop fuel cfg dp tw wie esi mask et channels cur st
      = Done (cur', st') →
    tracks cfg (smallest_latest_index_seen cur) st
      (smallest_latest_index_seen cur') st'.
Proof.
  induction channels as [|channel rest IH]; intros cur st cur' st' Hrun.
  - injection Hrun as <- <-. by apply tracks_refl.
  - cbn [channel_loop] in Hrun.
    destruct (negb _); [by eapply IH|].
    destruct (channel_header _ _ _ _ _ _ _ _)
      as [i|i|i cw ct msb bl ccs lts].
    + injection Hrun as <- <-. by apply tracks_refl.
    + apply IH in Hrun. exact Hrun.
    + destruct (whoops_of _ _ _ _ _ _).
      * injection Hrun as <- <-. unfold GenerateArtificialDeadtime.
        apply tracks_route. intros log. apply seen_deadtime.
      * destruct (_ =? -1); [done|].
        destruct (fragment_loop _ _ _ _ _ _ _ _) as [[s1 st1]| |] eqn:Hloop;
          try done.
        cbn [mbind outcome_bind] in Hrun.
        apply tracks_fragment_loop in Hloop.
        cbn [smallest_latest_index_seen] in Hloop.
        destruct (fForceQuit cfg); [by injection Hrun as <- <-|].
        apply IH in Hrun. cbn [smallest_latest_index_seen set_smallest] in Hrun.
        by eapply tracks_trans.
Qed.

Lemma tracks_parse_loop cfg fuel inner dp tw :
  ∀ cur st cur' st',
    parse_loop fuel inner cfg dp tw cur st = Done (cur', st') →
    tracks cfg (smallest_latest_index_seen cur) st
      (smallest_latest_index_seen cur') st'.
Proof.
  induction fuel as [|fuel IH]; intros cur st cur' st' Hrun; [done|].
  cbn [parse_loop] in Hrun.
  destruct (_ && _); [|injection Hrun as <- <-; by apply tracks_refl].
  destruct (_ =? 0xA); [|apply IH in Hrun; exact Hrun].
  destruct (parse_event _ _ _ _ _ _) as [[[cur1 st1] go_on]| |] eqn:Hevent;
    try done.
  cbn [mbind outcome_bind] in Hrun.
  assert (Hev : tracks cfg (smallest_latest_index_seen cur) st
                  (smallest_latest_index_seen cur1) st1).
  { unfold parse_event in Hevent. destruct (negb (_ =? 0)).
    - injection Hevent as <- <- _. by apply tracks_refl.
    - destruct (channel_loop _ _ _ _ _ _ _ _ _ _ _) as [[cur2 st2]| |] eqn:Hloop;
        try done.
      cbn in Hevent. injection Hevent as <- <- _.
      apply tracks_channel_loop in Hloop.
      eapply tracks_trans; [|exact Hloop].
      apply (tracks_refl cfg _ st (count_event st)); done. }
  destruct go_on.
  - apply IH in Hrun. by eapply tracks_trans.
  - by injection Hrun as <- <-.
Qed.

Lemma WriteOutFiles_keeps_unselected cfg s st st' name :
  WriteOutFiles cfg s false st = Done st' →
  selected s false name = false →
  fFragments st' !! name = fFragments st !! name.
Proof.
  unfold WriteOutFiles.
  destruct (write_loop _ _ _ _ _ _) as [[st1 clear]| |] eqn:Hloop; [|done..].
  cbn [mbind outcome_bind]. intros [= <-] Hsel.
  apply write_loop_size in Hloop as (written & -> & _ & Hall & Hfr & _).
  cbn [set_fragments fFragments app].
  rewrite lookup_foldl_delete, Hfr, decide_False; [done|].
  intros Hin. rewrite Forall_forall in Hall. specialize (Hall name Hin).
  congruence.
Qed.

(** X20. [ParseDocuments] does not write out what it has just decoded. The
    buckets that received a waveform fragment of the packet at hand are
    still in memory when the call returns, provided the fragments of the
    packet lie at times [t >= 0] with chunk ids below 999999: the flush at
    the end of the call takes the smallest chunk id of these fragments as
    its threshold. (An artificial dead-time fragment, channel 790, does not
    lower the threshold.) *)
Theorem fresh_waveforms_stay_in_memory fuel cfg dp st st' :
  0 < fFullChunkLength cfg →
  ParseDocuments fuel cfg dp st = Done st' →
  ∃ fragments,
    emitted st' = emitted st ++ fragments
    ∧ ((∀ f t, (f, t) ∈ fragments → routable cfg t) →
       ∀ f t name,
         (f, t) ∈ fragments → h_channel (read_header f) ≠ 790 →
         name ∈ destinations cfg t →
         is_Some (fFragments st' !! name)).
Proof.
  intros Hfull. unfold ParseDocuments. intros Hrun.
  destruct (parse_loop _ _ _ _ _ _ _) as [[cur1 st1]| |] eqn:Hloop; try done.
  cbn [mbind outcome_bind] in Hrun.
  apply tracks_parse_loop in Hloop
    as (fragments & Hem & _ & Hdest & _ & Hseen).
  cbn [smallest_latest_index_seen] in Hseen.
  set (s := smallest_latest_index_seen cur1) in *.
  specialize (Hseen []). cbn [app] in Hseen.
  assert (Hstart : seen cfg (-1) []).
  { intros _. split; [by left|]. by intros f t Hin%elem_of_nil. }
  specialize (Hseen Hstart).
  exists fragments.
  assert (Hem' : emitted st' = emitted st ++ fragments).
  { rewrite <- Hem. destruct (negb _).
    - destruct (WriteOutFiles _ _ _ _) as [st2| |] eqn:Hw; try done.
      cbn [mbind outcome_bind] in Hrun. injection Hrun as <-.
      by apply WriteOutFiles_emitted in Hw.
    - cbn [mbind outcome_bind] in Hrun. by injection Hrun as <-. }
  split; [done|].
  intros Hroutable f t name Hin Hwave Hname.
  assert (Hchunk : ∀ f t, (f, t) ∈ fragments →
            chunk_of cfg t = t / fFullChunkLength cfg ∧ 0 <= chunk_of cfg t).
  { intros f0 t0 Hin0. destruct (Hroutable f0 t0 Hin0) as [Ht Hc].
    rewrite chunk_of_nonneg by lia. split; [done|]. apply Z.div_pos; lia. }
  destruct Hseen as [Hs Hall]; [intros f0 t0 Hin0; by apply (Hchunk f0 t0)|].
  destruct (Hall f t Hin) as [?|Hst]; [done|].
  destruct (Z.eqb_spec s (-1)) as [Heq|Hne]; [lia|]. cbn [negb] in Hrun.
  destruct (WriteOutFiles _ _ _ _) as [st2| |] eqn:Hw; try done.
  cbn [mbind outcome_bind] in Hrun. injection Hrun as <-.
  cbn [count_bytes fFragments].
  rewrite (WriteOutFiles_keeps_unselected cfg s st1 st2 name Hw);
    [by eapply Hdest|].
  destruct (destinations_router_keys cfg t Hfull (Hroutable f t Hin) name Hname)
    as (_ & i & Hid & Hi).
  rewrite (selected_id s false name i Hid), orb_false_r.
  apply Z.ltb_ge. destruct (Hchunk f t Hin) as [Heq _]. lia.
Qed.

Lemma fresh_waveforms_stay_in_memory_witness :
  let cfg := example_cfg dpp_daw in
  let st' := result fresh (ParseDocuments 17 cfg dpp_daw_packet fresh) in
  ParseDocuments 17 cfg dpp_daw_packet fresh = Done st'
  ∧ ∃ fragments,
      emitted st' = emitted fresh ++ fragments
      ∧ ((∀ f t, (f, t) ∈ fragments → routable cfg t) →
         ∀ f t name,
           (f, t) ∈ fragments → h_channel (read_header f) ≠ 790 →
           name ∈ destinations cfg t →
           is_Some (fFragments st' !! name)).
Proof.
  intros cfg st'. split; [by vm_compute|].
  apply (fresh_waveforms_stay_in_memory 17 cfg dpp_daw_packet fresh);
    by vm_compute.
Defined.

(** ** When the decoder throws *)

Lemma fixed_width_head k :
  ∀ n acc, ∃ d rest,
    0 <= d < 10 ∧ fixed_width (S k) n acc = String (digit_char d) rest.
Proof.
  induction k as [|k IH]; intros n acc.
  - exists (n mod 10), acc. split; [apply Z.mod_pos_bound; lia|done].
  - change (fixed_width (S (S k)) n acc)
      with (fixed_width (S k) (n / 10) (String (digit_char (n mod 10)) acc)).
    apply IH.
Qed.

Lemma digits_head n :
  0 <= n < 10 ^ 10 →
  ∃ d rest, 0 <= d < 10 ∧ digits_of 10 n "" = String (digit_char d) rest.
Proof.
  intros Hn. destruct (digits_of_fixed_width 9 n "") as (k & Hk & _ & _ & ->).
  { by change (Z.of_nat 10) with 10. }
  destruct k as [|k]; [lia|]. apply fixed_width_head.
Qed.

Lemma pad_zeros_head width (s : string) c rest :
  s = String c rest →
  ∃ c' rest', pad_zeros width s = String c' rest'
              ∧ ((c' = "0"%char) ∨ (c' = c ∧ rest' = rest)).
Proof.
  intros ->. unfold pad_zeros.
  destruct (width - String.length (String c rest))%nat as [|j].
  - exists c, rest. split; [done|by right].
  - rewrite Nat.iter_succ. eexists _, _. split; [done|by left].
Qed.

Lemma id_of_digit_start c (s : string) :
  is_digit c = true → is_Some (id_of (String c s)).
Proof.
  intros Hc. unfold id_of, fChunkNameLength.
  change (substring 0 6 (String c s)) with (String c (substring 0 5 s)).
  rewrite stoi_digit_start by done. by eexists.
Qed.

Lemma stoi_minus_digit c (s : string) :
  is_digit c = true → is_Some (stoi (String "-" (String c s))).
Proof.
  intros Hc. unfold stoi.
  change (skip_spaces (String "-" (String c s)))
    with (String "-" (String c s)).
  change (Ascii.eqb "-" "-") with true. cbn iota.
  cbn [starts_with_digit]. rewrite Hc. by eexists.
Qed.

(** Whatever the chunk id, the writer can read an id from a name of the
    router. *)
Lemma id_of_any_chunk_name c (suffix : string) :
  - 2 ^ 31 <= c <= 2 ^ 31 → is_Some (id_of (GetStringFormat c +:+ suffix)).
Proof.
  intros Hc. unfold GetStringFormat, to_string.
  destruct (Z.ltb_spec c 0) as [Hneg|Hpos].
  - destruct (digits_head (- c)) as (d & rest & Hd & ->); [lia|].
    destruct (digit_char_cases d Hd) as [Hdig _].
    destruct (pad_zeros_head fChunkNameLength
                (String "-" (String (digit_char d) rest)) _ _ eq_refl)
      as (c' & rest' & -> & [->|[-> ->]]).
    + by apply id_of_digit_start.
    + unfold id_of, fChunkNameLength. rewrite !string_app_cons.
      change (substring 0 6 (String "-" (String (digit_char d) (rest +:+ suffix))))
        with (String "-" (String (digit_char d)
                            (substring 0 4 (rest +:+ suffix)))).
      by apply stoi_minus_digit.
  - destruct (digits_head c) as (d & rest & Hd & ->); [lia|].
    destruct (digit_char_cases d Hd) as [Hdig _].
    destruct (pad_zeros_head fChunkNameLength (String (digit_char d) rest)
                _ _ eq_refl) as (c' & rest' & -> & [->|[-> ->]]);
      by apply id_of_digit_start.
Qed.

Lemma destinations_parse cfg timestamp name :
  name ∈ destinations cfg timestamp → is_Some (id_of name).
Proof.
  unfold destinations.
  assert (Hc : - 2 ^ 31 <= chunk_of cfg timestamp < 2 ^ 31).
  { unfold chunk_of, i32.
    apply (signed_range 32 (Z.quot timestamp (fFullChunkLength cfg))). lia. }
  destruct (nextpre_of cfg timestamp).
  - intros [->|Hin]%elem_of_cons; [apply id_of_any_chunk_name; lia|].
    apply list_elem_of_singleton in Hin as ->.
    apply id_of_any_chunk_name; lia.
  - intros ->%list_elem_of_singleton.
    rewrite <- (string_app_nil_r (GetStringFormat _)).
    apply id_of_any_chunk_name; lia.
Qed.

Lemma fragment_loop_no_throw cfg dp p fuel what :
  ∀ index fi s st, fragment_loop fuel cfg dp p index fi s st ≠ Throw what.
Proof.
  induction fuel as [|fuel IH]; intros index fi s st; [done|].
  cbn [fragment_loop]. destruct (_ <? samples_in_pulse p); [|done].
  destruct (AddFragmentToBuffer _ _ _ _) as [st1 chunk_id].
  destruct (fForceQuit cfg); [done|apply IH].
Qed.

Lemma channel_loop_no_throw fuel cfg dp tw wie esi mask et what :
  (∀ channel, 0 <= channel < 16 →
              i16 (GetChannel cfg (bid dp) channel) ≠ -1) →
  ∀ channels, Forall (λ channel, (channel < 16)%nat) channels →
    ∀ cur st,
      channel_loop fuel cfg dp tw wie esi mask et channels cur st ≠ Throw what.
Proof.
  intros Hmap channels Hall.
  induction Hall as [|channel rest Hch Hrest IH]; intros cur st; [done|].
  cbn [channel_loop]. destruct (negb _); [apply IH|].
  destruct (channel_header _ _ _ _ _ _ _ _)
    as [i|i|i cw ct msb bl ccs lts]; [done|apply IH|].
  destruct (whoops_of _ _ _ _ _ _); [done|]. cbn [cl].
  destruct (Z.eqb_spec (i16 (GetChannel cfg (bid dp) (Z.of_nat channel))) (-1))
    as [Heq|_]; [apply Hmap in Heq; [done|lia]|].
  destruct (fragment_loop _ _ _ _ _ _ _ _) as [[s1 st1]|w|] eqn:Hloop;
    cbn [mbind outcome_bind]; [|by apply fragment_loop_no_throw in Hloop|done].
  destruct (fForceQuit cfg); [done|apply IH].
Qed.

Lemma parse_loop_no_throw cfg fuel inner dp tw what :
  (∀ channel, 0 <= channel < 16 →
              i16 (GetChannel cfg (bid dp) channel) ≠ -1) →
  ∀ cur st, parse_loop fuel inner cfg dp tw cur st ≠ Throw what.
Proof.
  intros Hmap. induction fuel as [|fuel IH]; intros cur st; [done|].
  cbn [parse_loop]. destruct (_ && _); [|done].
  destruct (_ =? 0xA); [|apply IH].
  destruct (parse_event _ _ _ _ _ _) as [[[cur1 st1] go_on]|w|] eqn:Hevent;
    cbn [mbind outcome_bind]; [destruct go_on; [apply IH|done]| |done].
  unfold parse_event in Hevent. destruct (negb (_ =? 0)); [done|].
  destruct (channel_loop _ _ _ _ _ _ _ _ _ _ _) as [[cur2 st2]|w'|] eqn:Hloop;
    [done| |done].
  apply channel_loop_no_throw in Hloop; [done..|].
  apply Forall_forall. intros channel Hin%elem_of_seq.
  unfold max_channels in Hin. lia.
Qed.

Lemma write_loop_done cfg s e names :
  Forall (λ name, is_Some (id_of name)) names →
  ∀ st clear, ∃ result, write_loop cfg s e names st clear = Done result.
Proof.
  induction 1 as [|name rest [i Hid] Hrest IH]; intros st clear;
    [by eexists|].
  cbn [write_loop]. destruct (String.eqb name ""); [by eexists|].
  rewrite Hid. destruct (negb _); [apply IH|].
  destruct (persist_bucket_spec cfg name i st) as (st1 & -> & _).
  cbn [mbind outcome_bind]. apply IH.
Qed.

(** X21. The decoder throws for one reason only. With a payload of at least
    two bytes, a channel map that answers -1 for none of the sixteen
    channels of the packet's board,
    and bucket names in memory from which the writer can read an id (as it
    can from every name the router makes, whatever the chunk id),
    [ParseDocuments] returns normally on every packet: the model's loop
    bound is not reached, the channel-map exception is not thrown, and the
    flush at the end of the call throws neither [invalid_argument] nor a
    file-system error. The names in memory afterwards can be read again. *)
Theorem ParseDocuments_throws_only_for_the_channel_map fuel cfg dp st :
  2 <= fFragmentBytes cfg < 2 ^ 16 →
  0 <= channel_header_words (fFmt cfg (bid dp)) < 2 ^ 16 →
  2 * (u32 (size dp) / 4) < Z.of_nat fuel →
  (∀ channel, 0 <= channel < 16 →
              i16 (GetChannel cfg (bid dp) channel) ≠ -1) →
  (∀ name, is_Some (fFragments st !! name) → is_Some (id_of name)) →
  ∃ st',
    ParseDocuments fuel cfg dp st = Done st'
    ∧ ∀ name, is_Some (fFragments st' !! name) → is_Some (id_of name).
Proof.
  intros Hfb Hchw Hfuel Hmap Hnames. unfold ParseDocuments.
  assert (Htw : 0 <= u32 (size dp) / 4 <= 2 ^ 30).
  { pose proof (u32_range (size dp)) as Hsize. pow2.
    split; [apply Z.div_pos; lia|].
    apply Z.lt_le_incl, Z.div_lt_upper_bound; lia. }
  set (cur := {| idx := 0; clock_counters := _ |}).
  pose proof (parse_loop_returns fuel fuel cfg dp (u32 (size dp) / 4)
                Hfb Htw Hchw Hfuel cur st) as Hret.
  destruct (parse_loop _ _ _ _ _ _ _) as [[cur1 st1]|what|] eqn:Hloop;
    [|by apply parse_loop_no_throw in Hloop|exfalso; apply Hret; simpl; lia].
  cbn [mbind outcome_bind].
  apply tracks_parse_loop in Hloop as (fragments & _ & _ & _ & Hnew & _).
  assert (Hnames1 : ∀ name, is_Some (fFragments st1 !! name) →
                            is_Some (id_of name)).
  { intros name Hsome. destruct (Hnew name Hsome) as [?|(f & t & _ & Hdest)].
    - by apply Hnames.
    - by eapply destinations_parse. }
  destruct (negb _); [|by exists (count_bytes (size dp) st1)].
  unfold WriteOutFiles.
  destruct (write_loop_done cfg (smallest_latest_index_seen cur1) false
              (bucket_names (fFragments st1))) with (st := st1) (clear := @nil string)
    as ([st2 clear] & Hw).
  { apply Forall_forall. intros name Hin%elem_of_bucket_names.
    by apply Hnames1. }
  rewrite Hw. cbn [mbind outcome_bind]. eexists. split; [done|].
  intros name. cbn [count_bytes set_fragments fFragments].
  rewrite lookup_foldl_delete. case_decide; [by intros [? ?]|].
  apply write_loop_size in Hw as (_ & _ & _ & _ & -> & _). apply Hnames1.
Qed.

Lemma ParseDocuments_throws_only_for_the_channel_map_witness :
  ∃ st',
    ParseDocuments 19 (example_cfg dpp_daw) caened_packet fresh = Done st'
    ∧ ∀ name, is_Some (fFragments st' !! name) → is_Some (id_of name).
Proof.
  apply (ParseDocuments_throws_only_for_the_channel_map 19
           (example_cfg dpp_daw) caened_packet fresh);
    [by vm_compute|by vm_compute|by vm_compute| |].
  - intros channel Hchannel. cbn [GetChannel example_cfg].
    unfold i16. rewrite signed_small; [lia|lia|].
    change (2 ^ (16 - 1)) with (2 ^ 15). pow2. lia.
  - intros name [buffer Hname]. cbn in Hname.
    by rewrite lookup_empty in Hname.
Defined.

(** ** Board failures *)

Lemma same_counters_refl st : same_counters st st.
Proof. done. Qed.

Lemma same_counters_trans st1 st2 st3 :
  same_counters st1 st2 → same_counters st2 st3 → same_counters st1 st3.
Proof. intros (?&?&?&?) (?&?&?&?). repeat split; congruence. Qed.

Lemma same_counters_AddFragmentToBuffer cfg fragment timestamp st :
  same_counters st (AddFragmentToBuffer cfg fragment timestamp st).1.
Proof. unfold AddFragmentToBuffer. by destruct (negb _). Qed.

Lemma same_counters_fragment_loop cfg dp p fuel :
  ∀ index fi smallest st smallest' st',
    fragment_loop fuel cfg dp p index fi smallest st = Done (smallest', st') →
    same_counters st st'.
Proof.
  induction fuel as [|fuel IH]; intros index fi smallest st smallest' st' Hrun;
    [done|].
  cbn [fragment_loop] in Hrun.
  destruct (_ <? samples_in_pulse p); [|by injection Hrun as _ <-].
  destruct (AddFragmentToBuffer _ _ _ _) as [st1 chunk_id] eqn:Hadd.
  assert (Hone : same_counters st st1).
  { apply (f_equal fst) in Hadd. simpl in Hadd. subst st1.
    eapply same_counters_trans; [|apply same_counters_AddFragmentToBuffer].
    done. }
  destruct (fForceQuit cfg); [by injection Hrun as _ <-|].
  eapply same_counters_trans; [exact Hone|]. by eapply IH.
Qed.

Lemma same_counters_channel_loop fuel cfg dp tw wie esi mask et :
  ∀ channels cur st cur' st',
    channel_loop fuel cfg dp tw wie esi mask et channels cur st
      = Done (cur', st') →
    same_counters st st'.
Proof.
  induction channels as [|channel rest IH]; intros cur st cur' st' Hrun.
  - by injection Hrun as _ <-.
  - cbn [channel_loop] in Hrun.
    destruct (negb _); [by eapply IH|].
    destruct (channel_header _ _ _ _ _ _ _ _)
      as [i|i|i cw ct msb bl ccs lts].
    + by injection Hrun as _ <-.
    + by eapply IH.
    + destruct (whoops_of _ _ _ _ _ _).
      * injection Hrun as _ <-. apply same_counters_AddFragmentToBuffer.
      * destruct (_ =? -1); [done|].
        destruct (fragment_loop _ _ _ _ _ _ _ _) as [[smallest st1]| |] eqn:Hloop;
          try done.
        cbn [mbind outcome_bind] in Hrun.
        apply same_counters_fragment_loop in Hloop.
        destruct (fForceQuit cfg); [by injection Hrun as _ <-|].
        eapply same_counters_trans; [exact Hloop|]. by eapply IH.
Qed.

Lemma same_counters_write_loop cfg s e names :
  ∀ st clear st' clear',
    write_loop cfg s e names st clear = Done (st', clear') →
    same_counters st st'.
Proof.
  induction names as [|name rest IH]; intros st clear st' clear' Hrun.
  - by injection Hrun as <- _.
  - cbn [write_loop] in Hrun.
    destruct (String.eqb name ""); [by injection Hrun as <- _|].
    destruct (id_of name) as [i|]; [|done].
    destruct (negb _); [by eapply IH|].
    destruct (persist_bucket cfg name i st) as [st1| |] eqn:Hp; try done.
    cbn [mbind outcome_bind] in Hrun.
    eapply same_counters_trans; [|by eapply IH].
    unfold persist_bucket in Hp. destruct (rename _ _ _); [|done].
    by injection Hp as <-.
Qed.

Lemma same_counters_WriteOutFiles cfg s e st st' :
  WriteOutFiles cfg s e st = Done st' → same_counters st st'.
Proof.
  unfold WriteOutFiles.
  destruct (write_loop _ _ _ _ _ _) as [[st1 clear]| |] eqn:Hloop; try done.
  cbn [mbind outcome_bind]. intros [= <-].
  apply same_counters_write_loop in Hloop.
  eapply same_counters_trans; [exact Hloop|]. by destruct e.
Qed.

Lemma failed_trans b n m st1 st2 st3 :
  failed b n st1 st2 → failed b m st2 st3 → failed b (n + m) st1 st3.
Proof.
  intros (He1 & Hf1 & Hn1 & Hb1) (He2 & Hf2 & Hn2 & Hb2).
  split; [by rewrite He2, He1, replicate_add, app_assoc|].
  split; [|split; [lia|congruence]].
  intros b'. rewrite Hf2, Hf1. case_decide; lia.
Qed.

Lemma failed_none b st st' :
  same_counters st st' → failed b 0 st st'.
Proof.
  intros (Hf & He & Hev & Hb). split; [by rewrite He, app_nil_r|].
  split; [|split; [lia|done]].
  intros b'. unfold fail_count. rewrite Hf. case_decide; simpl; lia.
Qed.

Lemma failed_event cfg fuel dp tw cur st cur' st' go_on :
  parse_event fuel cfg dp tw cur st = Done (cur', st', go_on) →
  ∃ n, failed (bid dp) n st st'.
Proof.
  unfold parse_event. destruct (negb (_ =? 0)).
  - intros [= _ <- _]. exists 1%nat.
    split; [done|]. split; [|split; [simpl; lia|done]].
    intros b'. unfold fail_count. cbn [fFailCounter board_failed count_event].
    case_decide as Hb.
    + subst b'. rewrite lookup_insert_eq. simpl. lia.
    + rewrite lookup_insert_ne by done. lia.
  - destruct (channel_loop _ _ _ _ _ _ _ _ _ _ _) as [[cur1 st1]| |] eqn:Hloop;
      try done.
    cbn. intros [= _ <- _]. exists 0%nat.
    apply same_counters_channel_loop in Hloop.
    destruct Hloop as (Hf & He & Hev & Hb).
    split; [by rewrite He, app_nil_r|].
    split; [|split; [simpl in *; lia|done]].
    intros b'. unfold fail_count. rewrite Hf. case_decide; simpl; lia.
Qed.

Lemma failed_parse_loop cfg fuel inner dp tw :
  ∀ cur st cur' st',
    parse_loop fuel inner cfg dp tw cur st = Done (cur', st') →
    ∃ n, failed (bid dp) n st st'.
Proof.
  induction fuel as [|fuel IH]; intros cur st cur' st' Hrun; [done|].
  cbn [parse_loop] in Hrun.
  destruct (_ && _);
    [|injection Hrun as _ <-; exists 0%nat; by apply failed_none].
  destruct (_ =? 0xA); [|by eapply IH].
  destruct (parse_event _ _ _ _ _ _) as [[[cur1 st1] go_on]| |] eqn:Hevent;
    try done.
  cbn [mbind outcome_bind] in Hrun.
  apply failed_event in Hevent as [n Hn].
  destruct go_on.
  - apply IH in Hrun as [m Hm]. exists (n + m)%nat. by eapply failed_trans.
  - injection Hrun as _ <-. by exists n.
Qed.

Lemma ParseDocuments_counters fuel cfg dp st st' :
  ParseDocuments fuel cfg dp st = Done st' →
  ∃ n : nat,
    errors_checked st' = errors_checked st ++ replicate n (bid dp)
    ∧ (∀ b, fail_count st' b
            = fail_count st b + (if decide (b = bid dp) then Z.of_nat n else 0))
    ∧ Z.of_nat n <= fEventsProcessed st' - fEventsProcessed st
    ∧ fBytesProcessed st' = fBytesProcessed st + size dp.
Proof.
  unfold ParseDocuments. intros Hrun.
  destruct (parse_loop _ _ _ _ _ _ _) as [[cur1 st1]| |] eqn:Hloop; try done.
  cbn [mbind outcome_bind] in Hrun.
  apply failed_parse_loop in Hloop as (n & He & Hf & Hn & Hb).
  assert (∃ st2, same_counters st1 st2 ∧ st' = count_bytes (size dp) st2)
    as (st2 & (Hf2 & He2 & Hn2 & Hb2) & ->).
  { destruct (negb _).
    - destruct (WriteOutFiles _ _ _ _) as [st2| |] eqn:Hw; try done.
      cbn [mbind outcome_bind] in Hrun. injection Hrun as <-.
      exists st2. split; [by eapply same_counters_WriteOutFiles|done].
    - cbn [mbind outcome_bind] in Hrun. injection Hrun as <-. by exists st1. }
  exists n. unfold fail_count in *.
  cbn [errors_checked fFailCounter fEventsProcessed fBytesProcessed
       count_bytes].
  split; [congruence|]. split; [|split; [lia|lia]].
  intros b. rewrite Hf2. apply Hf.
Qed.

(** X22. Board failures are counted and reported alike. Over a call of
    [ParseDocuments] the data source is told [n] times about the packet's
    board, that board's fail counter grows by [n], no other counter moves,
    there is at most one failure per event header seen, and
    [fBytesProcessed] grows by the packet size. *)
Theorem board_failures_are_counted_and_reported fuel cfg dp st st' :
  ParseDocuments fuel cfg dp st = Done st' →
  ∃ n : nat,
    errors_checked st' = errors_checked st ++ replicate n (bid dp)
    ∧ (∀ b, default 0 (fFailCounter st' !! b)
            = default 0 (fFailCounter st !! b)
              + (if decide (b = bid dp) then Z.of_nat n else 0))
    ∧ Z.of_nat n <= fEventsProcessed st' - fEventsProcessed st
    ∧ fBytesProcessed st' = fBytesProcessed st + size dp.
Proof. apply ParseDocuments_counters. Qed.

Lemma board_failures_are_counted_and_reported_witness :
  ∃ st',
    ParseDocuments 3 (example_cfg dpp_daw) board_fail_packet fresh = Done st'
    ∧ errors_checked st' = [5]
    ∧ ∃ n : nat,
        errors_checked st' = errors_checked fresh ++ replicate n 5
        ∧ (∀ b, default 0 (fFailCounter st' !! b)
                = default 0 (fFailCounter fresh !! b)
                  + (if decide (b = 5) then Z.of_nat n else 0))
        ∧ Z.of_nat n <= fEventsProcessed st' - fEventsProcessed fresh
        ∧ fBytesProcessed st' = fBytesProcessed fresh + 20.
Proof.
  eexists. split; [by vm_compute|]. split; [by vm_compute|].
  apply (board_failures_are_counted_and_reported 3 (example_cfg dpp_daw)
           board_fail_packet fresh).
  by vm_compute.
Defined.

(** ** Losses and events *)

Lemma accounts_refl b st st' :
  emitted st' = emitted st →
  fFragmentsProcessed st' = fFragmentsProcessed st →
  same_counters st st' →
  accounts b 0 0 0 st st'.
Proof.
  intros Hem Hfp (_ & He & Hev & _). split; [|split].
  - exists []. rewrite app_nil_r. split; [done|]. simpl. lia.
  - by rewrite He, app_nil_r.
  - lia.
Qed.

Lemma accounts_trans b d1 n1 e1 d2 n2 e2 st1 st2 st3 :
  accounts b d1 n1 e1 st1 st2 → accounts b d2 n2 e2 st2 st3 →
  accounts b (d1 + d2) (n1 + n2) (e1 + e2) st1 st3.
Proof.
  intros ((f12 & Hem12 & Hl12) & He12 & Hev12)
         ((f23 & Hem23 & Hl23) & He23 & Hev23).
  split; [|split].
  - exists (f12 ++ f23). split; [by rewrite Hem23, Hem12, app_assoc|].
    rewrite length_app. lia.
  - by rewrite He23, He12, replicate_add, app_assoc.
  - lia.
Qed.

Lemma accounts_route b cfg fragment timestamp st :
  accounts b 1 0 0 st (AddFragmentToBuffer cfg fragment timestamp st).1.
Proof.
  destruct (same_counters_AddFragmentToBuffer cfg fragment timestamp st)
    as (_ & He & Hev & _).
  split; [|split].
  - exists [(fragment, timestamp)].
    split; [apply emitted_AddFragmentToBuffer|].
    rewrite counted_AddFragmentToBuffer. simpl. lia.
  - by rewrite He, app_nil_r.
  - lia.
Qed.

Lemma accounts_waveform b cfg fragment timestamp st :
  accounts b 0 0 0 st
    (AddFragmentToBuffer cfg fragment timestamp (count_fragment st)).1.
Proof.
  destruct (accounts_route b cfg fragment timestamp (count_fragment st))
    as ((fragments & Hem & Hlen) & He & Hev).
  split; [|split; [exact He|exact Hev]].
  exists fragments. split; [exact Hem|].
  cbn [fFragmentsProcessed count_fragment] in Hlen. simpl. lia.
Qed.

Lemma accounts_fragment_loop b cfg dp p fuel :
  ∀ index fi s st s' st',
    fragment_loop fuel cfg dp p index fi s st = Done (s', st') →
    accounts b 0 0 0 st st'.
Proof.
  induction fuel as [|fuel IH]; intros index fi s st s' st' Hrun; [done|].
  cbn [fragment_loop] in Hrun.
  destruct (_ <? samples_in_pulse p);
    [|injection Hrun as _ <-; by apply accounts_refl].
  destruct (AddFragmentToBuffer _ _ _ _) as [st1 chunk_id] eqn:Hadd.
  assert (Hone : accounts b 0 0 0 st st1).
  { apply (f_equal fst) in Hadd. simpl in Hadd. subst st1.
    apply accounts_waveform. }
  destruct (fForceQuit cfg); [by injection Hrun as _ <-|].
  apply IH in Hrun. apply (accounts_trans b 0 0 0 0 0 0 st st1 st' Hone Hrun).
Qed.

Lemma accounts_channel_loop fuel cfg dp tw wie esi mask et :
  ∀ channels cur st cur' st',
    channel_loop fuel cfg dp tw wie esi mask et channels cur st
      = Done (cur', st') →
    ∃ d, (d <= 1)%nat ∧ accounts (bid dp) d 0 0 st st'.
Proof.
  induction channels as [|channel rest IH]; intros cur st cur' st' Hrun.
  - injection Hrun as _ <-. exists 0%nat. split; [lia|by apply accounts_refl].
  - cbn [channel_loop] in Hrun.
    destruct (negb _); [by eapply IH|].
    destruct (channel_header _ _ _ _ _ _ _ _)
      as [i|i|i cw ct msb bl ccs lts].
    + injection Hrun as _ <-. exists 0%nat.
      split; [lia|by apply accounts_refl].
    + by eapply IH.
    + destruct (whoops_of _ _ _ _ _ _).
      * injection Hrun as _ <-. exists 1%nat. split; [lia|].
        apply accounts_route.
      * destruct (_ =? -1); [done|].
        destruct (fragment_loop _ _ _ _ _ _ _ _) as [[s1 st1]| |] eqn:Hloop;
          try done.
        cbn [mbind outcome_bind] in Hrun.
        apply (accounts_fragment_loop (bid dp)) in Hloop.
        destruct (fForceQuit cfg).
        -- injection Hrun as _ <-. exists 0%nat. split; [lia|done].
        -- apply IH in Hrun as (d & Hd & Hrest). exists d. split; [done|].
           apply (accounts_trans _ 0 0 0 d 0 0 st st1 st' Hloop Hrest).
Qed.

Lemma accounts_parse_loop cfg fuel inner dp tw :
  ∀ cur st cur' st',
    parse_loop fuel inner cfg dp tw cur st = Done (cur', st') →
    ∃ d n e, (d + n <= e)%nat ∧ accounts (bid dp) d n e st st'.
Proof.
  induction fuel as [|fuel IH]; intros cur st cur' st' Hrun; [done|].
  cbn [parse_loop] in Hrun.
  destruct (_ && _);
    [|injection Hrun as _ <-; exists 0%nat, 0%nat, 0%nat;
      split; [lia|by apply accounts_refl]].
  destruct (_ =? 0xA); [|by eapply IH].
  destruct (parse_event _ _ _ _ _ _) as [[[cur1 st1] go_on]| |] eqn:Hevent;
    try done.
  cbn [mbind outcome_bind] in Hrun.
  assert (Hev : ∃ d n, (d + n <= 1)%nat ∧ accounts (bid dp) d n 1 st st1).
  { unfold parse_event in Hevent. destruct (negb (_ =? 0)).
    - injection Hevent as _ <- _. exists 0%nat, 1%nat. split; [lia|].
      split; [|split; [done|simpl; lia]].
      exists []. rewrite app_nil_r. split; [done|]. simpl. lia.
    - destruct (channel_loop _ _ _ _ _ _ _ _ _ _ _) as [[cur2 st2]| |] eqn:Hloop;
        try done.
      cbn in Hevent. injection Hevent as _ <- _.
      apply accounts_channel_loop in Hloop as (d & Hd & Hloop).
      exists d, 0%nat. split; [lia|].
      assert (Hcount : accounts (bid dp) 0 0 1 st (count_event st)).
      { split; [|split; [by rewrite app_nil_r|simpl; lia]].
        exists []. rewrite app_nil_r. split; [done|]. simpl. lia. }
      apply (accounts_trans _ 0 0 1 d 0 0 _ _ _ Hcount Hloop). }
  destruct Hev as (d & n & Hdn & Hev).
  destruct go_on.
  - apply IH in Hrun as (d' & n' & e' & Hdn' & Hrest).
    exists (d + d')%nat, (n + n')%nat, (1 + e')%nat. split; [lia|].
    by eapply accounts_trans.
  - injection Hrun as _ <-. exists d, n, 1%nat. split; [lia|done].
Qed.

Lemma processed_write_loop cfg s e names :
  ∀ st clear st' clear',
    write_loop cfg s e names st clear = Done (st', clear') →
    fFragmentsProcessed st' = fFragmentsProcessed st.
Proof.
  induction names as [|name rest IH]; intros st clear st' clear' Hrun.
  - by injection Hrun as <- _.
  - cbn [write_loop] in Hrun.
    destruct (String.eqb name ""); [by injection Hrun as <- _|].
    destruct (id_of name) as [i|]; [|done].
    destruct (negb _); [by eapply IH|].
    destruct (persist_bucket cfg name i st) as [st1| |] eqn:Hp; try done.
    cbn [mbind outcome_bind] in Hrun. apply IH in Hrun. rewrite Hrun.
    unfold persist_bucket in Hp. destruct (rename _ _ _); [|done].
    by injection Hp as <-.
Qed.

(** X23. Every loss has its event. Over a call of [ParseDocuments],
    [fFragmentsProcessed] counts the waveform fragments handed to the
    router; the [d] fragments it does not count (artificial dead time) and
    the [n] board failures reported together number at most the events
    counted: an event is lost at most once, and in one way. *)
Theorem every_loss_has_its_event fuel cfg dp st st' :
  ParseDocuments fuel cfg dp st = Done st' →
  ∃ (d n : nat) fragments,
    emitted st' = emitted st ++ fragments
    ∧ Z.of_nat (length fragments)
      = fFragmentsProcessed st' - fFragmentsProcessed st + Z.of_nat d
    ∧ errors_checked st' = errors_checked st ++ replicate n (bid dp)
    ∧ Z.of_nat d + Z.of_nat n
      <= fEventsProcessed st' - fEventsProcessed st.
Proof.
  unfold ParseDocuments. intros Hrun.
  destruct (parse_loop _ _ _ _ _ _ _) as [[cur1 st1]| |] eqn:Hloop; try done.
  cbn [mbind outcome_bind] in Hrun.
  apply accounts_parse_loop in Hloop
    as (d & n & e & Hdn & (fragments & Hem & Hlen) & He & Hev).
  assert (∃ st2, st' = count_bytes (size dp) st2
                 ∧ emitted st2 = emitted st1
                 ∧ fFragmentsProcessed st2 = fFragmentsProcessed st1
                 ∧ same_counters st1 st2)
    as (st2 & -> & Hem2 & Hfp2 & (_ & He2 & Hev2 & _)).
  { destruct (negb _).
    - destruct (WriteOutFiles _ _ _ _) as [st2| |] eqn:Hw; try done.
      cbn [mbind outcome_bind] in Hrun. injection Hrun as <-.
      exists st2. split; [done|].
      split; [by eapply WriteOutFiles_emitted|].
      split; [|by eapply same_counters_WriteOutFiles].
      unfold WriteOutFiles in Hw.
      destruct (write_loop _ _ _ _ _ _) as [[st3 clear]| |] eqn:Hwl; try done.
      cbn [mbind outcome_bind] in Hw. injection Hw as <-.
      apply processed_write_loop in Hwl. by destruct (false).
    - cbn [mbind outcome_bind] in Hrun. injection Hrun as <-.
      by exists st1. }
  exists d, n, fragments.
  cbn [emitted fFragmentsProcessed errors_checked fEventsProcessed count_bytes].
  split; [congruence|]. split; [lia|]. split; [congruence|lia].
Qed.

Lemma every_loss_has_its_event_witness :
  let cfg := example_cfg default_firmware in
  let st' := result fresh (ParseDocuments 19 cfg caened_packet fresh) in
  ParseDocuments 19 cfg caened_packet fresh = Done st'
  ∧ length (emitted st') = 1%nat
  ∧ fFragmentsProcessed st' = 0
  ∧ ∃ (d n : nat) fragments,
      emitted st' = emitted fresh ++ fragments
      ∧ Z.of_nat (length fragments)
        = fFragmentsProcessed st' - fFragmentsProcessed fresh + Z.of_nat d
      ∧ errors_checked st' = errors_checked fresh ++ replicate n 3
      ∧ Z.of_nat d + Z.of_nat n
        <= fEventsProcessed st' - fEventsProcessed fresh.
Proof.
  intros cfg st'. split; [by vm_compute|]. split; [by vm_compute|].
  split; [by vm_compute|].
  apply (every_loss_has_its_event 19 cfg caened_packet fresh).
  by vm_compute.
Defined.

(** ** The worker loop *)

Lemma count_bytes_0 st : count_bytes 0 st = st.
Proof. destruct st. unfold count_bytes. simpl. by rewrite Z.add_0_r. Qed.

Lemma ParseDocuments_empty fuel cfg dp st :
  (0 < fuel)%nat → size dp = 0 → ParseDocuments fuel cfg dp st = Done st.
Proof.
  intros Hfuel Hsize. unfold ParseDocuments. rewrite Hsize.
  change (u32 0 / 4) with 0.
  rewrite (parse_loop_skips fuel cfg dp 0 0); [|lia|lia|intros; lia|by left|..].
  - cbn. by rewrite count_bytes_0.
  - cbn. lia.
  - cbn. lia.
Qed.

Lemma parse_batch_empty fuel cfg b st :
  (0 < fuel)%nat → Forall (λ dp, size dp = 0) b →
  parse_batch fuel cfg b st = Done st.
Proof.
  intros Hfuel Hall. induction Hall as [|dp rest Hdp Hrest IH]; [done|].
  cbn [parse_batch]. rewrite ParseDocuments_empty by done.
  cbn [mbind outcome_bind]. by destruct (fForceQuit cfg).
Qed.

(** X24. A worker that is handed no byte leaves no trace: if every packet it
    receives is empty (or it receives none) and nothing was processed
    before, [ReadAndInsertData] skips the end-of-stream flush, so no
    [THE_END] marker is written and the worker is as it was. *)
Theorem idle_worker_writes_no_end_marker fuel cfg batches st :
  (0 < fuel)%nat →
  fBytesProcessed st <= 0 →
  Forall (Forall (λ dp, size dp = 0)) batches →
  ReadAndInsertData fuel cfg batches st = Done st.
Proof.
  intros Hfuel Hbytes Hall. unfold ReadAndInsertData.
  assert (read_loop fuel cfg batches st = Done st) as ->.
  { induction Hall as [|b rest Hb Hrest IH]; [done|].
    cbn [read_loop]. by rewrite parse_batch_empty. }
  cbn [mbind outcome_bind]. by destruct (Z.ltb_spec 0 (fBytesProcessed st)); [lia|].
Qed.

Lemma idle_worker_writes_no_end_marker_witness :
  let dp := {| buff := []; size := 0; clock_counter := 0; header_time := 0;
               bid := 0 |} in
  ReadAndInsertData 1 (example_cfg dpp_daw) [[dp; dp]; []] fresh = Done fresh.
Proof.
  intros dp.
  apply (idle_worker_writes_no_end_marker 1 (example_cfg dpp_daw)
           [[dp; dp]; []] fresh); [lia|by vm_compute|].
  repeat constructor.
Defined.

Lemma bytes_of_parse_batch fuel cfg b :
  fForceQuit cfg = false →
  ∀ st st', parse_batch fuel cfg b st = Done st' →
    fBytesProcessed st'
    = fBytesProcessed st + foldr (λ dp total, size dp + total) 0 b.
Proof.
  intros Hquit. induction b as [|dp rest IH]; intros st st' Hrun.
  - injection Hrun as <-. simpl. lia.
  - cbn [parse_batch] in Hrun.
    destruct (ParseDocuments fuel cfg dp st) as [st1| |] eqn:Hdp; try done.
    cbn [mbind outcome_bind] in Hrun. rewrite Hquit in Hrun.
    apply ParseDocuments_counters in Hdp as (_ & _ & _ & _ & Hbytes).
    apply IH in Hrun. simpl. lia.
Qed.

Lemma foldr_size_acc (b : list data_packet) (total : Z) :
  foldr (λ dp total, size dp + total) total b
  = foldr (λ dp total, size dp + total) 0 b + total.
Proof. induction b as [|dp rest IH]; simpl; lia. Qed.

Lemma bytes_of_read_loop fuel cfg batches :
  fForceQuit cfg = false →
  ∀ st st', read_loop fuel cfg batches st = Done st' →
    fBytesProcessed st' = fBytesProcessed st + total_size batches.
Proof.
  intros Hquit. induction batches as [|b rest IH]; intros st st' Hrun.
  - injection Hrun as <-. unfold total_size. simpl. lia.
  - cbn [read_loop] in Hrun.
    destruct (parse_batch fuel cfg b st) as [st1| |] eqn:Hb; try done.
    cbn [mbind outcome_bind] in Hrun.
    apply bytes_of_parse_batch in Hb; [|done]. apply IH in Hrun.
    unfold total_size in *. cbn [foldr]. rewrite foldr_size_acc. lia.
Qed.

Lemma WriteOutFiles_end cfg s st st' :
  WriteOutFiles cfg s true st = Done st' →
  fFragments st' = ∅
  ∧ fFragmentSize st' = 0
  ∧ "THE_END"%string ∈ dirs (disk st')
  ∧ files (disk st') !! ("THE_END"%string, file_name cfg)
    = Some (bytes_of_string "...my only friend").
Proof.
  unfold WriteOutFiles.
  destruct (write_loop _ _ _ _ _ _) as [[st1 clear]| |]; try done.
  cbn [mbind outcome_bind]. intros [= <-].
  cbn [write_the_end fFragments fFragmentSize set_fragment_size set_fragments
       set_disk disk].
  split; [done|]. split; [done|].
  unfold write_file, exists_dir. cbn [fst].
  rewrite bool_decide_eq_true_2 by apply ensure_directory_dirs.
  cbn [dirs files]. split; [apply ensure_directory_dirs|].
  apply lookup_insert_eq.
Qed.

(** X25. A worker that has processed bytes ends with the end-of-stream
    flush. Without a force-quit, [fBytesProcessed] after
    [ReadAndInsertData] is what it was plus the sizes of all packets of all
    batches; and if that is positive, the worker ends with no bucket in
    memory, [fFragmentSize] at 0 and its file with the bytes
    [...my only friend] in the directory [THE_END]. *)
Theorem worker_ends_with_the_end_marker fuel cfg batches st st' :
  fForceQuit cfg = false →
  ReadAndInsertData fuel cfg batches st = Done st' →
  fBytesProcessed st' = fBytesProcessed st + total_size batches
  ∧ (0 < fBytesProcessed st + total_size batches →
     fFragments st' = ∅
     ∧ fFragmentSize st' = 0
     ∧ "THE_END"%string ∈ dirs (disk st')
     ∧ files (disk st') !! ("THE_END"%string, file_name cfg)
       = Some (bytes_of_string "...my only friend")).
Proof.
  intros Hquit. unfold ReadAndInsertData.
  destruct (read_loop fuel cfg batches st) as [st1| |] eqn:Hloop; try done.
  cbn [mbind outcome_bind].
  apply bytes_of_read_loop in Hloop; [|done].
  destruct (Z.ltb_spec 0 (fBytesProcessed st1)) as [Hpos|Hzero].
  - intros Hw. split.
    + apply same_counters_WriteOutFiles in Hw as (_ & _ & _ & ->). done.
    + intros _. by eapply WriteOutFiles_end.
  - intros [= <-]. split; [done|lia].
Qed.

Lemma worker_ends_with_the_end_marker_witness :
  let cfg := example_cfg dpp_daw in
  let batches := [[dpp_daw_packet]] in
  let st' := result fresh (ReadAndInsertData 20 cfg batches fresh) in
  ReadAndInsertData 20 cfg batches fresh = Done st'
  ∧ fBytesProcessed st' = fBytesProcessed fresh + total_size batches
  ∧ (0 < fBytesProcessed fresh + total_size batches →
     fFragments st' = ∅
     ∧ fFragmentSize st' = 0
     ∧ "THE_END"%string ∈ dirs (disk st')
     ∧ files (disk st') !! ("THE_END"%string, file_name cfg)
       = Some (bytes_of_string "...my only friend")).
Proof.
  intros cfg batches st'. split; [by vm_compute|].
  apply (worker_ends_with_the_end_marker 20 cfg batches fresh);
    by vm_compute.
Defined.

(** ** Closing a worker *)

Lemma lookup_Close st (ret : gmap Z Z) b :
  default 0 (Close st ret !! b)
  = default 0 (ret !! b) + default 0 (fFailCounter st !! b).
Proof.
  unfold Close. generalize (fFailCounter st). intros m.
  induction m as [|k n m Hk Hfold IH] using map_first_key_ind.
  - rewrite map_fold_empty, lookup_empty. simpl. lia.
  - rewrite map_fold_insert_first_key by done.
    destruct (decide (k = b)) as [->|Hne].
    + rewrite !lookup_insert_eq. simpl. rewrite IH, Hk. simpl. lia.
    + rewrite !lookup_insert_ne by done. apply IH.
Qed.

Lemma times_checked_app st st' n b b' :
  errors_checked st' = errors_checked st ++ replicate n b →
  times_checked st' b'
  = times_checked st b' + (if decide (b' = b) then Z.of_nat n else 0).
Proof.
  intros He. unfold times_checked. rewrite He, filter_app, length_app.
  assert (length (filter (λ x, x = b') (replicate n b))
          = if decide (b' = b) then n else 0%nat) as ->.
  { clear. induction n as [|n IH]; [by case_decide|]. cbn [replicate].
    rewrite filter_cons. destruct (decide (b = b')) as [->|Hne].
    - rewrite decide_True in IH |- * by done. simpl. by rewrite IH.
    - rewrite decide_False in IH |- * by congruence. exact IH. }
  case_decide; lia.
Qed.

Lemma counted_parse_batch fuel cfg b :
  ∀ st st', parse_batch fuel cfg b st = Done st' →
    (∀ board, fail_count st board = times_checked st board) →
    ∀ board, fail_count st' board = times_checked st' board.
Proof.
  induction b as [|dp rest IH]; intros st st' Hrun Hinv.
  - by injection Hrun as <-.
  - cbn [parse_batch] in Hrun.
    destruct (ParseDocuments fuel cfg dp st) as [st1| |] eqn:Hdp; try done.
    cbn [mbind outcome_bind] in Hrun.
    apply ParseDocuments_counters in Hdp as (n & He & Hf & _ & _).
    assert (Hinv1 : ∀ board, fail_count st1 board = times_checked st1 board).
    { intros board.
      rewrite Hf, (times_checked_app st st1 n (bid dp) board He), Hinv. done. }
    destruct (fForceQuit cfg); [by injection Hrun as <-|]. by eapply IH.
Qed.

(** X26. [Close] reports every board failure. For a worker that started
    fresh and has run through its batches, [Close] adds to [ret], for every
    board, exactly the number of times the data source was told about a
    failure of that board. *)
Theorem Close_reports_every_failure fuel cfg batches st ret b :
  read_loop fuel cfg batches fresh = Done st →
  default 0 (Close st ret !! b)
  = default 0 (ret !! b)
    + Z.of_nat (length (filter (λ x, x = b) (errors_checked st))).
Proof.
  intros Hrun. rewrite lookup_Close. f_equal.
  assert (Hgen : ∀ st0 st1, read_loop fuel cfg batches st0 = Done st1 →
            (∀ board, fail_count st0 board = times_checked st0 board) →
            ∀ board, fail_count st1 board = times_checked st1 board).
  { clear. induction batches as [|batch rest IH]; intros st0 st1 Hrun Hinv.
    - by injection Hrun as <-.
    - cbn [read_loop] in Hrun.
      destruct (parse_batch fuel cfg batch st0) as [st2| |] eqn:Hb; try done.
      cbn [mbind outcome_bind] in Hrun.
      eapply IH; [exact Hrun|]. by eapply counted_parse_batch. }
  by apply (Hgen fresh st Hrun).
Qed.

Lemma Close_reports_every_failure_witness :
  let cfg := example_cfg dpp_daw in
  let batches := [[board_fail_packet; board_fail_packet]] in
  let st := result fresh (read_loop 3 cfg batches fresh) in
  read_loop 3 cfg batches fresh = Done st
  ∧ default 0 (Close st {[ 5 := 1 ]} !! 5)
    = default 0 (({[ 5 := 1 ]} : gmap Z Z) !! 5)
      + Z.of_nat (length (filter (λ x, x = 5) (errors_checked st)))
  ∧ default 0 (Close st {[ 5 := 1 ]} !! 5) = 3.
Proof.
  intros cfg batches st. split; [by vm_compute|].
  split; [apply (Close_reports_every_failure 3 cfg batches st); by vm_compute|].
  by vm_compute.
Defined.
